(** * setup_biblioteca: the library database set-up script

    A shallow embedding of [src/setup_biblioteca.py].  The script is a linear
    pipeline of calls into a document store; the embedding therefore has two
    layers:

    - the store and the run-time library the script talks to (BSON values,
      [$jsonSchema] validators, unique indexes, ordered bulk inserts, the
      aggregation stages used by the script, [str], [isoformat], [json.dump]),
      written as executable functions;
    - the methods of [BibliotecaSetup], translated statement by statement into
      a state-and-exception monad over a [world] (database, file system,
      console, trace of external calls).

    What the model takes for granted about the outside:
    - an external call that fails for a reason of its own (see [env]) fails
      before it has any effect;
    - the driver's [ObjectId] generator is a counter, so a fresh identifier
      is one not handed out before;
    - the connection string only selects the server, which is the [db] of
      the world; asynchronous interrupts ([KeyboardInterrupt]) do not occur;
    - the two patterns of the validators are anchored at both ends and are
      matched against the whole string.

    Definitions come first; the lemmas and theorems follow. *)

From Stdlib Require Import ZArith NArith Ascii String List Bool Lia.
From stdpp Require Import base option gmap strings list.
Import ListNotations.

Set Warnings "-register-all".

Local Open Scope string_scope.
Local Open Scope Z_scope.

(* ===================================================================== *)
(** * Text helpers *)
(* ===================================================================== *)

Definition digit_char (n : Z) : ascii :=
  ascii_of_N (Z.to_N (48 + n)).

Definition hex_char (n : Z) : ascii :=
  if n <? 10 then ascii_of_N (Z.to_N (48 + n)) else ascii_of_N (Z.to_N (87 + n)).

(** [digits_fixed base width n]: the [width] lowest digits of [n], most
    significant first (zero padded, as [%0{width}d] prints a number that
    fits). *)
Fixpoint digits_fixed (render : Z -> ascii) (base : Z) (width : nat) (n : Z) (acc : string) : string :=
  match width with
  | O => acc
  | S w => digits_fixed render base w (n / base) (String (render (n mod base)) acc)
  end.

Definition pad_dec (width : nat) (n : Z) : string :=
  digits_fixed digit_char 10 width n "".

Definition pad_hex (width : nat) (n : Z) : string :=
  digits_fixed hex_char 16 width n "".

(** Decimal digits of a non-negative number, without padding. *)
Fixpoint dec_digits (fuel : nat) (n : Z) (acc : string) : string :=
  match fuel with
  | O => acc
  | S f =>
      let acc' := String (digit_char (n mod 10)) acc in
      if n / 10 =? 0 then acc' else dec_digits f (n / 10) acc'
  end.

(** [str(n)] for a Python int. *)
Definition str_int (n : Z) : string :=
  if n <? 0 then String "-" (dec_digits (S (Z.to_nat (Z.log2 (- n)))) (- n) "")
  else dec_digits (S (Z.to_nat (Z.log2 n))) n "".

Fixpoint string_contains (c : ascii) (s : string) : bool :=
  match s with
  | EmptyString => false
  | String a r => Ascii.eqb a c || string_contains c r
  end.

Definition join (sep : string) (l : list string) : string :=
  match l with
  | [] => ""
  | x :: r => fold_left (fun acc y => acc ++ sep ++ y) r x
  end.

(* ===================================================================== *)
(** * Identifiers and dates *)
(* ===================================================================== *)

(** A generated identifier ([bson.ObjectId]): twelve bytes, kept as the
    number they spell. *)
Inductive ObjectId := Oid (n : N).

Definition oid_eqb (a b : ObjectId) : bool :=
  match a, b with Oid x, Oid y => N.eqb x y end.

(** [str(ObjectId)]: the 24 lower-case hexadecimal digits. *)
Definition oid_str (o : ObjectId) : string :=
  match o with Oid n => pad_hex 24 (Z.of_N n) end.

(** A naive [datetime.datetime], kept as the number of microseconds since
    1970-01-01T00:00:00. *)
Record datetime := Datetime { micros : Z }.

Definition us_per_second : Z := 1000000.
Definition us_per_day : Z := 86400 * us_per_second.

(** Days since 1970-01-01 of a proleptic Gregorian date. *)
Definition days_from_civil (y m d : Z) : Z :=
  let y' := if m <=? 2 then y - 1 else y in
  let era := y' / 400 in
  let yoe := y' - era * 400 in
  let mp := if 2 <? m then m - 3 else m + 9 in
  let doy := (153 * mp + 2) / 5 + d - 1 in
  let doe := yoe * 365 + yoe / 4 - yoe / 100 + doy in
  era * 146097 + doe - 719468.

(** The inverse: (year, month, day) of a day number. *)
Definition civil_from_days (z : Z) : Z * Z * Z :=
  let z' := z + 719468 in
  let era := z' / 146097 in
  let doe := z' - era * 146097 in
  let yoe := (doe - doe / 1460 + doe / 36524 - doe / 146096) / 365 in
  let doy := doe - (365 * yoe + yoe / 4 - yoe / 100) in
  let mp := (5 * doy + 2) / 153 in
  let d := doy - (153 * mp + 2) / 5 + 1 in
  let m := if mp <? 10 then mp + 3 else mp - 9 in
  let y := yoe + era * 400 in
  (if m <=? 2 then y + 1 else y, m, d).

(** [datetime(y, m, d)]: midnight of that day. *)
Definition datetime_ymd (y m d : Z) : datetime :=
  Datetime (days_from_civil y m d * us_per_day).

(** [timedelta(days=n)] added to, or subtracted from, a [datetime]. *)
Definition add_days (t : datetime) (n : Z) : datetime :=
  Datetime (micros t + n * us_per_day).

Definition sub_days (t : datetime) (n : Z) : datetime :=
  Datetime (micros t - n * us_per_day).

(** A BSON date has millisecond resolution: the driver drops the rest when
    it encodes a [datetime]. *)
Definition bson_date (t : datetime) : datetime :=
  Datetime (1000 * (micros t / 1000)).

(** [datetime.isoformat(sep)]: [YYYY-MM-DD<sep>HH:MM:SS], followed by
    [.ffffff] when the microsecond part is not zero. *)
Definition isoformat_sep (sep : string) (t : datetime) : string :=
  let day := micros t / us_per_day in
  let rest := micros t mod us_per_day in
  let '(y, m, d) := civil_from_days day in
  let secs := rest / us_per_second in
  let us := rest mod us_per_second in
  pad_dec 4 y ++ "-" ++ pad_dec 2 m ++ "-" ++ pad_dec 2 d ++ sep ++
  pad_dec 2 (secs / 3600) ++ ":" ++ pad_dec 2 ((secs / 60) mod 60) ++ ":" ++
  pad_dec 2 (secs mod 60) ++
  (if us =? 0 then "" else "." ++ pad_dec 6 us).

Definition isoformat (t : datetime) : string := isoformat_sep "T" t.

(** [repr(datetime)]: seconds and microseconds are printed only when needed. *)
Definition datetime_repr (t : datetime) : string :=
  let day := micros t / us_per_day in
  let rest := micros t mod us_per_day in
  let '(y, m, d) := civil_from_days day in
  let secs := rest / us_per_second in
  let us := rest mod us_per_second in
  "datetime.datetime(" ++
  join ", " ([str_int y; str_int m; str_int d; str_int (secs / 3600);
              str_int ((secs / 60) mod 60)] ++
             (if us =? 0 then (if secs mod 60 =? 0 then [] else [str_int (secs mod 60)])
              else [str_int (secs mod 60); str_int us])) ++ ")".

(* ===================================================================== *)
(** * Values and documents *)
(* ===================================================================== *)

(** The values a document field holds, on the Python side and in the store
    alike: [None], [bool], [int], [str], [ObjectId], [datetime], lists and
    nested documents.  (Floating-point numbers do not occur in the script
    and are left out.) *)
Inductive value :=
| VNull
| VBool (b : bool)
| VInt (z : Z)
| VStr (s : string)
| VOid (o : ObjectId)
| VDate (t : datetime)
| VArr (l : list value)
| VDoc (d : list (string * value)).

(** A document is a Python [dict] / a BSON document: an ordered list of
    fields. *)
Abbreviation doc := (list (string * value)).

Fixpoint value_eqb (a b : value) : bool :=
  match a, b with
  | VNull, VNull => true
  | VBool x, VBool y => Bool.eqb x y
  | VInt x, VInt y => Z.eqb x y
  | VStr x, VStr y => String.eqb x y
  | VOid x, VOid y => oid_eqb x y
  | VDate x, VDate y => Z.eqb (micros x) (micros y)
  | VArr x, VArr y =>
      (fix go (l1 l2 : list value) : bool :=
         match l1, l2 with
         | [], [] => true
         | u :: r1, v :: r2 => value_eqb u v && go r1 r2
         | _, _ => false
         end) x y
  | VDoc x, VDoc y =>
      (fix go (l1 l2 : list (string * value)) : bool :=
         match l1, l2 with
         | [], [] => true
         | (k1, u) :: r1, (k2, v) :: r2 => String.eqb k1 k2 && value_eqb u v && go r1 r2
         | _, _ => false
         end) x y
  | _, _ => false
  end.

(** [d.get(k)] / [d[k]]. *)
Fixpoint dict_get (k : string) (d : doc) : option value :=
  match d with
  | [] => None
  | (k', v) :: r => if String.eqb k' k then Some v else dict_get k r
  end.

(** [k in d]. *)
Definition dict_contains (k : string) (d : doc) : bool :=
  match dict_get k d with Some _ => true | None => false end.

(** [d[k] = v]: an existing key keeps its place, a new key goes last. *)
Fixpoint dict_set (k : string) (v : value) (d : doc) : doc :=
  match d with
  | [] => [(k, v)]
  | (k', v') :: r => if String.eqb k' k then (k', v) :: r else (k', v') :: dict_set k v r
  end.

(** [del d[k]] when present. *)
Fixpoint dict_remove (k : string) (d : doc) : doc :=
  match d with
  | [] => []
  | (k', v') :: r => if String.eqb k' k then r else (k', v') :: dict_remove k r
  end.

(** What the driver does to a value on its way into the store: dates lose
    their sub-millisecond part, at any depth. *)
Fixpoint bson_encode (v : value) : value :=
  match v with
  | VDate t => VDate (bson_date t)
  | VArr l => VArr (map bson_encode l)
  | VDoc d => VDoc (map (fun kv => (fst kv, bson_encode (snd kv))) d)
  | _ => v
  end.

Definition bson_encode_doc (d : doc) : doc :=
  map (fun kv => (fst kv, bson_encode (snd kv))) d.

(** ** [repr] and [str] *)

Definition dquote : ascii := "034"%char.
Definition squote : ascii := "039"%char.

Definition repr_char (q : ascii) (c : ascii) : string :=
  if Ascii.eqb c "\"%char then "\\"
  else if Ascii.eqb c q then String "\"%char (String q "")
  else if Ascii.eqb c "010"%char then "\n"
  else if Ascii.eqb c "013"%char then "\r"
  else if Ascii.eqb c "009"%char then "\t"
  else if (N.ltb (N_of_ascii c) 32 || N.eqb (N_of_ascii c) 127)%bool
       then "\x" ++ pad_hex 2 (Z.of_N (N_of_ascii c))
  else String c "".

Fixpoint repr_body (q : ascii) (s : string) : string :=
  match s with
  | EmptyString => ""
  | String c r => repr_char q c ++ repr_body q r
  end.

(** [repr(s)] of a string: single quotes, unless the text has a single
    quote and no double quote. *)
Definition repr_str (s : string) : string :=
  let q := if (string_contains squote s && negb (string_contains dquote s))%bool
           then dquote else squote in
  String q (repr_body q s ++ String q "").

Fixpoint py_repr (v : value) : string :=
  match v with
  | VNull => "None"
  | VBool true => "True"
  | VBool false => "False"
  | VInt z => str_int z
  | VStr s => repr_str s
  | VOid o => "ObjectId('" ++ oid_str o ++ "')"
  | VDate t => datetime_repr t
  | VArr l => "[" ++ join ", " (map py_repr l) ++ "]"
  | VDoc d => "{" ++ join ", " (map (fun kv => repr_str (fst kv) ++ ": " ++ py_repr (snd kv)) d) ++ "}"
  end.

(** [str(v)]. *)
Definition py_str (v : value) : string :=
  match v with
  | VStr s => s
  | VOid o => oid_str o
  | VDate t => isoformat_sep " " t
  | _ => py_repr v
  end.

(** ** JSON *)

(** What [json.dump] can write. *)
Inductive json :=
| JNull
| JBool (b : bool)
| JNum (z : Z)
| JStr (s : string)
| JArr (l : list json)
| JObj (o : list (string * json)).

(** The exceptions the script can meet.  All of them are subclasses of
    Python's [Exception]; asynchronous interrupts are outside the model. *)
Inductive exn :=
| ConnectionFailure
| OperationFailure (code : Z)
| BulkWriteError (index : nat) (code : Z)
| CollectionInvalid
| TypeError
| KeyError (key : string)
| IndexError
| OSError.

Inductive result (A : Type) :=
| Ok (a : A)
| Raise (e : exn).
Arguments Ok {A} a.
Arguments Raise {A} e.

(** [json.dump(v, default=...)]: native values are written as they are; for
    any other object the encoder calls [default] when it is given and raises
    [TypeError] when it is not.  [default] is [str] here, so what it returns
    is a string. *)
Fixpoint json_encode (default : option (value -> string)) (v : value) : result json :=
  match v with
  | VNull => Ok JNull
  | VBool b => Ok (JBool b)
  | VInt z => Ok (JNum z)
  | VStr s => Ok (JStr s)
  | VOid _ | VDate _ =>
      match default with
      | Some f => Ok (JStr (f v))
      | None => Raise TypeError
      end
  | VArr l =>
      (fix go (l : list value) (acc : list json) : result json :=
         match l with
         | [] => Ok (JArr (rev acc))
         | x :: r =>
             match json_encode default x with
             | Ok j => go r (j :: acc)
             | Raise e => Raise e
             end
         end) l []
  | VDoc d =>
      (fix go (l : list (string * value)) (acc : list (string * json)) : result json :=
         match l with
         | [] => Ok (JObj (rev acc))
         | (k, x) :: r =>
             match json_encode default x with
             | Ok j => go r ((k, j) :: acc)
             | Raise e => Raise e
             end
         end) d []
  end.

(** Raw identifiers or dates anywhere inside a value. *)
Fixpoint has_raw (v : value) : bool :=
  match v with
  | VOid _ | VDate _ => true
  | VArr l => existsb has_raw l
  | VDoc d => existsb (fun kv => has_raw (snd kv)) d
  | _ => false
  end.

(* ===================================================================== *)
(** * Regular expressions *)
(* ===================================================================== *)

(** A character class is a list of inclusive ranges. *)
Abbreviation cclass := (list (ascii * ascii)).

Definition in_class (cl : cclass) (c : ascii) : bool :=
  existsb (fun r => (N.leb (N_of_ascii (fst r)) (N_of_ascii c)
                     && N.leb (N_of_ascii c) (N_of_ascii (snd r)))%bool) cl.

Inductive regex :=
| REmpty
| REps
| RClass (cl : cclass)
| RCat (r1 r2 : regex)
| RAlt (r1 r2 : regex)
| RStar (r : regex).

Fixpoint nullable (r : regex) : bool :=
  match r with
  | REmpty => false
  | REps => true
  | RClass _ => false
  | RCat r1 r2 => nullable r1 && nullable r2
  | RAlt r1 r2 => nullable r1 || nullable r2
  | RStar _ => true
  end.

(** Brzozowski derivative. *)
Fixpoint deriv (c : ascii) (r : regex) : regex :=
  match r with
  | REmpty => REmpty
  | REps => REmpty
  | RClass cl => if in_class cl c then REps else REmpty
  | RCat r1 r2 =>
      if nullable r1 then RAlt (RCat (deriv c r1) r2) (deriv c r2)
      else RCat (deriv c r1) r2
  | RAlt r1 r2 => RAlt (deriv c r1) (deriv c r2)
  | RStar r1 => RCat (deriv c r1) (RStar r1)
  end.

(** Does the whole string match?  (The patterns of the script are anchored
    at both ends, [^...$].) *)
Fixpoint re_match (r : regex) (s : string) : bool :=
  match s with
  | EmptyString => nullable r
  | String c rest => re_match (deriv c r) rest
  end.

(** [r{n}], [r{0,k}], [r{m,n}] and [r{m,}]. *)
Fixpoint re_exactly (r : regex) (n : nat) (tail : regex) : regex :=
  match n with
  | O => tail
  | S k => RCat r (re_exactly r k tail)
  end.

Fixpoint re_upto (r : regex) (k : nat) : regex :=
  match k with
  | O => REps
  | S j => RAlt REps (RCat r (re_upto r j))
  end.

Definition re_between (r : regex) (m n : nat) : regex :=
  re_exactly r m (re_upto r (n - m)).

Definition re_at_least (r : regex) (m : nat) : regex :=
  re_exactly r m (RStar r).

Definition re_char (c : ascii) : regex := RClass [(c, c)].

(** [[0-9-]] *)
Definition cls_digit_hyphen : cclass := [("0", "9"); ("-", "-")]%char.
(** [[\w\.-]]: word characters, dot and hyphen. *)
Definition cls_word_dot_hyphen : cclass :=
  [("a", "z"); ("A", "Z"); ("0", "9"); ("_", "_"); (".", "."); ("-", "-")]%char.
(** [[a-zA-Z]] *)
Definition cls_alpha : cclass := [("a", "z"); ("A", "Z")]%char.

(** ["^[0-9-]{10,17}$"] *)
Definition isbn_pattern : regex :=
  re_between (RClass cls_digit_hyphen) 10 17.

(** ["^[\w\.-]+@[\w\.-]+\.[a-zA-Z]{2,}$"] *)
Definition email_pattern : regex :=
  RCat (re_at_least (RClass cls_word_dot_hyphen) 1)
    (RCat (re_char "@")
       (RCat (re_at_least (RClass cls_word_dot_hyphen) 1)
          (RCat (re_char ".") (re_at_least (RClass cls_alpha) 2)))).

(* ===================================================================== *)
(** * Schema validators *)
(* ===================================================================== *)

Inductive bson_type :=
| TString | TInt | TLong | TDate | TNull | TObjectId | TBool | TArray | TObject.

Definition bson_type_eqb (a b : bson_type) : bool :=
  match a, b with
  | TString, TString | TInt, TInt | TLong, TLong | TDate, TDate | TNull, TNull
  | TObjectId, TObjectId | TBool, TBool | TArray, TArray | TObject, TObject => true
  | _, _ => false
  end.

(** A Python int is stored as a 32-bit ["int"] when it fits and as a
    ["long"] otherwise. *)
Definition bson_type_of (v : value) : bson_type :=
  match v with
  | VNull => TNull
  | VBool _ => TBool
  | VInt z => if ((-2147483648 <=? z) && (z <=? 2147483647))%bool then TInt else TLong
  | VStr _ => TString
  | VOid _ => TObjectId
  | VDate _ => TDate
  | VArr _ => TArray
  | VDoc _ => TObject
  end.

(** The keywords of [$jsonSchema] the script uses for a property.  An empty
    [bsonType] list means the keyword is absent. *)
Record field_schema := FieldSchema {
  bsonType : list bson_type;
  minLength : option nat;
  maxLength : option nat;
  minimum : option Z;
  maximum : option Z;
  pattern : option regex;
  enum : option (list value)
}.

Definition any_field : field_schema :=
  FieldSchema [] None None None None None None.

(** Each keyword constrains only the values of the type it speaks about:
    lengths and patterns apply to strings, bounds to numbers. *)
Definition check_field (fs : field_schema) (v : value) : bool :=
  (match bsonType fs with
   | [] => true
   | ts => existsb (bson_type_eqb (bson_type_of v)) ts
   end)
  && (match minLength fs, v with
      | Some n, VStr s => Nat.leb n (String.length s)
      | _, _ => true
      end)
  && (match maxLength fs, v with
      | Some n, VStr s => Nat.leb (String.length s) n
      | _, _ => true
      end)
  && (match minimum fs, v with
      | Some lo, VInt z => lo <=? z
      | _, _ => true
      end)
  && (match maximum fs, v with
      | Some hi, VInt z => z <=? hi
      | _, _ => true
      end)
  && (match pattern fs, v with
      | Some r, VStr s => re_match r s
      | _, _ => true
      end)
  && (match enum fs with
      | Some vs => existsb (value_eqb v) vs
      | None => true
      end).

Record schema := Schema {
  required : list string;
  properties : list (string * field_schema)
}.

(** A document passes when it has every required field and each field that
    has a property entry satisfies it. *)
Definition validate (sc : schema) (d : doc) : bool :=
  forallb (fun k => dict_contains k d) (required sc)
  && forallb (fun p => match dict_get (fst p) d with
                       | Some v => check_field (snd p) v
                       | None => true
                       end) (properties sc).

(* ===================================================================== *)
(** * The document store *)
(* ===================================================================== *)

Inductive direction := ASCENDING | DESCENDING.

Definition direction_eqb (a b : direction) : bool :=
  match a, b with
  | ASCENDING, ASCENDING | DESCENDING, DESCENDING => true
  | _, _ => false
  end.

Record index := Index {
  keys : list (string * direction);
  unique : bool
}.

Record collection := Collection {
  validator : option schema;
  indexes : list index;
  documents : list doc
}.

(** A collection the store creates on first use has no validator. *)
Definition implicit_collection : collection := Collection None [] [].

Fixpoint keys_eqb (a b : list (string * direction)) : bool :=
  match a, b with
  | [], [] => true
  | (k1, d1) :: r1, (k2, d2) :: r2 =>
      String.eqb k1 k2 && direction_eqb d1 d2 && keys_eqb r1 r2
  | _, _ => false
  end.

(** The key of a document under an index: the values of the indexed
    fields, a missing field counting as null. *)
Definition index_key (ks : list (string * direction)) (d : doc) : list value :=
  map (fun k => default VNull (dict_get (fst k) d)) ks.

Fixpoint key_eqb (a b : list value) : bool :=
  match a, b with
  | [], [] => true
  | x :: r1, y :: r2 => value_eqb x y && key_eqb r1 r2
  | _, _ => false
  end.

Definition key_taken (ks : list (string * direction)) (d : doc) (ds : list doc) : bool :=
  existsb (fun d' => key_eqb (index_key ks d') (index_key ks d)) ds.

(** Every collection has the unique index on [_id]. *)
Definition id_keys : list (string * direction) := [("_id", ASCENDING)].

Fixpoint keys_distinct (ks : list (string * direction)) (ds : list doc) : bool :=
  match ds with
  | [] => true
  | d :: r => negb (key_taken ks d r) && keys_distinct ks r
  end.

(** Server error codes. *)
Definition DocumentValidationFailure : Z := 121.
Definition DuplicateKey : Z := 11000.
Definition InvalidIdField : Z := 53.
Definition IndexKeySpecsConflict : Z := 86.
Definition ConcatTypeMismatch : Z := 16702.

Inductive write_result :=
| Written (c : collection)
| WriteError (code : Z).

Definition is_array (v : value) : bool :=
  match v with VArr _ => true | _ => false end.

(** One document written at the server: [_id] may not be an array, the
    validator has to accept the document, and no unique index may hold its
    key already; an accepted document goes last. *)
Definition server_insert (c : collection) (d : doc) : write_result :=
  if is_array (default VNull (dict_get "_id" d))
  then WriteError InvalidIdField
  else if match validator c with Some sc => negb (validate sc d) | None => false end
  then WriteError DocumentValidationFailure
  else if key_taken id_keys d (documents c)
  then WriteError DuplicateKey
  else if existsb (fun ix => unique ix && key_taken (keys ix) d (documents c)) (indexes c)
  then WriteError DuplicateKey
  else Written (Collection (validator c) (indexes c) (documents c ++ [d])).

(** An ordered bulk insert: documents are written one by one and the first
    error stops the batch; what was written before it stays. *)
Fixpoint insert_ordered (c : collection) (ds : list doc) (i : nat)
  : collection * option (nat * Z) :=
  match ds with
  | [] => (c, None)
  | d :: r =>
      match server_insert c d with
      | Written c' => insert_ordered c' r (S i)
      | WriteError code => (c, Some (i, code))
      end
  end.

(** ** The aggregation stages of the script *)

Inductive expr :=
| FieldPath (path : list string)
| Literal (s : string).

Inductive projection :=
| Include
| Concat (args : list expr).

Inductive stage :=
| Lookup (from localField foreignField as_ : string)
| Unwind (path : string)
| Project (spec : list (string * projection)).

(** ["$a.b"]: follow the path through nested documents; over an array the
    rest of the path is read in each element that is a document. *)
Fixpoint eval_path (v : value) (path : list string) {struct v} : option value :=
  match path with
  | [] => Some v
  | k :: rest =>
      match v with
      | VDoc d =>
          (fix find (l : list (string * value)) : option value :=
             match l with
             | [] => None
             | (k', x) :: r => if String.eqb k' k then eval_path x rest else find r
             end) d
      | VArr l =>
          Some (VArr ((fix each (l : list value) : list value :=
                         match l with
                         | [] => []
                         | x :: r =>
                             match x with
                             | VDoc _ =>
                                 match eval_path x path with
                                 | Some y => y :: each r
                                 | None => each r
                                 end
                             | _ => each r
                             end
                         end) l))
      | _ => None
      end
  end.

Definition eval_expr (d : doc) (e : expr) : option value :=
  match e with
  | FieldPath p => eval_path (VDoc d) p
  | Literal s => Some (VStr s)
  end.

(** [$concat]: operands are read left to right; a null or missing operand
    makes the result null, any other non-string operand is an error. *)
Fixpoint concat_values (d : doc) (args : list expr) (acc : string) : result value :=
  match args with
  | [] => Ok (VStr acc)
  | e :: r =>
      match eval_expr d e with
      | None | Some VNull => Ok VNull
      | Some (VStr s) => concat_values d r (acc ++ s)
      | Some _ => Raise (OperationFailure ConcatTypeMismatch)
      end
  end.

(** The values a local field is looked up by: the elements of an array, or
    the value itself (null when the field is missing). *)
Definition lookup_candidates (v : option value) : list value :=
  match v with
  | None => [VNull]
  | Some (VArr l) => l
  | Some x => [x]
  end.

(** Does the foreign field hold the candidate (as its value, or as an
    element when it is an array)? *)
Definition field_holds (fv : option value) (c : value) : bool :=
  match fv with
  | None => value_eqb VNull c
  | Some (VArr l) => value_eqb (VArr l) c || existsb (fun x => value_eqb x c) l
  | Some x => value_eqb x c
  end.

Definition lookup_matches (foreign : list doc) (foreignField : string)
    (local : option value) : list doc :=
  List.filter (fun f => existsb (field_holds (dict_get foreignField f))
                          (lookup_candidates local)) foreign.

(** [$unwind]: one output per element of the array; a missing, null or
    empty field drops the document; any other value counts as one element. *)
Definition unwind_doc (path : string) (d : doc) : list doc :=
  match dict_get path d with
  | None | Some VNull => []
  | Some (VArr l) => map (fun x => dict_set path x d) l
  | Some _ => [d]
  end.

(** An inclusion [$project]: [_id] and the included fields in document
    order, then the computed fields in the order of the specification. *)
Definition is_included (spec : list (string * projection)) (k : string) : bool :=
  String.eqb k "_id"
  || existsb (fun p => String.eqb (fst p) k
                       && match snd p with Include => true | _ => false end) spec.

Fixpoint project_computed (d : doc) (spec : list (string * projection)) (acc : doc)
  : result doc :=
  match spec with
  | [] => Ok acc
  | (k, Include) :: r => project_computed d r acc
  | (k, Concat args) :: r =>
      match concat_values d args "" with
      | Ok v => project_computed d r (dict_set k v acc)
      | Raise e => Raise e
      end
  end.

Definition project_doc (spec : list (string * projection)) (d : doc) : result doc :=
  project_computed d spec (List.filter (fun kv => is_included spec (fst kv)) d).

Fixpoint map_result {A B : Type} (f : A -> result B) (l : list A) : result (list B) :=
  match l with
  | [] => Ok []
  | x :: r =>
      match f x with
      | Ok y => match map_result f r with
                | Ok ys => Ok (y :: ys)
                | Raise e => Raise e
                end
      | Raise e => Raise e
      end
  end.

Definition coll_docs (store : gmap string collection) (name : string) : list doc :=
  match store !! name with
  | Some c => documents c
  | None => []
  end.

Definition run_stage (store : gmap string collection) (st : stage) (input : list doc)
  : result (list doc) :=
  match st with
  | Lookup from localField foreignField as_ =>
      Ok (map (fun d => dict_set as_
                          (VArr (map VDoc (lookup_matches (coll_docs store from)
                                             foreignField (dict_get localField d)))) d)
              input)
  | Unwind path => Ok (concat (map (unwind_doc path) input))
  | Project spec => map_result (project_doc spec) input
  end.

Fixpoint run_pipeline (store : gmap string collection) (p : list stage) (input : list doc)
  : result (list doc) :=
  match p with
  | [] => Ok input
  | st :: r =>
      match run_stage store st input with
      | Ok out => run_pipeline store r out
      | Raise e => Raise e
      end
  end.

(* ===================================================================== *)
(** * The world of a run *)
(* ===================================================================== *)

(** From here on [++] joins lists; strings are joined with [+:+]. *)
Local Open Scope list_scope.

(** What the script prints, one constructor per [print] with a hole. *)
Inductive msg :=
| Say (line : string)
| DropWarning (e : exn)
| CollectionCreated (name : string)
| CollectionWarning (name : string) (e : exn)
| IndexesCreated (name : string)
| IndexesFailed (e : exn)
| Inserted (name : string) (n : nat)
| InsertFailed (name : string) (e : exn)
| CountLine (name : string) (n : nat)
| QueryResults (n : nat)
| QueryExample (titolo autore_nome : value)
| QueryFailed (e : exn)
| FileCreated (filename : string) (n : nat)
| ExportFailed (name : string) (e : exn)
| SetupFailed (e : exn).

(** The calls that leave the process: to the store and to the file system. *)
Inductive call :=
| CPing
| CDropDatabase
| CCreateCollection (name : string)
| CCreateIndex (name : string) (ix : index)
| CInsertMany (name : string) (n : nat)
| CCountDocuments (name : string)
| CAggregate (name : string)
| CFind (name : string)
| CMakedirs (path : string)
| CWriteFile (path : string).

Record world := World {
  db : gmap string collection;     (* the database [biblioteca] *)
  dirs : list string;              (* directories under the working directory *)
  files : gmap string json;        (* JSON files written *)
  console : list msg;              (* standard output, oldest first *)
  trace : list call;               (* external calls made, oldest first *)
  next_oid : N;                    (* the identifier generator of the driver *)
  clock_reads : nat                (* how often the clock has been read *)
}.

(** What the script does not control: whether the n-th external call fails
    for a reason of its own (server gone, permission denied, disk full), and
    what the clock shows at the n-th reading. *)
Record env := Env {
  fault : nat -> option exn;
  wall_clock : nat -> datetime
}.

Definition set_db (f : gmap string collection -> gmap string collection) (w : world) : world :=
  World (f (db w)) (dirs w) (files w) (console w) (trace w) (next_oid w) (clock_reads w).

Definition set_console (f : list msg -> list msg) (w : world) : world :=
  World (db w) (dirs w) (files w) (f (console w)) (trace w) (next_oid w) (clock_reads w).

Definition set_trace (f : list call -> list call) (w : world) : world :=
  World (db w) (dirs w) (files w) (console w) (f (trace w)) (next_oid w) (clock_reads w).

Definition set_dirs (f : list string -> list string) (w : world) : world :=
  World (db w) (f (dirs w)) (files w) (console w) (trace w) (next_oid w) (clock_reads w).

Definition set_files (f : gmap string json -> gmap string json) (w : world) : world :=
  World (db w) (dirs w) (f (files w)) (console w) (trace w) (next_oid w) (clock_reads w).

Definition set_next_oid (n : N) (w : world) : world :=
  World (db w) (dirs w) (files w) (console w) (trace w) n (clock_reads w).

Definition set_clock_reads (n : nat) (w : world) : world :=
  World (db w) (dirs w) (files w) (console w) (trace w) (next_oid w) n.

(** How a computation ends: with a value, with an exception on its way up,
    or with [sys.exit]. *)
Inductive outcome (A : Type) :=
| Done (a : A)
| Failed (e : exn)
| Exited (code : Z).
Arguments Done {A} a.
Arguments Failed {A} e.
Arguments Exited {A} code.

Definition M (A : Type) : Type := world -> world * outcome A.

Definition ret {A : Type} (a : A) : M A := fun w => (w, Done a).

Definition raise {A : Type} (e : exn) : M A := fun w => (w, Failed e).

Definition sys_exit {A : Type} (code : Z) : M A := fun w => (w, Exited code).

Definition bind {A B : Type} (m : M A) (k : A -> M B) : M B :=
  fun w =>
    match m w with
    | (w', Done a) => k a w'
    | (w', Failed e) => (w', Failed e)
    | (w', Exited c) => (w', Exited c)
    end.

Declare Scope script_scope.
Delimit Scope script_scope with script.
Notation "x <- m ;; k" := (bind m (fun x => k))
  (at level 100, m at next level, right associativity) : script_scope.
Notation "m ;; k" := (bind m (fun _ => k))
  (at level 100, right associativity) : script_scope.
Local Open Scope script_scope.

Definition lift {A : Type} (r : result A) : M A :=
  match r with
  | Ok a => ret a
  | Raise e => raise e
  end.

(** [try: body  except Exception as e: handler(e)].  [sys.exit] is not an
    [Exception] and passes through. *)
Definition try_except {A : Type} (body : M A) (handler : exn -> M A) : M A :=
  fun w =>
    match body w with
    | (w', Failed e) => handler e w'
    | r => r
    end.

(** The same, for a handler that ends in [return]: the caller sees which
    way the [try] went. *)
Definition attempt {A : Type} (body : M A) : M (A + exn) :=
  try_except (a <- body ;; ret (inl a)) (fun e => ret (inr e)).

Fixpoint for_each {A : Type} (l : list A) (body : A -> M unit) : M unit :=
  match l with
  | [] => ret tt
  | x :: r => body x ;; for_each r body
  end.

Definition print (m : msg) : M unit :=
  fun w => (set_console (fun c => c ++ [m]) w, Done tt).

(** [l[i]] *)
Definition list_item {A : Type} (l : list A) (i : nat) : M A :=
  match l !! i with
  | Some x => ret x
  | None => raise IndexError
  end.

(** [d[k]] *)
Definition dict_item (d : doc) (k : string) : M value :=
  match dict_get k d with
  | Some v => ret v
  | None => raise (KeyError k)
  end.

(* ===================================================================== *)
(** * The driver *)
(* ===================================================================== *)

Section Driver.

Variable E : env.

(** Every external call is recorded; the environment may make it fail
    before it has any effect. *)
Definition external {A : Type} (c : call) (body : M A) : M A :=
  fun w =>
    let w' := set_trace (fun t => t ++ [c]) w in
    match fault E (length (trace w)) with
    | Some e => (w', Failed e)
    | None => body w'
    end.

(** [datetime.now()] *)
Definition now : M datetime :=
  fun w => (set_clock_reads (S (clock_reads w)) w, Done (wall_clock E (clock_reads w))).

(** [client.admin.command('ping')] *)
Definition ping : M unit := external CPing (ret tt).

(** [client.drop_database('biblioteca')] *)
Definition client_drop_database : M unit :=
  external CDropDatabase (fun w => (set_db (fun _ => ∅) w, Done tt)).

(** [db.create_collection(name, validator=...)]: refused when the
    collection is there already. *)
Definition create_collection (name : string) (v : schema) : M unit :=
  external (CCreateCollection name)
    (fun w =>
       match db w !! name with
       | Some _ => (w, Failed CollectionInvalid)
       | None => (set_db (insert name (Collection (Some v) [] [])) w, Done tt)
       end).

Definition same_index (a b : index) : bool :=
  keys_eqb (keys a) (keys b) && Bool.eqb (unique a) (unique b).

(** [db[name].create_index(keys, unique=...)]: a no-op for an index that
    exists as requested, an error for one that exists with other options or
    for a unique index the stored documents already violate. *)
Definition create_index (name : string) (ks : list (string * direction)) (uniq : bool)
  : M unit :=
  let ix := Index ks uniq in
  external (CCreateIndex name ix)
    (fun w =>
       let c := default implicit_collection (db w !! name) in
       if existsb (same_index ix) (indexes c) then
         (w, Done tt)
       else if existsb (fun ix' => keys_eqb (keys ix') ks) (indexes c) then
         (w, Failed (OperationFailure IndexKeySpecsConflict))
       else if uniq && negb (keys_distinct ks (documents c)) then
         (w, Failed (OperationFailure DuplicateKey))
       else
         (set_db (insert name (Collection (validator c) (indexes c ++ [ix]) (documents c))) w,
          Done tt)).

(** The driver gives a document without [_id] a fresh [ObjectId]; [_id] is
    written first. *)
Fixpoint assign_ids (ds : list doc) (n : N) : list doc * N :=
  match ds with
  | [] => ([], n)
  | d :: r =>
      match dict_get "_id" d with
      | Some i =>
          let '(r', n') := assign_ids r n in
          ((("_id", i) :: dict_remove "_id" d) :: r', n')
      | None =>
          let '(r', n') := assign_ids r (N.succ n) in
          ((("_id", VOid (Oid n)) :: d) :: r', n')
      end
  end.

Definition doc_id (d : doc) : value := default VNull (dict_get "_id" d).

(** [db[name].insert_many(docs)], ordered.  The result is
    [result.inserted_ids]. *)
Definition insert_many (name : string) (ds : list doc) : M (list value) :=
  match ds with
  | [] => raise TypeError
  | _ =>
      fun w =>
        let '(ds', n') := assign_ids ds (next_oid w) in
        external (CInsertMany name (length ds))
          (fun w =>
             let c := default implicit_collection (db w !! name) in
             match insert_ordered c (map bson_encode_doc ds') 0 with
             | (c', None) => (set_db (insert name c') w, Done (map doc_id ds'))
             | (c', Some (i, code)) => (set_db (insert name c') w, Failed (BulkWriteError i code))
             end)
          (set_next_oid n' w)
  end.

(** [db[name].count_documents({})] *)
Definition count_documents (name : string) : M nat :=
  external (CCountDocuments name) (fun w => (w, Done (length (coll_docs (db w) name)))).

(** [list(db[name].aggregate(pipeline))] *)
Definition aggregate (name : string) (p : list stage) : M (list doc) :=
  external (CAggregate name)
    (fun w => lift (run_pipeline (db w) p (coll_docs (db w) name)) w).

(** [list(db[name].find())] *)
Definition find (name : string) : M (list doc) :=
  external (CFind name) (fun w => (w, Done (coll_docs (db w) name))).

(** [os.makedirs(path, exist_ok=True)] *)
Definition makedirs (path : string) : M unit :=
  external (CMakedirs path)
    (fun w => (if existsb (String.eqb path) (dirs w) then w
               else set_dirs (fun d => d ++ [path]) w, Done tt)).

(** [with open(dir/name, 'w') as f: json.dump(content, f, default=str)]:
    the directory has to exist, and what [str] cannot be asked to fix is a
    [TypeError]. *)
Definition write_json (dir name : string) (content : value) : M unit :=
  external (CWriteFile (dir +:+ "/" +:+ name))
    (fun w =>
       if existsb (String.eqb dir) (dirs w) then
         match json_encode (Some py_str) content with
         | Ok j => (set_files (insert (dir +:+ "/" +:+ name) j) w, Done tt)
         | Raise e => (w, Failed e)
         end
       else (w, Failed OSError)).

End Driver.

(* ===================================================================== *)
(** * The script: validators and seed data *)
(* ===================================================================== *)

Definition string_field (min_len : option nat) : field_schema :=
  FieldSchema [TString] min_len None None None None None.

Definition int_field (lo hi : option Z) : field_schema :=
  FieldSchema [TInt] None None lo hi None None.

Definition typed_field (ts : list bson_type) : field_schema :=
  FieldSchema ts None None None None None None.

Definition autori_validator : schema :=
  Schema ["nome"; "cognome"; "data_nascita"]
    [("nome", string_field (Some 1%nat));
     ("cognome", string_field (Some 1%nat));
     ("data_nascita", typed_field [TDate]);
     ("data_morte", typed_field [TDate; TNull]);
     ("nazionalita", string_field None);
     ("biografia", string_field None)].

Definition libri_validator : schema :=
  Schema ["titolo"; "autore_id"; "isbn"; "anno_pubblicazione"; "copie_disponibili"]
    [("titolo", string_field (Some 1%nat));
     ("autore_id", typed_field [TObjectId]);
     ("isbn", FieldSchema [TString] None None None None (Some isbn_pattern) None);
     ("anno_pubblicazione", int_field (Some 1000) (Some 2030));
     ("genere", string_field None);
     ("editore", string_field None);
     ("pagine", int_field (Some 1) None);
     ("copie_totali", int_field (Some 1) None);
     ("copie_disponibili", int_field (Some 0) None);
     ("descrizione", string_field None)].

Definition utenti_validator : schema :=
  Schema ["nome"; "cognome"; "email"; "codice_fiscale"; "data_registrazione"]
    [("nome", string_field (Some 1%nat));
     ("cognome", string_field (Some 1%nat));
     ("email", FieldSchema [TString] None None None None (Some email_pattern) None);
     ("codice_fiscale", FieldSchema [TString] (Some 16%nat) (Some 16%nat) None None None None);
     ("telefono", string_field None);
     ("data_registrazione", typed_field [TDate]);
     ("attivo", typed_field [TBool])].

Definition prestiti_validator : schema :=
  Schema ["libro_id"; "utente_id"; "data_prestito"; "data_scadenza"; "utente_nome"; "utente_email"]
    [("libro_id", typed_field [TObjectId]);
     ("utente_id", typed_field [TObjectId]);
     ("data_prestito", typed_field [TDate]);
     ("data_scadenza", typed_field [TDate]);
     ("data_restituzione", typed_field [TDate; TNull]);
     ("utente_nome", string_field None);
     ("utente_email", string_field None);
     ("note", string_field None);
     ("stato", FieldSchema [] None None None None None
                 (Some [VStr "attivo"; VStr "restituito"; VStr "scaduto"]))].

Definition autori_data : list doc :=
  [ [("nome", VStr "Alessandro");
     ("cognome", VStr "Manzoni");
     ("data_nascita", VDate (datetime_ymd 1785 3 7));
     ("data_morte", VDate (datetime_ymd 1873 5 22));
     ("nazionalita", VStr "Italiana");
     ("biografia", VStr "Scrittore e poeta italiano del romanticismo")];
    [("nome", VStr "Italo");
     ("cognome", VStr "Calvino");
     ("data_nascita", VDate (datetime_ymd 1923 10 15));
     ("data_morte", VDate (datetime_ymd 1985 9 19));
     ("nazionalita", VStr "Italiana");
     ("biografia", VStr "Scrittore e giornalista italiano")];
    [("nome", VStr "Umberto");
     ("cognome", VStr "Eco");
     ("data_nascita", VDate (datetime_ymd 1932 1 5));
     ("data_morte", VDate (datetime_ymd 2016 2 19));
     ("nazionalita", VStr "Italiana");
     ("biografia", VStr "Scrittore, filosofo e semiologo italiano")] ].

(** The three books; the arguments are [autori_ids[0]], [autori_ids[1]] and
    [autori_ids[2]]. *)
Definition libri_data (a0 a1 a2 : value) : list doc :=
  [ [("titolo", VStr "I Promessi Sposi");
     ("autore_id", a0);
     ("isbn", VStr "978-88-17-12345-1");
     ("anno_pubblicazione", VInt 1827);
     ("genere", VStr "Romanzo storico");
     ("editore", VStr "Feltrinelli");
     ("pagine", VInt 720);
     ("copie_totali", VInt 5);
     ("copie_disponibili", VInt 3);
     ("descrizione", VStr "Capolavoro della letteratura italiana")];
    [("titolo", VStr "Il Barone Rampante");
     ("autore_id", a1);
     ("isbn", VStr "978-88-06-12345-2");
     ("anno_pubblicazione", VInt 1957);
     ("genere", VStr "Narrativa");
     ("editore", VStr "Einaudi");
     ("pagine", VInt 280);
     ("copie_totali", VInt 3);
     ("copie_disponibili", VInt 2);
     ("descrizione", VStr "Secondo romanzo della trilogia I nostri antenati")];
    [("titolo", VStr "Il Nome della Rosa");
     ("autore_id", a2);
     ("isbn", VStr "978-88-45-12345-3");
     ("anno_pubblicazione", VInt 1980);
     ("genere", VStr "Giallo storico");
     ("editore", VStr "Bompiani");
     ("pagine", VInt 550);
     ("copie_totali", VInt 4);
     ("copie_disponibili", VInt 1);
     ("descrizione", VStr "Romanzo giallo ambientato in un monastero medievale")] ].

Definition utenti_data : list doc :=
  [ [("nome", VStr "Mario");
     ("cognome", VStr "Rossi");
     ("email", VStr "mario.rossi@email.com");
     ("codice_fiscale", VStr "RSSMRA80A01H501Z");
     ("telefono", VStr "+39 320 1234567");
     ("data_registrazione", VDate (datetime_ymd 2023 1 15));
     ("attivo", VBool true)];
    [("nome", VStr "Giulia");
     ("cognome", VStr "Bianchi");
     ("email", VStr "giulia.bianchi@email.com");
     ("codice_fiscale", VStr "BNCGLI85B42F205X");
     ("telefono", VStr "+39 345 7890123");
     ("data_registrazione", VDate (datetime_ymd 2023 3 22));
     ("attivo", VBool true)];
    [("nome", VStr "Luca");
     ("cognome", VStr "Verdi");
     ("email", VStr "luca.verdi@email.com");
     ("codice_fiscale", VStr "VRDLCU90C15G224Y");
     ("telefono", VStr "+39 366 4567890");
     ("data_registrazione", VDate (datetime_ymd 2023 5 10));
     ("attivo", VBool true)] ].

(** The two loans.  [l0], [l2] are [libri_ids[0]], [libri_ids[2]]; [u0],
    [u1] are [utenti_ids[0]], [utenti_ids[1]]; [base_date] is the first
    clock reading less thirty days, [t1] and [t2] are the second and third
    clock readings. *)
Definition prestiti_data (l0 u0 l2 u1 : value) (base_date t1 t2 : datetime) : list doc :=
  [ [("libro_id", l0);
     ("utente_id", u0);
     ("data_prestito", VDate base_date);
     ("data_scadenza", VDate (add_days base_date 30));
     ("data_restituzione", VDate (add_days base_date 25));
     ("utente_nome", VStr "Mario Rossi");
     ("utente_email", VStr "mario.rossi@email.com");
     ("stato", VStr "restituito");
     ("note", VStr "Restituito in perfette condizioni")];
    [("libro_id", l2);
     ("utente_id", u1);
     ("data_prestito", VDate (sub_days t1 10));
     ("data_scadenza", VDate (add_days t2 20));
     ("data_restituzione", VNull);
     ("utente_nome", VStr "Giulia Bianchi");
     ("utente_email", VStr "giulia.bianchi@email.com");
     ("stato", VStr "attivo");
     ("note", VStr "Prestito in corso")] ].

(** The join of books with their authors. *)
Definition pipeline : list stage :=
  [ Lookup "autori" "autore_id" "_id" "autore";
    Unwind "autore";
    Project [("titolo", Include);
             ("autore_nome", Concat [FieldPath ["autore"; "nome"]; Literal " ";
                                     FieldPath ["autore"; "cognome"]]);
             ("copie_disponibili", Include)] ].

(* ===================================================================== *)
(** * The script: the methods of [BibliotecaSetup] *)
(* ===================================================================== *)

Section BibliotecaSetup.

Variable E : env.

(** [__init__]: only a [ConnectionFailure] of the ping is handled here, by
    leaving the process with status 1. *)
Definition init : M unit :=
  fun w =>
    match ping E w with
    | (w', Failed ConnectionFailure) =>
        (print (Say "Errore: Impossibile connettersi a MongoDB") ;; sys_exit 1) w'
    | (w', Done _) => print (Say "Connessione MongoDB stabilita") w'
    | r => r
    end.

Definition drop_database : M unit :=
  try_except
    (client_drop_database E ;;
     print (Say "Database esistente eliminato"))
    (fun e => print (DropWarning e)).

Definition create_collections : M unit :=
  print (Say "Creazione collezioni...") ;;
  let collections :=
    [("autori", autori_validator);
     ("libri", libri_validator);
     ("utenti", utenti_validator);
     ("prestiti", prestiti_validator)] in
  for_each collections
    (fun '(collection_name, validator) =>
       try_except
         (create_collection E collection_name validator ;;
          print (CollectionCreated collection_name))
         (fun e => print (CollectionWarning collection_name e))).

Definition create_indexes : M unit :=
  print (Say "Creazione indici...") ;;
  try_except
    (create_index E "autori" [("nome", ASCENDING); ("cognome", ASCENDING)] false ;;
     create_index E "autori" [("cognome", ASCENDING)] false ;;
     print (IndexesCreated "autori") ;;
     create_index E "libri" [("autore_id", ASCENDING)] false ;;
     create_index E "libri" [("isbn", ASCENDING)] true ;;
     create_index E "libri" [("titolo", ASCENDING)] false ;;
     create_index E "libri" [("genere", ASCENDING)] false ;;
     print (IndexesCreated "libri") ;;
     create_index E "utenti" [("email", ASCENDING)] true ;;
     create_index E "utenti" [("codice_fiscale", ASCENDING)] true ;;
     create_index E "utenti" [("cognome", ASCENDING)] false ;;
     print (IndexesCreated "utenti") ;;
     create_index E "prestiti" [("utente_id", ASCENDING)] false ;;
     create_index E "prestiti" [("libro_id", ASCENDING)] false ;;
     create_index E "prestiti" [("data_prestito", DESCENDING)] false ;;
     create_index E "prestiti" [("data_scadenza", ASCENDING)] false ;;
     create_index E "prestiti" [("stato", ASCENDING)] false ;;
     print (IndexesCreated "prestiti"))
    (fun e => print (IndexesFailed e)).

(** One seeding stage: [try: result = insert_many(data); ids =
    result.inserted_ids; print(len(ids))  except Exception as e: print(e)].
    The caller continues on the left and returns on the right. *)
Definition insert_stage (name : string) (data : list doc) : M (list value + exn) :=
  r <- attempt (inserted_ids <- insert_many E name data ;;
                print (Inserted name (length inserted_ids)) ;;
                ret inserted_ids) ;;
  match r with
  | inl ids => ret (inl ids)
  | inr e => print (InsertFailed name e) ;; ret (inr e)
  end.

Definition load_sample_data : M unit :=
  print (Say "Caricamento dati di esempio...") ;;
  r <- insert_stage "autori" autori_data ;;
  match r with
  | inr _ => ret tt
  | inl autori_ids =>
      a0 <- list_item autori_ids 0 ;;
      a1 <- list_item autori_ids 1 ;;
      a2 <- list_item autori_ids 2 ;;
      r <- insert_stage "libri" (libri_data a0 a1 a2) ;;
      match r with
      | inr _ => ret tt
      | inl libri_ids =>
          r <- insert_stage "utenti" utenti_data ;;
          match r with
          | inr _ => ret tt
          | inl utenti_ids =>
              t0 <- now E ;;
              let base_date := sub_days t0 30 in
              l0 <- list_item libri_ids 0 ;;
              u0 <- list_item utenti_ids 0 ;;
              l2 <- list_item libri_ids 2 ;;
              u1 <- list_item utenti_ids 1 ;;
              t1 <- now E ;;
              t2 <- now E ;;
              try_except
                (inserted_ids <- insert_many E "prestiti"
                                   (prestiti_data l0 u0 l2 u1 base_date t1 t2) ;;
                 print (Inserted "prestiti" (length inserted_ids)))
                (fun e => print (InsertFailed "prestiti" e))
          end
      end
  end.

Definition validate_setup : M unit :=
  print (Say "Validazione setup...") ;;
  n_autori <- count_documents E "autori" ;;
  n_libri <- count_documents E "libri" ;;
  n_utenti <- count_documents E "utenti" ;;
  n_prestiti <- count_documents E "prestiti" ;;
  let counts := [("autori", n_autori); ("libri", n_libri);
                 ("utenti", n_utenti); ("prestiti", n_prestiti)] in
  print (Say "Documenti per collezione:") ;;
  for_each counts (fun '(collection, count) => print (CountLine collection count)) ;;
  print (Say "Test query:") ;;
  try_except
    (libri_con_autori <- aggregate E "libri" pipeline ;;
     print (QueryResults (length libri_con_autori)) ;;
     match libri_con_autori with
     | primo :: _ =>
         titolo <- dict_item primo "titolo" ;;
         autore_nome <- dict_item primo "autore_nome" ;;
         print (QueryExample titolo autore_nome)
     | [] => ret tt
     end)
    (fun e => print (QueryFailed e)).

(** [if "_id" in doc: doc["_id"] = str(doc["_id"])] *)
Definition stringify_id (d : doc) : doc :=
  match dict_get "_id" d with
  | Some v => dict_set "_id" (VStr (py_str v)) d
  | None => d
  end.

(** One turn of [for key, value in doc.items()].  Only the value under the
    current key is replaced, so the items still to come are the ones the
    loop started with. *)
Definition convert_item (acc : doc) (item : string * value) : doc :=
  let '(key, value) := item in
  match value with
  | VOid _ => dict_set key (VStr (py_str value)) acc
  | VDate t => dict_set key (VStr (isoformat t)) acc
  | _ => acc
  end.

Definition convert_doc (d : doc) : doc :=
  let d := stringify_id d in
  fold_left convert_item d d.

Definition export_collection (collection_name : string) : M unit :=
  try_except
    (documents <- find E collection_name ;;
     let documents := map convert_doc documents in
     let filename := collection_name +:+ "_sample.json" in
     write_json E "data" filename (VArr (map VDoc documents)) ;;
     print (FileCreated ("data/" +:+ filename) (length documents)))
    (fun e => print (ExportFailed collection_name e)).

Definition export_sample_json : M unit :=
  print (Say "Esportazione esempi JSON...") ;;
  makedirs E "data" ;;
  let collections := ["autori"; "libri"; "utenti"; "prestiti"] in
  for_each collections export_collection.

Definition run_complete_setup (reset : bool) : M unit :=
  print (Say "Avvio setup Sistema Biblioteca MongoDB") ;;
  (if reset then drop_database else ret tt) ;;
  create_collections ;;
  create_indexes ;;
  load_sample_data ;;
  validate_setup ;;
  export_sample_json ;;
  print (Say "Setup completato con successo!") ;;
  print (Say "Database 'biblioteca' pronto per l'uso") ;;
  print (Say "File JSON di esempio salvati in /data/").

(** [main]: the exit status of the process. *)
Definition main (reset : bool) (w : world) : world * Z :=
  match (init ;; run_complete_setup reset) w with
  | (w', Done _) => (w', 0)
  | (w', Failed e) => (set_console (fun c => c ++ [SetupFailed e]) w', 1)
  | (w', Exited code) => (w', code)
  end.

End BibliotecaSetup.

(** A world with an empty database, an empty working directory and nothing
    printed yet. *)
Definition fresh_world : world :=
  World ∅ [] ∅ [] [] 0%N 0%nat.

(** An environment in which no external call fails. *)
Definition calm (clock : nat -> datetime) : env :=
  Env (fun _ => None) clock.

Definition count (w : world) (name : string) : nat :=
  length (coll_docs (db w) name).

(* ===================================================================== *)
(** * Vocabulary of the properties *)
(* ===================================================================== *)

(** ** Regular languages *)









(** ** Reading a world *)

Definition coll_validator (store : gmap string collection) (name : string) : option schema :=
  match store !! name with
  | Some c => validator c
  | None => None
  end.

Definition coll_indexes (store : gmap string collection) (name : string) : list index :=
  match store !! name with
  | Some c => indexes c
  | None => []
  end.

(** The documents a batch becomes on its way into the store: identifiers
    assigned by the driver starting at [n], values encoded. *)
Definition stamped (ds : list doc) (n : N) : list doc :=
  map bson_encode_doc (fst (assign_ids ds n)).

(** The external calls and the console lines a computation added. *)
Definition new_calls (w w' : world) : list call :=
  drop (length (trace w)) (trace w').

Definition new_lines (w w' : world) : list msg :=
  drop (length (console w)) (console w').

(** The documents a computation added to a collection. *)
Definition added (w w' : world) (name : string) : list doc :=
  drop (length (coll_docs (db w) name)) (coll_docs (db w') name).

(** The per-collection counts the Validator printed. *)
Fixpoint reported_counts (c : list msg) : list (string * nat) :=
  match c with
  | [] => []
  | CountLine name n :: r => (name, n) :: reported_counts r
  | _ :: r => reported_counts r
  end.

(** The batch sizes the SeedLoader printed. *)
Fixpoint reported_inserts (c : list msg) : list (string * nat) :=
  match c with
  | [] => []
  | Inserted name n :: r => (name, n) :: reported_inserts r
  | _ :: r => reported_inserts r
  end.

Definition is_insert_of (name : string) (c : call) : bool :=
  match c with
  | CInsertMany n _ => String.eqb n name
  | _ => false
  end.

Definition is_export_call (c : call) : bool :=
  match c with
  | CMakedirs _ | CFind _ | CWriteFile _ => true
  | _ => false
  end.

(** ** Sample inputs *)

(** A clock that stands still at midnight, 3 November 2026. *)
Definition sample_clock (n : nat) : datetime := datetime_ymd 2026 11 3.


(** The world after the SchemaInitializer has run on a fresh one. *)
Definition initialized_world : world :=
  fst (create_collections (calm sample_clock) fresh_world).

(** ** Copies of a book *)

(** (available, total) *)
Definition copies (b : doc) : option (Z * Z) :=
  match dict_get "copie_disponibili" b, dict_get "copie_totali" b with
  | Some (VInt available), Some (VInt total) => Some (available, total)
  | _, _ => None
  end.

Definition copies_consistent (b : doc) : Prop :=
  exists available total, copies b = Some (available, total) /\ available <= total.

(** A book with more copies available than it has. *)
Definition overbooked_book : doc :=
  [("titolo", VStr "I Promessi Sposi");
   ("autore_id", VOid (Oid 0));
   ("isbn", VStr "978-88-17-12345-1");
   ("anno_pubblicazione", VInt 1827);
   ("copie_totali", VInt 5);
   ("copie_disponibili", VInt 9)].

(** ** Runs *)

(** The world a first full run leaves behind. *)
Definition seeded_world (clock : nat -> datetime) : world :=
  fst (main (calm clock) false fresh_world).

Definition isbn_keys : list (string * direction) := [("isbn", ASCENDING)].
Definition email_keys : list (string * direction) := [("email", ASCENDING)].
Definition codice_fiscale_keys : list (string * direction) := [("codice_fiscale", ASCENDING)].

(** No two books share an identifier code, no two patrons an e-mail
    address or a national identifier code. *)
Definition no_duplicate_keys (w : world) : bool :=
  keys_distinct isbn_keys (coll_docs (db w) "libri")
  && keys_distinct email_keys (coll_docs (db w) "utenti")
  && keys_distinct codice_fiscale_keys (coll_docs (db w) "utenti").

(** The batches of the seeding stage, in order. *)
Definition seeding_batches : list string := ["autori"; "libri"; "utenti"; "prestiti"].

(** The seeding stage is not halted between [w] and [w']: each of its
    batch inserts is issued. *)
Definition seeding_not_halted (w w' : world) : Prop :=
  forall name, In name seeding_batches ->
               existsb (is_insert_of name) (new_calls w w') = true.

(** The second-run property as the specification states it: the run does
    not crash, unique-constrained records are not duplicated, and the
    seeding stage is not halted by the duplicate-key failures. *)
Definition second_run_as_stated (E : env) (w : world) : Prop :=
  let run := main E false w in
  snd run = 0 /\
  no_duplicate_keys (fst run) = true /\
  seeding_not_halted w (fst run).

Definition is_insert (c : call) : bool :=
  match c with
  | CInsertMany _ _ => true
  | _ => false
  end.

(** An environment in which the [k]-th external call (counted from 0)
    fails with [e] and no other does. *)
Definition failing_at (k : nat) (e : exn) (clock : nat -> datetime) : env :=
  Env (fun n => if Nat.eqb n k then Some e else None) clock.

(** In a run on a fresh world the first [count_documents] of the Validator
    is external call number 23, its [aggregate] is number 27 and the
    [makedirs] of the Exporter is number 28. *)
Definition first_count_call : nat := 23.
Definition aggregate_call : nat := 27.
Definition makedirs_call : nat := 28.

(** ** Seeding failures *)

(** The world after one more line has been printed. *)
Definition say (m : msg) (w : world) : world := fst (print m w).

Definition batch_size (name : string) : nat :=
  if String.eqb name "prestiti" then 2 else 3.

(** [seeding_fails E w name e ws]: when [load_sample_data] runs in [w], the
    batch insert of [name] is the first to fail, with the exception [e];
    [ws] lists the batches inserted before it, each with the world right
    after its insert. *)
Inductive seeding_fails (E : env) (w : world) : string -> exn -> list (string * world) -> Prop :=
| fails_autori e w1 :
    insert_many E "autori" autori_data (say (Say "Caricamento dati di esempio...") w)
      = (w1, Failed e) ->
    seeding_fails E w "autori" e []
| fails_libri autori_ids a0 a1 a2 e w1 w2 :
    insert_many E "autori" autori_data (say (Say "Caricamento dati di esempio...") w)
      = (w1, Done autori_ids) ->
    autori_ids !! 0%nat = Some a0 -> autori_ids !! 1%nat = Some a1 ->
    autori_ids !! 2%nat = Some a2 ->
    insert_many E "libri" (libri_data a0 a1 a2)
      (say (Inserted "autori" (length autori_ids)) w1) = (w2, Failed e) ->
    seeding_fails E w "libri" e [("autori", w1)]
| fails_utenti autori_ids a0 a1 a2 libri_ids e w1 w2 w3 :
    insert_many E "autori" autori_data (say (Say "Caricamento dati di esempio...") w)
      = (w1, Done autori_ids) ->
    autori_ids !! 0%nat = Some a0 -> autori_ids !! 1%nat = Some a1 ->
    autori_ids !! 2%nat = Some a2 ->
    insert_many E "libri" (libri_data a0 a1 a2)
      (say (Inserted "autori" (length autori_ids)) w1) = (w2, Done libri_ids) ->
    insert_many E "utenti" utenti_data
      (say (Inserted "libri" (length libri_ids)) w2) = (w3, Failed e) ->
    seeding_fails E w "utenti" e [("autori", w1); ("libri", w2)].

(** ** Declared indexes *)

(** [steps m cs]: a computation that ends normally has made exactly the
    external calls [cs]; one that is cut short has made the first few of
    them. *)
Definition steps {A : Type} (m : M A) (cs : list call) : Prop :=
  forall w w' r, m w = (w', r) ->
    exists t, trace w' = trace w ++ t /\
              match r with
              | Done _ => t = cs
              | _ => t `prefix_of` cs
              end.

(** The uniqueness constraints among the index declarations of a trace. *)
Definition unique_declarations (t : list call) : list (string * list (string * direction)) :=
  flat_map (fun c => match c with
                     | CCreateIndex name ix => if unique ix then [(name, keys ix)] else []
                     | _ => []
                     end) t.

Definition declared_unique : list (string * list (string * direction)) :=
  [("libri", isbn_keys); ("utenti", email_keys); ("utenti", codice_fiscale_keys)].

(** The unique indexes a collection has (besides the one on [_id]). *)
Definition unique_indexes (store : gmap string collection) (name : string)
  : list (list (string * direction)) :=
  map keys (List.filter unique (coll_indexes store name)).

(** ** The join of books and authors *)


(** What the store maintains about the identifiers of a collection: no two
    documents share one, and none is an array. *)
Definition ids_ok (ds : list doc) : bool :=
  keys_distinct id_keys ds && forallb (fun d => negb (is_array (doc_id d))) ds.

(** An Author record: a document the authors validator accepts. *)
Definition is_author (a : doc) : Prop := validate autori_validator a = true.


(** ** Exported documents *)







(** The file the Exporter writes for a collection. *)
Definition export_path (name : string) : string :=
  "data" +:+ "/" +:+ (name +:+ "_sample.json").

(** ** Loans and the records they refer to *)

(** The document of a collection an identifier refers to. *)
Definition find_by_id (ds : list doc) (i : value) : option doc :=
  List.find (fun d => value_eqb (doc_id d) i) ds.

(** The snapshot a loan carries is the patron's: first and last name
    joined by a space, and the e-mail address. *)
Definition snapshot_of (loan p : doc) : Prop :=
  exists nome cognome email,
    dict_get "nome" p = Some (VStr nome) /\
    dict_get "cognome" p = Some (VStr cognome) /\
    dict_get "email" p = Some (VStr email) /\
    dict_get "utente_nome" loan = Some (VStr (nome +:+ " " +:+ cognome)) /\
    dict_get "utente_email" loan = Some (VStr email).

(** The world after seeding [initialized_world], and the first loan that
    seeding added. *)
Definition seeded_once : world :=
  fst (load_sample_data (calm sample_clock) initialized_world).

Definition first_seed_loan : doc :=
  hd [] (added initialized_world seeded_once "prestiti").

(* ===================================================================== *)
(** * Vocabulary of the stage properties *)
(* ===================================================================== *)

(** ** How computations end and what they keep *)

(** [caught m]: [m] always ends normally. *)
Definition caught {A : Type} (m : M A) : Prop :=
  forall w, exists w' a, m w = (w', Done a).

(** [safe m]: [m] never leaves the process. *)
Definition safe {A : Type} (m : M A) : Prop :=
  forall w w' r, m w = (w', r) -> forall code, r <> Exited code.

(** [keeps R m]: the worlds before and after [m] are related by [R]. *)
Definition keeps {A : Type} (R : world -> world -> Prop) (m : M A) : Prop :=
  forall w w' r, m w = (w', r) -> R w w'.

(** The store is exactly as it was. *)
Definition same_store (w w' : world) : Prop := db w' = db w.

(** The collections that exist stay as they are. *)
Definition existing_kept (w w' : world) : Prop :=
  forall name c, db w !! name = Some c -> db w' !! name = Some c.

(** Nothing outside the collections [names] changes. *)
Definition only_touches (names : list string) (w w' : world) : Prop :=
  forall name, ~ In name names -> db w' !! name = db w !! name.

(** Documents and validators stay; indexes are only added, at the end. *)
Definition data_kept (w w' : world) : Prop :=
  forall name,
    coll_docs (db w') name = coll_docs (db w) name /\
    coll_validator (db w') name = coll_validator (db w) name /\
    coll_indexes (db w) name `prefix_of` coll_indexes (db w') name.

(** The four collections of the script with their validators. *)
Definition collections : list (string * schema) :=
  [("autori", autori_validator);
   ("libri", libri_validator);
   ("utenti", utenti_validator);
   ("prestiti", prestiti_validator)].

(** What [create_collection] makes of a database entry. *)
Definition created (v : schema) (entry : option collection) : option collection :=
  match entry with
  | Some c => Some c
  | None => Some (Collection (Some v) [] [])
  end.

(** No external call fails. *)
Definition faultless (E : env) : Prop := forall n, fault E n = None.

(** One turn of the loop of [create_collections]. *)
Definition create_step (E : env) (p : string * schema) : M unit :=
  let '(collection_name, validator) := p in
  try_except
    (create_collection E collection_name validator ;;
     print (CollectionCreated collection_name))
    (fun e => print (CollectionWarning collection_name e)).

(** ** The plan of the IndexBuilder *)

(** The collection [name] has the index [ix], with the same options. *)
Definition has_index (store : gmap string collection) (name : string) (ix : index) : Prop :=
  existsb (same_index ix) (coll_indexes store name) = true.

(** The fourteen index declarations of [create_indexes], in source order. *)
Definition index_plan : list (string * index) :=
  [("autori", Index [("nome", ASCENDING); ("cognome", ASCENDING)] false);
   ("autori", Index [("cognome", ASCENDING)] false);
   ("libri", Index [("autore_id", ASCENDING)] false);
   ("libri", Index [("isbn", ASCENDING)] true);
   ("libri", Index [("titolo", ASCENDING)] false);
   ("libri", Index [("genere", ASCENDING)] false);
   ("utenti", Index [("email", ASCENDING)] true);
   ("utenti", Index [("codice_fiscale", ASCENDING)] true);
   ("utenti", Index [("cognome", ASCENDING)] false);
   ("prestiti", Index [("utente_id", ASCENDING)] false);
   ("prestiti", Index [("libro_id", ASCENDING)] false);
   ("prestiti", Index [("data_prestito", DESCENDING)] false);
   ("prestiti", Index [("data_scadenza", ASCENDING)] false);
   ("prestiti", Index [("stato", ASCENDING)] false)].

Definition plan_calls : list call :=
  map (fun p => CCreateIndex (fst p) (snd p)) index_plan.

Definition plan_in_place (store : gmap string collection) : Prop :=
  forall p, In p index_plan -> has_index store (fst p) (snd p).

(** [builds m l]: [m] keeps the data of the store and, when it ends
    normally, the indexes [l] are in place. *)
Definition builds {A : Type} (m : M A) (l : list (string * index)) : Prop :=
  keeps data_kept m /\
  forall w w' a, m w = (w', Done a) ->
    forall p, In p l -> has_index (db w') (fst p) (snd p).

(** The store stays as it is when the whole plan is in place already. *)
Definition fixed_when_planned (w w' : world) : Prop :=
  plan_in_place (db w) -> db w' = db w.

(** [ends_with x m]: when [m] ends normally the last line printed is [x]. *)
Definition ends_with {A : Type} (x : msg) (m : M A) : Prop :=
  forall w w' a, m w = (w', Done a) -> last (console w') = Some x.

(** ** What a stage leaves alone *)

(** Documents are only added, at the end; validators and indexes stay. *)
Definition only_appends (w w' : world) : Prop :=
  forall name,
    coll_docs (db w) name `prefix_of` coll_docs (db w') name /\
    coll_validator (db w') name = coll_validator (db w) name /\
    coll_indexes (db w') name = coll_indexes (db w) name.

(** The record of external calls only grows. *)
Definition trace_grows (w w' : world) : Prop := trace w `prefix_of` trace w'.

(** [returns P m]: [m] always ends normally, with a value that has [P]. *)
Definition returns {A : Type} (P : A -> Prop) (m : M A) : Prop :=
  forall w, exists w' a, m w = (w', Done a) /\ P a.

(** The world once the call [c] is on record. *)
Definition called (c : call) (w : world) : world := set_trace (fun t => t ++ [c]) w.

(** The first fault among the [k] external calls from call number [n] on. *)
Fixpoint first_fault (E : env) (n k : nat) : option exn :=
  match k with
  | O => None
  | S j => match fault E n with
           | Some e => Some e
           | None => first_fault E (S n) j
           end
  end.

(** Nothing stored changes: neither the database nor the files nor the
    directories; lines are only added to the console. *)
Definition reads_only (w w' : world) : Prop :=
  db w' = db w /\ files w' = files w /\ dirs w' = dirs w /\
  console w `prefix_of` console w'.

(** The collections the Exporter goes through. *)
Definition export_names : list string := ["autori"; "libri"; "utenti"; "prestiti"].

(** The database and the directories stay, and so does every file that is
    not an export file. *)
Definition export_frame (w w' : world) : Prop :=
  db w' = db w /\ dirs w' = dirs w /\
  forall p, ~ In p (map export_path export_names) -> files w' !! p = files w !! p.


(** ** What can end the set-up *)

(** The calls the script makes outside any [try] of its own. *)
Definition fatal_call (c : call) : Prop :=
  c = CPing \/ (exists name, c = CCountDocuments name) \/ (exists path, c = CMakedirs path).

(** The last call made since [w] is one of [P], and the environment made
    it fail with [e]. *)
Definition blamed (E : env) (P : call -> Prop) (w w' : world) (e : exn) : Prop :=
  exists pre c, trace w' = pre ++ [c] /\ (length (trace w) <= length pre)%nat /\
                fault E (length pre) = Some e /\ P c.

(** [fatal_only E P m]: [m] ends abnormally only right after a call of [P]
    that the environment made fail, and leaves the process only with
    status 1. *)
Definition fatal_only {A : Type} (E : env) (P : call -> Prop) (m : M A) : Prop :=
  forall w w' r, m w = (w', r) ->
    trace_grows w w' /\
    match r with
    | Done _ => True
    | Failed e => blamed E P w w' e
    | Exited code => code = 1 /\ exists e, blamed E P w w' e
    end.

(** ** What the validators accept *)















(** ** What a run without reset leaves in place *)

(** Every collection keeps its documents, in their order, before any new
    one, its indexes, and the validator it has. *)
Definition store_grows (w w' : world) : Prop :=
  forall name,
    coll_docs (db w) name `prefix_of` coll_docs (db w') name /\
    coll_indexes (db w) name `prefix_of` coll_indexes (db w') name /\
    (forall v, coll_validator (db w) name = Some v ->
               coll_validator (db w') name = Some v).

(** The first book a seeding of the initialised empty store adds. *)
Definition first_seed_book : doc :=
  hd [] (added initialized_world seeded_once "libri").


(* ===================================================================== *)
(** * The matcher computes the language *)
(* ===================================================================== *)

Lemma append_nil_l (s : string) : "" +:+ s = s.
Proof. reflexivity. Qed.

Lemma append_cons (c : ascii) (s t : string) :
  String c s +:+ t = String c (s +:+ t).
Proof. reflexivity. Qed.

(** [String.append] is kept folded by [simpl]; this unfolds it on
    constructors. *)
Ltac sapp := rewrite ?append_cons, ?append_nil_l in *.


Lemma append_empty_r (s : string) : s +:+ "" = s.
Proof. induction s as [|c s IH]; sapp; congruence. Qed.














(** ** Bounded repetitions of a character class *)




(* ===================================================================== *)
(** * The identifier pattern *)
(* ===================================================================== *)






(* ===================================================================== *)
(** * Dictionaries *)
(* ===================================================================== *)

Lemma dict_get_cons (k k' : string) (v : value) (d : doc) :
  dict_get k ((k', v) :: d) = if String.eqb k' k then Some v else dict_get k d.
Proof. reflexivity. Qed.



Lemma dict_get_remove_ne (k k' : string) (d : doc) :
  k <> k' -> dict_get k' (dict_remove k d) = dict_get k' d.
Proof.
  intros Hne. induction d as [|[k0 v0] d IH]; simpl; [reflexivity |].
  destruct (String.eqb k0 k) eqn:Hk; simpl.
  - apply String.eqb_eq in Hk as ->.
    apply String.eqb_neq in Hne. now rewrite Hne.
  - now rewrite IH.
Qed.

Lemma dict_get_encode (k : string) (d : doc) :
  dict_get k (bson_encode_doc d) = bson_encode <$> dict_get k d.
Proof.
  induction d as [|[k' v] d IH]; simpl; [reflexivity |].
  destruct (String.eqb k' k); [reflexivity | apply IH].
Qed.

Lemma dict_get_In (k : string) (v : value) (d : doc) :
  dict_get k d = Some v -> In (k, v) d.
Proof.
  induction d as [|[k' v'] d IH]; simpl; [discriminate |].
  destruct (String.eqb k' k) eqn:Hk.
  - apply String.eqb_eq in Hk as ->. intros [= ->]. now left.
  - intros H. right. now apply IH.
Qed.

Lemma dict_get_NoDup (k : string) (v : value) (d : doc) :
  NoDup (map fst d) -> In (k, v) d -> dict_get k d = Some v.
Proof.
  induction d as [|[k' v'] d IH]; simpl; [tauto |].
  intros Hnd [Heq|Hin].
  - injection Heq as -> ->. now rewrite String.eqb_refl.
  - apply NoDup_cons in Hnd as [Hk Hnd'].
    destruct (String.eqb k' k) eqn:Hkk.
    + apply String.eqb_eq in Hkk as ->.
      exfalso. apply Hk. apply list_elem_of_In, in_map_iff. now exists (k, v).
    + now apply IH.
Qed.


Lemma bson_encode_oid (v : value) (o : ObjectId) :
  bson_encode v = VOid o <-> v = VOid o.
Proof. destruct v; simpl; split; intros H; try discriminate; congruence. Qed.

(* ===================================================================== *)
(** * Writes *)
(* ===================================================================== *)

Lemma server_insert_written (c c' : collection) (d : doc) :
  server_insert c d = Written c' ->
  c' = Collection (validator c) (indexes c) (documents c ++ [d]) /\
  is_array (doc_id d) = false /\
  (forall sc, validator c = Some sc -> validate sc d = true) /\
  key_taken id_keys d (documents c) = false /\
  (forall ix, In ix (indexes c) -> unique ix = true ->
              key_taken (keys ix) d (documents c) = false).
Proof.
  unfold server_insert, doc_id.
  destruct (is_array _) eqn:Harr; [discriminate |].
  destruct (match validator c with Some sc => negb (validate sc d) | None => false end)
    eqn:Hval; [discriminate |].
  destruct (key_taken id_keys d (documents c)) eqn:Hid; [discriminate |].
  destruct (existsb _ (indexes c)) eqn:Hix; [discriminate |].
  intros [= <-]. repeat split; try reflexivity.
  - intros sc Hsc. rewrite Hsc in Hval. now apply negb_false_iff in Hval.
  - intros ix Hin Huniq.
    destruct (key_taken (keys ix) d (documents c)) eqn:Hk; [| reflexivity].
    assert (existsb (fun ix => unique ix && key_taken (keys ix) d (documents c))
              (indexes c) = true) as Hex.
    { apply existsb_exists. exists ix. now rewrite Huniq, Hk. }
    congruence.
Qed.

(** What an ordered bulk insert leaves behind: the validator and the
    indexes as they were, and the documents up to the first refusal added
    at the end. *)
Lemma insert_ordered_spec (ds : list doc) :
  forall (c : collection) (i : nat) (c' : collection) (r : option (nat * Z)),
  insert_ordered c ds i = (c', r) ->
  validator c' = validator c /\ indexes c' = indexes c /\
  exists done rest,
    ds = done ++ rest /\ documents c' = documents c ++ done /\
    (forall pre d post, done = pre ++ d :: post ->
       exists c1, server_insert (Collection (validator c) (indexes c) (documents c ++ pre)) d
                  = Written c1) /\
    match r with
    | None => rest = []
    | Some (j, code) =>
        j = (i + length done)%nat /\
        exists d rest', rest = d :: rest' /\ server_insert c' d = WriteError code
    end.
Proof.
  induction ds as [|d ds IH]; intros c i c' r; simpl.
  - intros [= <- <-]. repeat split. exists [], []. simpl. rewrite app_nil_r.
    repeat split. intros [|? ?] ? ? ?; discriminate.
  - destruct (server_insert c d) as [c1|code] eqn:Hins.
    + intros H. apply IH in H as (Hv & Hi & done & rest & -> & Hdocs & Hacc & Hr).
      pose proof Hins as Hins'.
      apply server_insert_written in Hins' as (-> & _). simpl in *.
      split; [assumption |]. split; [assumption |].
      exists (d :: done), rest. split; [reflexivity |].
      split; [now rewrite Hdocs, <- app_assoc |].
      split.
      * intros [|p pre] x post Heq; simpl in Heq; injection Heq as ? ?; subst.
        -- rewrite app_nil_r. exists (Collection (validator c) (indexes c) (documents c ++ [x])).
           now destruct c.
        -- destruct (Hacc pre x post eq_refl) as [c1 Hc1].
           exists c1. now rewrite <- app_assoc in Hc1.
      * destruct r as [[j code]|]; [| assumption].
        destruct Hr as [-> Hr]. split; [simpl; lia | assumption].
    + intros [= <- <-]. repeat split. exists [], (d :: ds). simpl.
      rewrite app_nil_r. split; [reflexivity |]. split; [reflexivity |].
      split; [intros [|? ?] ? ? ?; discriminate |].
      split; [lia |]. eauto.
Qed.

(** A property of the stored documents that every single accepted write
    keeps is kept by a bulk insert. *)
Lemma insert_ordered_invariant (P : list doc -> Prop) (v : option schema) (ixs : list index)
    (ds : list doc) :
  (forall docs d c1,
      P docs -> server_insert (Collection v ixs docs) d = Written c1 -> P (documents c1)) ->
  forall (docs : list doc) (i : nat) (c' : collection) (r : option (nat * Z)),
  P docs ->
  insert_ordered (Collection v ixs docs) ds i = (c', r) ->
  P (documents c').
Proof.
  intros Hstep. induction ds as [|d ds IH]; intros docs i c' r HP; simpl.
  - now intros [= <- <-].
  - destruct (server_insert (Collection v ixs docs) d) as [c1|code] eqn:Hins.
    + pose proof (Hstep _ _ _ HP Hins) as HP1.
      apply server_insert_written in Hins as (-> & _). simpl in *.
      now apply IH.
    + now intros [= <- <-].
Qed.

Lemma coll_docs_insert (store : gmap string collection) (name : string) (c : collection) :
  coll_docs (<[name := c]> store) name = documents c.
Proof. unfold coll_docs. now rewrite lookup_insert_eq. Qed.

Lemma coll_docs_insert_ne (store : gmap string collection) (name name' : string)
    (c : collection) :
  name <> name' -> coll_docs (<[name := c]> store) name' = coll_docs store name'.
Proof. intros H. unfold coll_docs. now rewrite lookup_insert_ne. Qed.

Lemma default_collection_fields (store : gmap string collection) (name : string) :
  validator (default implicit_collection (store !! name)) = coll_validator store name /\
  indexes (default implicit_collection (store !! name)) = coll_indexes store name /\
  documents (default implicit_collection (store !! name)) = coll_docs store name.
Proof.
  unfold coll_validator, coll_indexes, coll_docs.
  destruct (store !! name); simpl; auto.
Qed.

(** The store as a bulk insert leaves it.  Nothing but the named
    collection changes; of the batch, the documents up to the first refusal
    are there, whatever the outcome. *)
Lemma insert_many_spec (E : env) (name : string) (ds : list doc) (w w' : world)
    (r : outcome (list value)) :
  ds <> [] ->
  insert_many E name ds w = (w', r) ->
  trace w' = trace w ++ [CInsertMany name (length ds)] /\
  console w' = console w /\ dirs w' = dirs w /\ files w' = files w /\
  clock_reads w' = clock_reads w /\
  (forall c, c <> name -> db w' !! c = db w !! c) /\
  coll_validator (db w') name = coll_validator (db w) name /\
  coll_indexes (db w') name = coll_indexes (db w) name /\
  exists done rest,
    stamped ds (next_oid w) = done ++ rest /\
    coll_docs (db w') name = coll_docs (db w) name ++ done /\
    (forall pre d post, done = pre ++ d :: post ->
       exists c1, server_insert (Collection (coll_validator (db w) name)
                                   (coll_indexes (db w) name)
                                   (coll_docs (db w) name ++ pre)) d = Written c1) /\
    match r with
    | Done ids => rest = [] /\ ids = map doc_id (fst (assign_ids ds (next_oid w)))
    | Failed e =>
        (fault E (length (trace w)) = Some e /\ done = []) \/
        (fault E (length (trace w)) = None /\
         exists code d rest',
           e = BulkWriteError (length done) code /\ rest = d :: rest' /\
           server_insert (Collection (coll_validator (db w) name)
                            (coll_indexes (db w) name)
                            (coll_docs (db w) name ++ done)) d = WriteError code)
    | Exited _ => False
    end.
Proof.
  intros Hne. unfold insert_many, stamped.
  destruct ds as [|d0 ds0]; [congruence |].
  set (ds := d0 :: ds0) in *. clearbody ds.
  destruct (assign_ids ds (next_oid w)) as [ds' n'] eqn:Hids. simpl fst.
  unfold external. simpl.
  destruct (fault E (length (trace w))) as [e|] eqn:Hfault.
  - intros [= <- <-]. simpl. repeat split; try reflexivity.
    exists [], (map bson_encode_doc ds'). simpl. rewrite app_nil_r.
    repeat split; auto. intros [|? ?] ? ? ?; discriminate.
  - destruct (default_collection_fields (db w) name) as (Hv & Hi & Hd).
    destruct (insert_ordered _ (map bson_encode_doc ds') 0) as [c' [[i code]|]] eqn:Hins;
      apply insert_ordered_spec in Hins
        as (Hv' & Hi' & done & rest & Hsplit & Hdocs & Hacc & Hr);
      rewrite Hv, Hi, Hd in Hacc;
      intros [= <- <-]; simpl;
      (split; [reflexivity |]); (split; [reflexivity |]); (split; [reflexivity |]);
      (split; [reflexivity |]); (split; [reflexivity |]);
      (split; [intros c Hc; now rewrite lookup_insert_ne |]);
      (split; [unfold coll_validator at 1; rewrite lookup_insert_eq; congruence |]);
      (split; [unfold coll_indexes at 1; rewrite lookup_insert_eq; congruence |]);
      exists done, rest; (split; [assumption |]);
      rewrite coll_docs_insert, Hdocs, Hd; (split; [reflexivity |]);
      (split; [assumption |]).
    + right. split; [reflexivity |].
      destruct Hr as (-> & d & rest' & -> & Herr).
      exists code, d, rest'. simpl. repeat split.
      rewrite <- Hv, <- Hi, <- Hd, <- Hv', <- Hi', <- Hdocs.
      now destruct c'.
    + auto.
Qed.

(* ===================================================================== *)
(** * What a validator guarantees *)
(* ===================================================================== *)

Lemma validate_required (sc : schema) (d : doc) (k : string) :
  validate sc d = true -> In k (required sc) -> exists v, dict_get k d = Some v.
Proof.
  unfold validate. intros H Hin. apply andb_true_iff in H as [H _].
  rewrite forallb_forall in H. specialize (H k Hin).
  unfold dict_contains in H. destruct (dict_get k d); [eauto | discriminate].
Qed.

Lemma validate_property (sc : schema) (d : doc) (k : string) (fs : field_schema)
    (v : value) :
  validate sc d = true -> In (k, fs) (properties sc) -> dict_get k d = Some v ->
  check_field fs v = true.
Proof.
  unfold validate. intros H Hin Hget. apply andb_true_iff in H as [_ H].
  rewrite forallb_forall in H. specialize (H (k, fs) Hin). simpl in H.
  now rewrite Hget in H.
Qed.





(** ** Identifiers assigned by the driver *)

Lemma assign_ids_fields (ds : list doc) :
  forall n, Forall2 (fun d d' => forall k, k <> "_id" -> dict_get k d' = dict_get k d)
                    ds (fst (assign_ids ds n)).
Proof.
  induction ds as [|d ds IH]; intros n; simpl; [constructor |].
  destruct (dict_get "_id" d) as [i|] eqn:Hid.
  - specialize (IH n). destruct (assign_ids ds n) as [r' n']. simpl in *.
    constructor; [| assumption].
    intros k Hk. rewrite dict_get_cons.
    destruct (String.eqb "_id" k) eqn:Hkk.
    + apply String.eqb_eq in Hkk. congruence.
    + apply dict_get_remove_ne. congruence.
  - specialize (IH (N.succ n)). destruct (assign_ids ds (N.succ n)) as [r' n']. simpl in *.
    constructor; [| assumption].
    intros k Hk. rewrite dict_get_cons.
    destruct (String.eqb "_id" k) eqn:Hkk; [| reflexivity].
    apply String.eqb_eq in Hkk. congruence.
Qed.

Lemma stamped_fields (ds : list doc) (n : N) :
  Forall2 (fun d d' => forall k, k <> "_id" -> dict_get k d' = bson_encode <$> dict_get k d)
          ds (stamped ds n).
Proof.
  unfold stamped. pose proof (assign_ids_fields ds n) as H.
  induction H as [|d d' ds ds' Hd _ IH]; simpl; constructor; [| assumption].
  intros k Hk. now rewrite dict_get_encode, Hd.
Qed.


Lemma added_app (w w' : world) (name : string) (done : list doc) :
  coll_docs (db w') name = coll_docs (db w) name ++ done ->
  added w w' name = done.
Proof. intros H. unfold added. rewrite H. apply drop_app_length. Qed.


(** The SchemaInitializer attaches the four validators to a fresh
    database. *)
Lemma create_collections_attaches (clock : nat -> datetime) :
  let w := fst (create_collections (calm clock) fresh_world) in
  coll_validator (db w) "autori" = Some autori_validator /\
  coll_validator (db w) "libri" = Some libri_validator /\
  coll_validator (db w) "utenti" = Some utenti_validator /\
  coll_validator (db w) "prestiti" = Some prestiti_validator.
Proof. repeat split; vm_compute; reflexivity. Qed.




(** C9. Each book of the seed batch has no more copies available than it
    has in total (3 of 5, 2 of 3, 1 of 4), whatever author identifiers it
    is built with.  Nothing enforces this: the books validator accepts a
    book with 9 copies available out of 5, and the store takes it. *)
Theorem C9_seed_books_copies (a0 a1 a2 : value) :
  map copies (libri_data a0 a1 a2) = [Some (3, 5); Some (2, 3); Some (1, 4)] /\
  Forall copies_consistent (libri_data a0 a1 a2) /\
  (validate libri_validator overbooked_book = true /\
   ~ copies_consistent overbooked_book /\
   exists ids, snd (insert_many (calm sample_clock) "libri" [overbooked_book]
                      initialized_world) = Done ids).
Proof.
  split; [reflexivity |]. split.
  - repeat constructor.
    + exists 3, 5. split; [reflexivity | lia].
    + exists 2, 3. split; [reflexivity | lia].
    + exists 1, 4. split; [reflexivity | lia].
  - split; [vm_compute; reflexivity |]. split.
    + intros (a & t & Hc & Hle). vm_compute in Hc. injection Hc as <- <-. lia.
    + eexists. vm_compute. reflexivity.
Qed.

(* ===================================================================== *)
(** * Whole runs *)
(* ===================================================================== *)

(** C1. A full set-up of an empty database, with no external fault,
    inserts 3 authors, 3 books, 3 patrons and 2 loans, and the Validator
    reports these counts; the process ends with status 0.  This holds
    whatever the clock shows and with or without [--reset]. *)
Theorem C1_full_setup_counts (clock : nat -> datetime) (reset : bool) :
  let run := main (calm clock) reset fresh_world in
  let w := fst run in
  snd run = 0 /\
  reported_inserts (console w) =
    [("autori", 3%nat); ("libri", 3%nat); ("utenti", 3%nat); ("prestiti", 2%nat)] /\
  reported_counts (console w) =
    [("autori", 3%nat); ("libri", 3%nat); ("utenti", 3%nat); ("prestiti", 2%nat)] /\
  (count w "autori", count w "libri", count w "utenti", count w "prestiti")
    = (3%nat, 3%nat, 3%nat, 2%nat).
Proof.
  destruct reset; vm_compute; repeat split.
Qed.

(** ** The second run *)

(** C3, as stated, fails: on the store a first run has seeded, the second
    run stops seeding at the books batch and never issues the patrons and
    loans inserts. *)
Lemma C3_seeding_is_halted :
  ~ second_run_as_stated (calm sample_clock) (seeded_world sample_clock).
Proof.
  intros (_ & _ & Hgo).
  specialize (Hgo "prestiti" ltac:(simpl; tauto)).
  vm_compute in Hgo. discriminate.
Qed.

(** C3, amended. A second run without reset on a seeded store ends with
    status 0 and duplicates no identifier code, e-mail address or national
    identifier code.  The books batch is refused at its first record with a
    duplicate-key error, which is reported; seeding returns there, so the
    only inserts issued are those of authors and books, and the store ends
    with 6 authors (they carry no unique key), 3 books, 3 patrons and 2
    loans. *)
Theorem C3_second_run_amended (clock1 clock2 : nat -> datetime) :
  let w1 := seeded_world clock1 in
  let run2 := main (calm clock2) false w1 in
  let w2 := fst run2 in
  snd run2 = 0 /\
  no_duplicate_keys w2 = true /\
  reported_inserts (new_lines w1 w2) = [("autori", 3%nat)] /\
  In (InsertFailed "libri" (BulkWriteError 0 DuplicateKey)) (new_lines w1 w2) /\
  List.filter is_insert (new_calls w1 w2) = [CInsertMany "autori" 3; CInsertMany "libri" 3] /\
  (count w2 "autori", count w2 "libri", count w2 "utenti", count w2 "prestiti")
    = (6%nat, 3%nat, 3%nat, 2%nat).
Proof.
  vm_compute. repeat split. auto 30.
Qed.

(** ** Failures inside the Validator and the Exporter *)

(** C5 fails on the code.  When the first [count_documents] of the
    Validator raises (here: the server has become unreachable after
    seeding), nothing catches the exception before [main]: the Exporter
    never runs, no file is written, and the process ends with status 1. *)
Theorem C5_count_failure_is_fatal :
  let E := failing_at first_count_call ConnectionFailure sample_clock in
  let run := main E false fresh_world in
  let w := fst run in
  snd run = 1 /\
  last (trace w) = Some (CCountDocuments "autori") /\
  last (console w) = Some (SetupFailed ConnectionFailure) /\
  List.filter is_export_call (trace w) = [] /\
  files w = ∅.
Proof.
  vm_compute. repeat split.
Qed.

(** The sibling path: the same failure in the aggregation of the Validator
    is caught and reported, the Exporter runs, and the status is 0. *)
Lemma aggregate_failure_is_caught :
  let E := failing_at aggregate_call ConnectionFailure sample_clock in
  let run := main E false fresh_world in
  let w := fst run in
  snd run = 0 /\
  In (QueryFailed ConnectionFailure) (console w) /\
  List.filter is_export_call (trace w) =
    [CMakedirs "data";
     CFind "autori"; CWriteFile "data/autori_sample.json";
     CFind "libri"; CWriteFile "data/libri_sample.json";
     CFind "utenti"; CWriteFile "data/utenti_sample.json";
     CFind "prestiti"; CWriteFile "data/prestiti_sample.json"].
Proof.
  vm_compute. repeat split. auto 40.
Qed.

(** The Exporter has the same gap: a failure of [os.makedirs] is outside
    its [try] and ends the process with status 1. *)
Lemma makedirs_failure_is_fatal :
  let E := failing_at makedirs_call OSError sample_clock in
  let run := main E false fresh_world in
  snd run = 1 /\
  last (console (fst run)) = Some (SetupFailed OSError) /\
  files (fst run) = ∅.
Proof.
  vm_compute. repeat split.
Qed.

(* ===================================================================== *)
(** * The SeedLoader *)
(* ===================================================================== *)

Lemma insert_stage_done (E : env) (name : string) (data : list doc) (w w1 : world)
    (ids : list value) :
  insert_many E name data w = (w1, Done ids) ->
  insert_stage E name data w = (say (Inserted name (length ids)) w1, Done (inl ids)).
Proof.
  intros H. unfold insert_stage, attempt, try_except, bind. now rewrite H.
Qed.

Lemma insert_stage_failed (E : env) (name : string) (data : list doc) (w w1 : world)
    (e : exn) :
  insert_many E name data w = (w1, Failed e) ->
  insert_stage E name data w = (say (InsertFailed name e) w1, Done (inr e)).
Proof.
  intros H. unfold insert_stage, attempt, try_except, bind. now rewrite H.
Qed.

Lemma load_sample_data_unfold (E : env) (w : world) :
  load_sample_data E w =
  match insert_stage E "autori" autori_data (say (Say "Caricamento dati di esempio...") w) with
  | (w1, Done (inl autori_ids)) =>
      (a0 <- list_item autori_ids 0 ;;
       a1 <- list_item autori_ids 1 ;;
       a2 <- list_item autori_ids 2 ;;
       r <- insert_stage E "libri" (libri_data a0 a1 a2) ;;
       match r with
       | inr _ => ret tt
       | inl libri_ids =>
           r <- insert_stage E "utenti" utenti_data ;;
           match r with
           | inr _ => ret tt
           | inl utenti_ids =>
               t0 <- now E ;;
               let base_date := sub_days t0 30 in
               l0 <- list_item libri_ids 0 ;;
               u0 <- list_item utenti_ids 0 ;;
               l2 <- list_item libri_ids 2 ;;
               u1 <- list_item utenti_ids 1 ;;
               t1 <- now E ;;
               t2 <- now E ;;
               try_except
                 (inserted_ids <- insert_many E "prestiti"
                                    (prestiti_data l0 u0 l2 u1 base_date t1 t2) ;;
                  print (Inserted "prestiti" (length inserted_ids)))
                 (fun e => print (InsertFailed "prestiti" e))
           end
       end)%script w1
  | (w1, Done (inr _)) => (w1, Done tt)
  | (w1, Failed e) => (w1, Failed e)
  | (w1, Exited c) => (w1, Exited c)
  end.
Proof.
  unfold load_sample_data, say. unfold bind at 1. unfold print at 1.
  cbv beta iota. unfold bind at 1. unfold print at 2. cbn [fst].
  destruct (insert_stage E "autori" autori_data _) as [w1 [[ids|e]|e|c]]; reflexivity.
Qed.

Lemma say_fields (m : msg) (w : world) :
  console (say m w) = console w ++ [m] /\ trace (say m w) = trace w /\
  db (say m w) = db w /\ next_oid (say m w) = next_oid w.
Proof. repeat split. Qed.

Lemma new_calls_app (w w' : world) (t : list call) :
  trace w' = trace w ++ t -> new_calls w w' = t.
Proof. intros H. unfold new_calls. rewrite H. apply drop_app_length. Qed.

Lemma coll_docs_same (s s' : gmap string collection) (c : string) :
  s' !! c = s !! c -> coll_docs s' c = coll_docs s c.
Proof. unfold coll_docs. now intros ->. Qed.

Lemma stamped_length (ds : list doc) (n : N) : length (stamped ds n) = length ds.
Proof.
  unfold stamped. rewrite length_map.
  symmetry. apply (Forall2_length _ _ _ (assign_ids_fields ds n)).
Qed.

Lemma bind_done {A B : Type} (m : M A) (k : A -> M B) (w w1 : world) (a : A) :
  m w = (w1, Done a) -> bind m k w = k a w1.
Proof. intros H. unfold bind. now rewrite H. Qed.

Lemma bind_list_item {A B : Type} (l : list A) (i : nat) (x : A) (k : A -> M B)
    (w : world) :
  l !! i = Some x -> bind (list_item l i) k w = k x w.
Proof. intros H. apply bind_done. unfold list_item. now rewrite H. Qed.

(** C4. When the batch insert of a seeding stage fails (authors, books or
    patrons), [load_sample_data] reports the failure and returns: the only
    inserts it has issued are those up to the failing one, so every later
    stage is skipped and its collection is left as it was; what the
    earlier stages inserted is still in the store, exactly as it was right
    after their insert, and what the failing batch managed to write before
    its error stays as well. *)
Theorem C4_failed_batch_skips_rest
    (E : env) (w : world) (name : string) (e : exn) (ws : list (string * world)) :
  seeding_fails E w name e ws ->
  let w' := fst (load_sample_data E w) in
  snd (load_sample_data E w) = Done tt /\
  last (console w') = Some (InsertFailed name e) /\
  new_calls w w' = map (fun c => CInsertMany c (batch_size c)) (map fst ws ++ [name]) /\
  (forall c, ~ In c (map fst ws) -> c <> name -> db w' !! c = db w !! c) /\
  (forall c wc, In (c, wc) ws ->
     db w' !! c = db wc !! c /\
     exists new, coll_docs (db wc) c = coll_docs (db w) c ++ new /\
                 length new = batch_size c) /\
  (exists some, coll_docs (db w') name = coll_docs (db w) name ++ some).
Proof.
  intros Hfail.
  destruct Hfail as
    [ e w1 H1
    | ids a0 a1 a2 e w1 w2 H1 Ha0 Ha1 Ha2 H2
    | ids a0 a1 a2 lids e w1 w2 w3 H1 Ha0 Ha1 Ha2 H2 H3 ].
  - rewrite load_sample_data_unfold, (insert_stage_failed _ _ _ _ _ _ H1). cbn [fst snd].
    apply insert_many_spec in H1
      as (Ht & Hc & _ & _ & _ & Hdb & _ & _ & done & rest & _ & Hdocs & _); [| discriminate].
    split; [reflexivity |]. split; [apply last_snoc |].
    split; [now apply new_calls_app |].
    split; [intros c _ Hc'; now apply Hdb |].
    split; [intros c wc [] |]. now exists done.
  - assert (Hrun : load_sample_data E w = (say (InsertFailed "libri" e) w2, Done tt)).
    { rewrite load_sample_data_unfold, (insert_stage_done _ _ _ _ _ _ H1).
      rewrite (bind_list_item _ _ _ _ _ Ha0), (bind_list_item _ _ _ _ _ Ha1),
        (bind_list_item _ _ _ _ _ Ha2).
      now rewrite (bind_done _ _ _ _ _ (insert_stage_failed _ _ _ _ _ _ H2)). }
    rewrite Hrun. cbn [fst snd].
    apply insert_many_spec in H1
      as (Ht1 & Hc1 & _ & _ & _ & Hdb1 & _ & _ & done1 & rest1 & Hs1 & Hdocs1 & _ & Hr1);
      [| discriminate].
    apply insert_many_spec in H2
      as (Ht2 & Hc2 & _ & _ & _ & Hdb2 & _ & _ & done2 & rest2 & _ & Hdocs2 & _);
      [| discriminate].
    destruct Hr1 as [-> _]. rewrite app_nil_r in Hs1.
    split; [reflexivity |]. split; [apply last_snoc |].
    split.
    { apply new_calls_app. cbn [say print fst trace set_console] in *.
      rewrite Ht2, Ht1. now rewrite <- app_assoc. }
    split.
    { intros c Hc Hc'. cbn [say print fst db set_console map] in *.
      rewrite Hdb2 by assumption. apply Hdb1. intros ->. apply Hc. now left. }
    split.
    { intros c wc [[= <- <-]|[]]. cbn [say print fst db set_console] in *.
      split; [now apply Hdb2 |].
      exists done1. split; [assumption |].
      rewrite <- Hs1, stamped_length. reflexivity. }
    exists done2. cbn [say print fst db set_console] in *.
    rewrite Hdocs2. f_equal. apply coll_docs_same. now apply Hdb1.
  - assert (Hrun : load_sample_data E w = (say (InsertFailed "utenti" e) w3, Done tt)).
    { rewrite load_sample_data_unfold, (insert_stage_done _ _ _ _ _ _ H1).
      rewrite (bind_list_item _ _ _ _ _ Ha0), (bind_list_item _ _ _ _ _ Ha1),
        (bind_list_item _ _ _ _ _ Ha2).
      rewrite (bind_done _ _ _ _ _ (insert_stage_done _ _ _ _ _ _ H2)).
      now rewrite (bind_done _ _ _ _ _ (insert_stage_failed _ _ _ _ _ _ H3)). }
    rewrite Hrun. cbn [fst snd].
    apply insert_many_spec in H1
      as (Ht1 & Hc1 & _ & _ & _ & Hdb1 & _ & _ & done1 & rest1 & Hs1 & Hdocs1 & _ & Hr1);
      [| discriminate].
    apply insert_many_spec in H2
      as (Ht2 & Hc2 & _ & _ & _ & Hdb2 & _ & _ & done2 & rest2 & Hs2 & Hdocs2 & _ & Hr2);
      [| discriminate].
    apply insert_many_spec in H3
      as (Ht3 & Hc3 & _ & _ & _ & Hdb3 & _ & _ & done3 & rest3 & _ & Hdocs3 & _);
      [| discriminate].
    destruct Hr1 as [-> _]. rewrite app_nil_r in Hs1.
    destruct Hr2 as [-> _]. rewrite app_nil_r in Hs2.
    cbn [say print fst db trace console set_console next_oid] in *.
    split; [reflexivity |]. split; [apply last_snoc |].
    split.
    { apply new_calls_app. cbn [trace set_console].
      rewrite Ht3, Ht2, Ht1. now rewrite <- !app_assoc. }
    split.
    { intros c Hc Hc'. cbn [map fst] in Hc.
      rewrite Hdb3 by assumption.
      rewrite Hdb2 by (intros ->; apply Hc; right; now left).
      apply Hdb1. intros ->. apply Hc. now left. }
    split.
    { intros c wc [[= <- <-]|[[= <- <-]|[]]].
      - split; [rewrite Hdb3 by discriminate; now apply Hdb2 |].
        exists done1. split; [assumption |].
        rewrite <- Hs1, stamped_length. reflexivity.
      - split; [now apply Hdb3 |].
        exists done2. split.
        + rewrite Hdocs2. f_equal. apply coll_docs_same. now apply Hdb1.
        + rewrite <- Hs2, stamped_length. reflexivity. }
    exists done3. rewrite Hdocs3. f_equal. apply coll_docs_same.
    rewrite Hdb2 by discriminate. now apply Hdb1.
Qed.

Lemma C4_failed_batch_skips_rest_witness :
  (seeding_fails (failing_at 0 ConnectionFailure sample_clock) fresh_world
     "autori" ConnectionFailure [] /\
   last (console (fst (load_sample_data (failing_at 0 ConnectionFailure sample_clock)
                         fresh_world)))
     = Some (InsertFailed "autori" ConnectionFailure)) /\
  (exists ws,
     seeding_fails (calm sample_clock) (seeded_world sample_clock)
       "libri" (BulkWriteError 0 DuplicateKey) ws /\
     last (console (fst (load_sample_data (calm sample_clock) (seeded_world sample_clock))))
       = Some (InsertFailed "libri" (BulkWriteError 0 DuplicateKey))) /\
  (exists ws,
     seeding_fails (failing_at 2 ConnectionFailure sample_clock) fresh_world
       "utenti" ConnectionFailure ws /\
     last (console (fst (load_sample_data (failing_at 2 ConnectionFailure sample_clock)
                           fresh_world)))
       = Some (InsertFailed "utenti" ConnectionFailure)).
Proof.
  split; [| split].
  - assert (H : seeding_fails (failing_at 0 ConnectionFailure sample_clock) fresh_world
                  "autori" ConnectionFailure []).
    { eapply fails_autori. vm_compute. reflexivity. }
    split; [exact H |].
    exact (proj1 (proj2 (C4_failed_batch_skips_rest _ _ _ _ _ H))).
  - eexists.
    match goal with |- ?P /\ _ => assert (H : P) end.
    { eapply fails_libri.
      - vm_compute. reflexivity.
      - reflexivity.
      - reflexivity.
      - reflexivity.
      - vm_compute. reflexivity. }
    split; [exact H |].
    exact (proj1 (proj2 (C4_failed_batch_skips_rest _ _ _ _ _ H))).
  - eexists.
    match goal with |- ?P /\ _ => assert (H : P) end.
    { eapply fails_utenti.
      - vm_compute. reflexivity.
      - reflexivity.
      - reflexivity.
      - reflexivity.
      - vm_compute. reflexivity.
      - vm_compute. reflexivity. }
    split; [exact H |].
    exact (proj1 (proj2 (C4_failed_batch_skips_rest _ _ _ _ _ H))).
Defined.

(* ===================================================================== *)
(** * The IndexBuilder *)
(* ===================================================================== *)

Lemma steps_ret {A : Type} (a : A) : steps (ret a) [].
Proof.
  intros w w' r [= <- <-]. exists []. now rewrite app_nil_r.
Qed.

Lemma steps_print (m : msg) : steps (print m) [].
Proof.
  intros w w' r [= <- <-]. exists []. simpl. now rewrite app_nil_r.
Qed.

Lemma steps_bind {A B : Type} (m : M A) (k : A -> M B) (a b : list call) :
  steps m a -> (forall x, steps (k x) b) -> steps (bind m k) (a ++ b).
Proof.
  intros Hm Hk w w' r. unfold bind.
  destruct (m w) as [w1 [x|e|c]] eqn:Hmw.
  - destruct (Hm _ _ _ Hmw) as (t1 & Ht1 & ->).
    intros Hkx. destruct (Hk x _ _ _ Hkx) as (t2 & Ht2 & Hr).
    exists (a ++ t2). rewrite Ht2, Ht1, <- app_assoc. split; [reflexivity |].
    destruct r; [now subst | now apply prefix_app | now apply prefix_app].
  - intros [= <- <-]. destruct (Hm _ _ _ Hmw) as (t1 & Ht1 & Hp).
    exists t1. split; [assumption |]. now apply prefix_app_r.
  - intros [= <- <-]. destruct (Hm _ _ _ Hmw) as (t1 & Ht1 & Hp).
    exists t1. split; [assumption |]. now apply prefix_app_r.
Qed.

Lemma steps_create_index (E : env) (name : string) (ks : list (string * direction))
    (uniq : bool) :
  steps (create_index E name ks uniq) [CCreateIndex name (Index ks uniq)].
Proof.
  intros w w' r. unfold create_index, external.
  destruct (fault E (length (trace w))).
  - intros [= <- <-]. eexists. split; [reflexivity | reflexivity].
  - repeat match goal with |- context [if ?b then _ else _] => destruct b end;
      intros [= <- <-]; eexists; (split; [reflexivity | reflexivity]).
Qed.

(** A handler that makes no external call leaves the calls of the body. *)
Lemma steps_try_except {A : Type} (body : M A) (handler : exn -> M A) (cs : list call) :
  steps body cs -> (forall e, steps (handler e) []) ->
  forall w w' r, try_except body handler w = (w', r) ->
    exists t, trace w' = trace w ++ t /\ t `prefix_of` cs.
Proof.
  intros Hb Hh w w' r. unfold try_except.
  destruct (body w) as [w1 [x|e|c]] eqn:Hbw.
  - intros [= <- <-]. destruct (Hb _ _ _ Hbw) as (t & Ht & ->). now exists cs.
  - intros Hhe. destruct (Hb _ _ _ Hbw) as (t & Ht & Hp).
    destruct (Hh e _ _ _ Hhe) as (t2 & Ht2 & Hr).
    assert (t2 = []) as ->.
    { destruct r; [assumption | | ]; now apply prefix_nil_inv. }
    exists t. rewrite Ht2, Ht, app_nil_r. auto.
  - intros [= <- <-]. destruct (Hb _ _ _ Hbw) as (t & Ht & Hp). now exists t.
Qed.

Lemma unique_declarations_prefix (t cs : list call) :
  t `prefix_of` cs -> incl (unique_declarations t) (unique_declarations cs).
Proof.
  intros [k ->]. unfold unique_declarations. rewrite flat_map_app.
  now apply incl_appl.
Qed.

(** The calls of the IndexBuilder, whatever happens, are the first few of
    its fourteen index declarations; the unique ones among all fourteen are
    the three on identifier code, e-mail and national identifier code. *)
Lemma create_indexes_calls (E : env) (w : world) :
  exists t cs, trace (fst (create_indexes E w)) = trace w ++ t /\
               t `prefix_of` cs /\ unique_declarations cs = declared_unique.
Proof.
  unfold create_indexes, bind at 1. unfold print at 1. cbv beta iota.
  match goal with
  | |- context [try_except ?b ?h ?w0] =>
      destruct (try_except b h w0) as [w' r] eqn:Hrun;
      eassert (Hb : steps b _)
  end.
  { repeat (eapply steps_bind;
            [ first [apply steps_create_index | apply steps_print] | intros _ ]).
    apply steps_print. }
  destruct (steps_try_except _ _ _ Hb (fun e => steps_print _) _ _ _ Hrun)
    as (t & Ht & Hp).
  eexists t, _. split; [exact Ht |]. split; [exact Hp | reflexivity].
Qed.

(** A write that would repeat a key of a unique index is refused by the
    store. *)
Lemma unique_index_refuses (c : collection) (d : doc) (ix : index) :
  In ix (indexes c) -> unique ix = true ->
  key_taken (keys ix) d (documents c) = true ->
  exists code, server_insert c d = WriteError code.
Proof.
  intros Hin Hu Hk. unfold server_insert.
  destruct (is_array _); [eauto |].
  destruct (match validator c with Some _ => _ | None => _ end); [eauto |].
  destruct (key_taken id_keys d (documents c)); [eauto |].
  assert (existsb (fun ix => unique ix && key_taken (keys ix) d (documents c))
            (indexes c) = true) as ->; [| eauto].
  apply existsb_exists. exists ix. now rewrite Hu, Hk.
Qed.

(** C8. The only uniqueness constraints the IndexBuilder declares, in any
    run, are those on the book identifier code, the patron e-mail and the
    patron national identifier code; after a set-up of an empty database
    all three are declared, and they are the unique indexes the store has.
    Uniqueness is the work of the store: a write that repeats the key of a
    unique index is refused by it, and the script sends its batches without
    looking first (on a seeded store the books batch is sent and comes back
    with the duplicate-key error of the store). *)
Theorem C8_unique_indexes (E : env) (w : world) (clock : nat -> datetime) :
  incl (unique_declarations (new_calls w (fst (create_indexes E w)))) declared_unique /\
  (let w1 := seeded_world clock in
   unique_declarations (trace w1) = declared_unique /\
   unique_indexes (db w1) "autori" = [] /\
   unique_indexes (db w1) "libri" = [isbn_keys] /\
   unique_indexes (db w1) "utenti" = [email_keys; codice_fiscale_keys] /\
   unique_indexes (db w1) "prestiti" = [] /\
   let w2 := fst (load_sample_data (calm clock) w1) in
   In (CInsertMany "libri" 3) (new_calls w1 w2) /\
   In (InsertFailed "libri" (BulkWriteError 0 DuplicateKey)) (new_lines w1 w2)) /\
  (forall (c : collection) (d : doc) (ix : index),
     In ix (indexes c) -> unique ix = true ->
     key_taken (keys ix) d (documents c) = true ->
     exists code, server_insert c d = WriteError code).
Proof.
  split; [| split].
  - destruct (create_indexes_calls E w) as (t & cs & Ht & Hp & Hcs).
    rewrite (new_calls_app _ _ _ Ht), <- Hcs.
    now apply unique_declarations_prefix.
  - vm_compute. repeat split; auto 20.
  - apply unique_index_refuses.
Qed.

(* ===================================================================== *)
(** * The join of the Validator *)
(* ===================================================================== *)

Lemma value_eqb_oid (v : value) (o : ObjectId) :
  value_eqb v (VOid o) = true <-> v = VOid o.
Proof.
  destruct v as [| | | |[n]| | |]; simpl; try (split; [discriminate | discriminate]).
  destruct o as [m]. simpl. rewrite N.eqb_eq. split; congruence.
Qed.













(* ===================================================================== *)
(** * The Exporter *)
(* ===================================================================== *)

(** Induction on values that reaches into lists and nested documents. *)
Lemma value_ind_nested (P : value -> Prop) :
  P VNull -> (forall b, P (VBool b)) -> (forall z, P (VInt z)) ->
  (forall s, P (VStr s)) -> (forall o, P (VOid o)) -> (forall t, P (VDate t)) ->
  (forall l, Forall P l -> P (VArr l)) ->
  (forall d, Forall (fun kv => P (snd kv)) d -> P (VDoc d)) ->
  forall v, P v.
Proof.
  intros HN HB HI HS HO HD HA HDoc.
  fix IH 1. intros [| b | z | s | o | t | l | d].
  - exact HN.
  - apply HB.
  - apply HI.
  - apply HS.
  - apply HO.
  - apply HD.
  - apply HA. induction l as [|x l IHl]; constructor; [apply IH | exact IHl].
  - apply HDoc. induction d as [|[k x] d IHd]; constructor; [apply IH | exact IHd].
Qed.


(** Without [default], a raw identifier is a [TypeError]. *)
Lemma json_encode_needs_default (o : ObjectId) :
  json_encode None (VArr [VOid o]) = Raise TypeError.
Proof. reflexivity. Qed.

(** ** The conversion loop *)













(* ===================================================================== *)
(** * What the store maintains *)
(* ===================================================================== *)

(** The assumptions of C6 about the authors collection are invariants of
    the store: every accepted write keeps identifiers distinct and, under
    the authors validator, every stored author valid. *)

Lemma value_eqb_sym (a : value) : forall b, value_eqb a b = value_eqb b a.
Proof.
  induction a as [| x | x | x | x | x | l IHl | d IHd] using value_ind_nested;
    intros [| y | y | y | y | y | l' | d']; try reflexivity.
  - simpl. now destruct x, y.
  - simpl. apply Z.eqb_sym.
  - simpl. apply String.eqb_sym.
  - destruct x, y. simpl. apply N.eqb_sym.
  - simpl. apply Z.eqb_sym.
  - cbn [value_eqb]. revert l'.
    induction IHl as [|u l Hu _ IH]; intros [|v l']; try reflexivity.
    now rewrite Hu, IH.
  - cbn [value_eqb]. revert d'.
    induction IHd as [|[k u] d Hu _ IH]; intros [|[k' v] d']; try reflexivity.
    cbn [snd] in Hu. now rewrite Hu, IH, String.eqb_sym.
Qed.

Lemma key_eqb_sym (a : list value) : forall b, key_eqb a b = key_eqb b a.
Proof.
  induction a as [|x a IH]; intros [|y b]; try reflexivity.
  simpl. now rewrite value_eqb_sym, IH.
Qed.

Lemma key_taken_app (ks : list (string * direction)) (d : doc) (l1 l2 : list doc) :
  key_taken ks d (l1 ++ l2) = key_taken ks d l1 || key_taken ks d l2.
Proof. unfold key_taken. apply existsb_app. Qed.

Lemma key_taken_cons (ks : list (string * direction)) (d x : doc) (r : list doc) :
  key_taken ks d (x :: r)
  = key_eqb (index_key ks x) (index_key ks d) || key_taken ks d r.
Proof. reflexivity. Qed.

Lemma keys_distinct_snoc (ks : list (string * direction)) (ds : list doc) (d : doc) :
  keys_distinct ks (ds ++ [d]) = keys_distinct ks ds && negb (key_taken ks d ds).
Proof.
  induction ds as [|x r IH]; [reflexivity |].
  cbn [app keys_distinct]. rewrite IH, key_taken_app, !key_taken_cons.
  change (key_taken ks x []) with false. rewrite orb_false_r.
  rewrite (key_eqb_sym (index_key ks d) (index_key ks x)).
  generalize (key_taken ks x r), (key_eqb (index_key ks x) (index_key ks d)),
    (keys_distinct ks r), (key_taken ks d r).
  intros [] [] [] []; reflexivity.
Qed.

Lemma server_insert_keeps_ids (c c' : collection) (d : doc) :
  ids_ok (documents c) = true -> server_insert c d = Written c' ->
  ids_ok (documents c') = true.
Proof.
  intros Hok Hins.
  apply server_insert_written in Hins as (-> & Harr & _ & Hfree & _). simpl.
  unfold ids_ok in *. apply andb_true_iff in Hok as [Hdist Hall].
  rewrite keys_distinct_snoc, Hdist, Hfree, forallb_app, Hall. simpl.
  now rewrite Harr.
Qed.

Lemma server_insert_keeps_authors (c c' : collection) (d : doc) :
  validator c = Some autori_validator ->
  Forall is_author (documents c) -> server_insert c d = Written c' ->
  Forall is_author (documents c').
Proof.
  intros Hv Hall Hins.
  apply server_insert_written in Hins as (-> & _ & Hvalid & _). simpl.
  apply Forall_app. split; [assumption |]. constructor; [| constructor].
  now apply Hvalid.
Qed.

(** A bulk insert into the authors collection, whatever its outcome, keeps
    both invariants. *)
Lemma insert_many_keeps_authors (E : env) (ds : list doc) (w w' : world)
    (r : outcome (list value)) :
  ds <> [] ->
  coll_validator (db w) "autori" = Some autori_validator ->
  ids_ok (coll_docs (db w) "autori") = true ->
  Forall is_author (coll_docs (db w) "autori") ->
  insert_many E "autori" ds w = (w', r) ->
  ids_ok (coll_docs (db w') "autori") = true /\
  Forall is_author (coll_docs (db w') "autori").
Proof.
  intros Hne Hv Hids Hauth Hins.
  apply insert_many_spec in Hins
    as (_ & _ & _ & _ & _ & _ & _ & _ & done & rest & _ & Hdocs & Hacc & _);
    [| assumption].
  rewrite Hdocs. clear Hdocs rest.
  induction done as [|d done IH] using rev_ind.
  - now rewrite app_nil_r.
  - rewrite app_assoc.
    destruct IH as [IH1 IH2].
    { intros pre x post Heq. apply (Hacc pre x (post ++ [d])).
      rewrite Heq, <- app_assoc. reflexivity. }
    destruct (Hacc done d [] eq_refl) as [c1 Hc1].
    assert (Hdocs1 : documents c1 = (coll_docs (db w) "autori" ++ done) ++ [d]).
    { pose proof Hc1 as Hc1'.
      now apply server_insert_written in Hc1' as (-> & _). }
    rewrite <- Hdocs1. split.
    + eapply server_insert_keeps_ids; [| exact Hc1]. exact IH1.
    + eapply server_insert_keeps_authors; [| | exact Hc1]; [exact Hv | exact IH2].
Qed.

(* ===================================================================== *)
(** * Loans refer to the records of their run *)
(* ===================================================================== *)

Lemma added_same (w w' : world) (name : string) :
  db w' !! name = db w !! name -> added w w' name = [].
Proof.
  intros H. unfold added. rewrite (coll_docs_same _ _ _ H).
  apply drop_all.
Qed.

(** The two ways a seeding stage ends.  On success the whole batch is in
    the collection, under identifiers no stored document had. *)
Lemma insert_stage_spec (E : env) (name : string) (data : list doc) (w w' : world)
    (r : outcome (list value + exn)) :
  data <> [] ->
  insert_stage E name data w = (w', r) ->
  (forall c, c <> name -> db w' !! c = db w !! c) /\
  ((exists e, r = Done (inr e)) \/
   (exists ids, r = Done (inl ids) /\
    ids = map doc_id (fst (assign_ids data (next_oid w))) /\
    coll_docs (db w') name = coll_docs (db w) name ++ stamped data (next_oid w) /\
    forall pre d post, stamped data (next_oid w) = pre ++ d :: post ->
      key_taken id_keys d (coll_docs (db w) name ++ pre) = false)).
Proof.
  intros Hne. destruct (insert_many E name data w) as [w1 r1] eqn:Hins.
  pose proof Hins as Hspec.
  apply insert_many_spec in Hspec
    as (_ & _ & _ & _ & _ & Hdb & _ & _ & done & rest & Hsplit & Hdocs & Hacc & Hr);
    [| assumption].
  destruct r1 as [ids|e|c]; [| | destruct Hr].
  - rewrite (insert_stage_done _ _ _ _ _ _ Hins). intros [= <- <-].
    destruct Hr as [-> ->]. rewrite app_nil_r in Hsplit. subst done.
    split; [exact Hdb |]. right. eexists. split; [reflexivity |].
    split; [reflexivity |]. split; [exact Hdocs |].
    intros pre d post Heq. destruct (Hacc pre d post Heq) as [c1 Hc1].
    now apply server_insert_written in Hc1 as (_ & _ & _ & Hfree & _).
  - rewrite (insert_stage_failed _ _ _ _ _ _ Hins). intros [= <- <-].
    split; [exact Hdb |]. left. eauto.
Qed.

Lemma key_taken_id (d : doc) (ds : list doc) :
  key_taken id_keys d ds = existsb (fun d' => value_eqb (doc_id d') (doc_id d)) ds.
Proof.
  unfold key_taken, index_key, id_keys, doc_id. cbn [map fst key_eqb].
  induction ds as [|x r IH]; [reflexivity |]. cbn [existsb].
  now rewrite IH, andb_true_r.
Qed.

(** An identifier nothing before it holds finds its own document. *)
Lemma find_fresh (docs : list doc) (d : doc) (post : list doc) (o : ObjectId) :
  doc_id d = VOid o ->
  key_taken id_keys d docs = false ->
  find_by_id (docs ++ d :: post) (VOid o) = Some d.
Proof.
  intros Hid. rewrite key_taken_id, Hid. unfold find_by_id.
  induction docs as [|x r IH]; cbn [existsb app List.find].
  - intros _. rewrite Hid. destruct o. simpl. now rewrite N.eqb_refl.
  - intros H. apply orb_false_iff in H as [Hx Hr]. rewrite Hx. now apply IH.
Qed.

Lemma Forall2_In_r {A B : Type} (P : A -> B -> Prop) (l : list A) (k : list B) (y : B) :
  Forall2 P l k -> In y k -> exists x, In x l /\ P x y.
Proof.
  induction 1 as [|a b l k Hab _ IH]; simpl; [tauto |].
  intros [<-|Hin]; [eauto |]. destruct (IH Hin) as (x & Hx & HP). eauto.
Qed.

(** The identifiers the driver assigns to the seed batches. *)
Lemma autori_ids_from (n : N) :
  map doc_id (fst (assign_ids autori_data n))
  = [VOid (Oid n); VOid (Oid (N.succ n)); VOid (Oid (N.succ (N.succ n)))].
Proof. reflexivity. Qed.

Lemma libri_ids_from (a0 a1 a2 : value) (n : N) :
  map doc_id (fst (assign_ids (libri_data a0 a1 a2) n))
  = [VOid (Oid n); VOid (Oid (N.succ n)); VOid (Oid (N.succ (N.succ n)))].
Proof. reflexivity. Qed.

Lemma utenti_ids_from (n : N) :
  map doc_id (fst (assign_ids utenti_data n))
  = [VOid (Oid n); VOid (Oid (N.succ n)); VOid (Oid (N.succ (N.succ n)))].
Proof. reflexivity. Qed.

(** How a run of the SeedLoader ends: either no loan is added, or the
    patrons and books batches are in the store in full, under fresh
    identifiers, and the loans added are the first few of the loans batch
    built from the first and third book and the first and second patron. *)
Lemma seeding_outcome (E : env) (w w' : world) (r : outcome unit) :
  load_sample_data E w = (w', r) ->
  added w w' "prestiti" = [] \/
  exists m k q base t1 t2 done rest a0 a1 a2,
    stamped (prestiti_data (VOid (Oid m)) (VOid (Oid k))
               (VOid (Oid (N.succ (N.succ m)))) (VOid (Oid (N.succ k)))
               base t1 t2) q = done ++ rest /\
    added w w' "prestiti" = done /\
    coll_docs (db w') "utenti" = coll_docs (db w) "utenti" ++ stamped utenti_data k /\
    coll_docs (db w') "libri" = coll_docs (db w) "libri" ++ stamped (libri_data a0 a1 a2) m /\
    (forall pre d post, stamped utenti_data k = pre ++ d :: post ->
       key_taken id_keys d (coll_docs (db w) "utenti" ++ pre) = false) /\
    (forall pre d post, stamped (libri_data a0 a1 a2) m = pre ++ d :: post ->
       key_taken id_keys d (coll_docs (db w) "libri" ++ pre) = false).
Proof.
  rewrite load_sample_data_unfold.
  set (w0 := say (Say "Caricamento dati di esempio...") w).
  assert (Hw0 : db w0 = db w) by reflexivity.
  destruct (insert_stage E "autori" autori_data w0) as [wA rA] eqn:HA.
  apply insert_stage_spec in HA as (HfA & HA); [| discriminate].
  destruct HA as [(e & ->) | (aids & -> & Haids & _ & _)].
  { intros [= <- <-]. left. apply added_same.
    rewrite HfA by discriminate. now rewrite Hw0. }
  rewrite autori_ids_from in Haids. subst aids.
  do 3 (erewrite bind_list_item by reflexivity).
  set (a0 := VOid (Oid (next_oid w0))).
  set (a1 := VOid (Oid (N.succ (next_oid w0)))).
  set (a2 := VOid (Oid (N.succ (N.succ (next_oid w0))))).
  destruct (insert_stage E "libri" (libri_data a0 a1 a2) wA) as [wL rL] eqn:HL.
  pose proof HL as HL'.
  apply insert_stage_spec in HL' as (HfL & HL'); [| discriminate].
  assert (HrL : exists x, rL = Done x)
    by (destruct HL' as [(e & ->) | (? & -> & _)]; eauto).
  destruct HrL as [x ->]. rewrite (bind_done _ _ _ _ _ HL).
  destruct HL' as [(e & [= ->]) | (lids & [= ->] & Hlids & HdL & HfreshL)].
  { intros [= <- <-]. left. apply added_same.
    rewrite HfL, HfA by discriminate. now rewrite Hw0. }
  rewrite libri_ids_from in Hlids. subst lids. set (m := next_oid wA) in *.
  destruct (insert_stage E "utenti" utenti_data wL) as [wU rU] eqn:HU.
  pose proof HU as HU'.
  apply insert_stage_spec in HU' as (HfU & HU'); [| discriminate].
  assert (HrU : exists x, rU = Done x)
    by (destruct HU' as [(e & ->) | (? & -> & _)]; eauto).
  destruct HrU as [y ->]. rewrite (bind_done _ _ _ _ _ HU).
  destruct HU' as [(e & [= ->]) | (uids & [= ->] & Huids & HdU & HfreshU)].
  { intros [= <- <-]. left. apply added_same.
    rewrite HfU, HfL, HfA by discriminate. now rewrite Hw0. }
  rewrite utenti_ids_from in Huids. subst uids. set (k := next_oid wL) in *.
  erewrite (bind_done (now E)) by reflexivity.
  cbv zeta.
  do 4 (erewrite bind_list_item by reflexivity).
  erewrite (bind_done (now E)) by reflexivity.
  erewrite (bind_done (now E)) by reflexivity.
  match goal with
  | |- try_except (bind (insert_many _ _ ?pd) _) _ ?wl = _ -> _ =>
      set (pdata := pd); set (wT := wl)
  end.
  assert (HwT : db wT = db wU) by reflexivity.
  assert (HuA : coll_docs (db wL) "utenti" = coll_docs (db w) "utenti").
  { apply coll_docs_same. rewrite HfL, HfA by discriminate. now rewrite Hw0. }
  assert (HlA : coll_docs (db wA) "libri" = coll_docs (db w) "libri").
  { apply coll_docs_same. rewrite HfA by discriminate. now rewrite Hw0. }
  assert (HpU : coll_docs (db wT) "prestiti" = coll_docs (db w) "prestiti").
  { apply coll_docs_same. rewrite HwT, HfU, HfL, HfA by discriminate. now rewrite Hw0. }
  rewrite HuA in HdU, HfreshU. rewrite HlA in HdL, HfreshL.
  unfold try_except, bind.
  destruct (insert_many E "prestiti" pdata wT) as [wP rP] eqn:HP.
  apply insert_many_spec in HP
    as (_ & _ & _ & _ & _ & HfP & _ & _ & done & rest & Hsplit & HdP & _ & HrP);
    [| discriminate].
  rewrite HpU in HdP.
  assert (Hfinal : forall w1, db w1 = db wP ->
            added w w1 "prestiti" = done /\
            coll_docs (db w1) "utenti" = coll_docs (db w) "utenti" ++ stamped utenti_data k /\
            coll_docs (db w1) "libri"
            = coll_docs (db w) "libri" ++ stamped (libri_data a0 a1 a2) m).
  { intros w1 Hw1. split; [apply added_app; now rewrite Hw1 |]. rewrite Hw1. split.
    - rewrite <- HdU. apply coll_docs_same. rewrite HfP by discriminate. now rewrite HwT.
    - rewrite <- HdL. apply coll_docs_same. rewrite HfP by discriminate.
      rewrite HwT. now apply HfU. }
  intros Hrun. right.
  exists m, k, (next_oid wT),
    (sub_days (wall_clock E (clock_reads wU)) 30),
    (wall_clock E (clock_reads (set_clock_reads (S (clock_reads wU)) wU))),
    (wall_clock E
       (clock_reads
          (set_clock_reads (S (clock_reads (set_clock_reads (S (clock_reads wU)) wU)))
             (set_clock_reads (S (clock_reads wU)) wU)))),
    done, rest, a0, a1, a2.
  split; [exact Hsplit |].
  assert (Hdb : db w' = db wP).
  { destruct rP as [ids|e|c]; [| | destruct HrP]; now injection Hrun as <- _. }
  destruct (Hfinal w' Hdb) as (H1 & H2 & H3).
  repeat split; assumption.
Qed.

(** The patrons and books batches as stored. *)
Lemma stamped_utenti_shape (k : N) :
  exists p0 p1 p2,
    stamped utenti_data k = [p0; p1; p2] /\
    (dict_get "_id" p0 = Some (VOid (Oid k)) /\
     dict_get "nome" p0 = Some (VStr "Mario") /\
     dict_get "cognome" p0 = Some (VStr "Rossi") /\
     dict_get "email" p0 = Some (VStr "mario.rossi@email.com")) /\
    (dict_get "_id" p1 = Some (VOid (Oid (N.succ k))) /\
     dict_get "nome" p1 = Some (VStr "Giulia") /\
     dict_get "cognome" p1 = Some (VStr "Bianchi") /\
     dict_get "email" p1 = Some (VStr "giulia.bianchi@email.com")).
Proof.
  eexists _, _, _. split; [reflexivity |]. repeat split.
Qed.

Lemma stamped_libri_shape (a0 a1 a2 : value) (m : N) :
  exists b0 b1 b2,
    stamped (libri_data a0 a1 a2) m = [b0; b1; b2] /\
    dict_get "_id" b0 = Some (VOid (Oid m)) /\
    dict_get "_id" b2 = Some (VOid (Oid (N.succ (N.succ m)))).
Proof.
  eexists _, _, _. split; [reflexivity |]. repeat split.
Qed.

Lemma doc_id_of (d : doc) (v : value) : dict_get "_id" d = Some v -> doc_id d = v.
Proof. unfold doc_id. now intros ->. Qed.

(** C10. Every loan [load_sample_data] adds refers, by [utente_id] and
    [libro_id], to a patron and a book added by the same run (the
    identifiers are those the patron and book inserts returned), these are
    the records the identifiers find in the store, and the loan's
    [utente_nome] and [utente_email] are that patron's first and last name
    joined by a space and that patron's e-mail address. *)
Theorem C10_loans_snapshot (E : env) (w : world) (loan : doc) :
  let w' := fst (load_sample_data E w) in
  In loan (added w w' "prestiti") ->
  exists p b,
    In p (added w w' "utenti") /\ In b (added w w' "libri") /\
    (exists o, dict_get "utente_id" loan = Some (VOid o) /\
               dict_get "_id" p = Some (VOid o) /\
               find_by_id (coll_docs (db w') "utenti") (VOid o) = Some p) /\
    (exists o, dict_get "libro_id" loan = Some (VOid o) /\
               dict_get "_id" b = Some (VOid o) /\
               find_by_id (coll_docs (db w') "libri") (VOid o) = Some b) /\
    snapshot_of loan p.
Proof.
  intros w'. subst w'.
  destruct (load_sample_data E w) as [w' r] eqn:Hrun. cbn [fst].
  apply seeding_outcome in Hrun
    as [Hnone | (m & k & q & base & t1 & t2 & done & rest & a0 & a1 & a2
                 & Hsplit & Hadd & HdU & HdL & HfU & HfL)].
  { rewrite Hnone. intros []. }
  rewrite Hadd, (added_app _ _ _ _ HdU), (added_app _ _ _ _ HdL), HdU, HdL.
  intros Hin.
  assert (Hin' : In loan (done ++ rest)) by (apply in_or_app; now left).
  rewrite <- Hsplit in Hin'.
  destruct (Forall2_In_r _ _ _ _ (stamped_fields _ q) Hin') as (d & Hd & Hfields).
  destruct (stamped_utenti_shape k)
    as (p0 & p1 & p2 & HsU & (Hp0 & Hn0 & Hc0 & He0) & (Hp1 & Hn1 & Hc1 & He1)).
  destruct (stamped_libri_shape a0 a1 a2 m) as (b0 & b1 & b2 & HsL & Hb0 & Hb2).
  rewrite HsU, HsL in *.
  destruct Hd as [<- | [<- | []]].
  - exists p0, b0. split; [now left |]. split; [now left |].
    split; [| split].
    + exists (Oid k). split; [now rewrite Hfields by discriminate |].
      split; [assumption |].
      apply find_fresh; [now apply doc_id_of |].
      specialize (HfU [] p0 [p1; p2] eq_refl). now rewrite app_nil_r in HfU.
    + exists (Oid m). split; [now rewrite Hfields by discriminate |].
      split; [assumption |].
      apply find_fresh; [now apply doc_id_of |].
      specialize (HfL [] b0 [b1; b2] eq_refl). now rewrite app_nil_r in HfL.
    + exists "Mario", "Rossi", "mario.rossi@email.com".
      rewrite !Hfields by discriminate. repeat split; assumption.
  - exists p1, b2. split; [right; now left |]. split; [right; right; now left |].
    split; [| split].
    + exists (Oid (N.succ k)). split; [now rewrite Hfields by discriminate |].
      split; [assumption |].
      change (coll_docs (db w) "utenti" ++ [p0; p1; p2])
        with (coll_docs (db w) "utenti" ++ [p0] ++ p1 :: [p2]).
      rewrite app_assoc.
      apply find_fresh; [now apply doc_id_of |].
      exact (HfU [p0] p1 [p2] eq_refl).
    + exists (Oid (N.succ (N.succ m))). split; [now rewrite Hfields by discriminate |].
      split; [assumption |].
      change (coll_docs (db w) "libri" ++ [b0; b1; b2])
        with (coll_docs (db w) "libri" ++ [b0; b1] ++ b2 :: []).
      rewrite app_assoc.
      apply find_fresh; [now apply doc_id_of |].
      exact (HfL [b0; b1] b2 [] eq_refl).
    + exists "Giulia", "Bianchi", "giulia.bianchi@email.com".
      rewrite !Hfields by discriminate. repeat split; assumption.
Qed.

Lemma C10_loans_snapshot_witness :
  In first_seed_loan (added initialized_world seeded_once "prestiti") /\
  exists p b,
    In p (added initialized_world seeded_once "utenti") /\
    In b (added initialized_world seeded_once "libri") /\
    (exists o, dict_get "utente_id" first_seed_loan = Some (VOid o) /\
               dict_get "_id" p = Some (VOid o) /\
               find_by_id (coll_docs (db seeded_once) "utenti") (VOid o) = Some p) /\
    (exists o, dict_get "libro_id" first_seed_loan = Some (VOid o) /\
               dict_get "_id" b = Some (VOid o) /\
               find_by_id (coll_docs (db seeded_once) "libri") (VOid o) = Some b) /\
    snapshot_of first_seed_loan p.
Proof.
  assert (Hin : In first_seed_loan (added initialized_world seeded_once "prestiti")).
  { vm_compute. left. reflexivity. }
  split; [exact Hin |].
  exact (C10_loans_snapshot (calm sample_clock) initialized_world first_seed_loan Hin).
Defined.

(* ===================================================================== *)
(** * Further properties: how the stages end and what they keep *)
(* ===================================================================== *)

Lemma caught_ret {A : Type} (a : A) : caught (ret a).
Proof. intros w. now exists w, a. Qed.

Lemma caught_print (m : msg) : caught (print m).
Proof. intros w. eexists _, _. reflexivity. Qed.

Lemma caught_bind {A B : Type} (m : M A) (k : A -> M B) :
  caught m -> (forall a, caught (k a)) -> caught (bind m k).
Proof.
  intros Hm Hk w. destruct (Hm w) as (w1 & a & Hw).
  destruct (Hk a w1) as (w2 & b & Hw2). exists w2, b.
  unfold bind. now rewrite Hw.
Qed.

Lemma caught_for_each {A : Type} (l : list A) (body : A -> M unit) :
  (forall x, caught (body x)) -> caught (for_each l body).
Proof.
  intros Hb. induction l as [|x l IH]; simpl.
  - apply caught_ret.
  - apply caught_bind; [apply Hb | intros _; exact IH].
Qed.

(** A [try] whose body cannot leave the process and whose handler ends
    normally ends normally. *)
Lemma caught_try_except {A : Type} (body : M A) (handler : exn -> M A) :
  safe body -> (forall e, caught (handler e)) -> caught (try_except body handler).
Proof.
  intros Hs Hh w. unfold try_except.
  destruct (body w) as [w1 [a|e|c]] eqn:Hb.
  - now exists w1, a.
  - apply Hh.
  - destruct (Hs _ _ _ Hb c eq_refl).
Qed.

Lemma safe_ret {A : Type} (a : A) : safe (ret a).
Proof. intros w w' r [= <- <-] c. discriminate. Qed.

Lemma safe_print (m : msg) : safe (print m).
Proof. intros w w' r [= <- <-] c. discriminate. Qed.

Lemma safe_bind {A B : Type} (m : M A) (k : A -> M B) :
  safe m -> (forall a, safe (k a)) -> safe (bind m k).
Proof.
  intros Hm Hk w w' r. unfold bind.
  destruct (m w) as [w1 [a|e|c]] eqn:Hw.
  - apply Hk.
  - intros [= <- <-] c. discriminate.
  - destruct (Hm _ _ _ Hw c eq_refl).
Qed.

Lemma safe_external {A : Type} (E : env) (cl : call) (body : M A) :
  safe body -> safe (external E cl body).
Proof.
  intros Hb w w' r. unfold external.
  destruct (fault E (length (trace w))).
  - intros [= <- <-] code. discriminate.
  - apply Hb.
Qed.

Lemma safe_caught {A : Type} (m : M A) : caught m -> safe m.
Proof.
  intros Hm w w' r Hw c ->. destruct (Hm w) as (w1 & a & Hw1). congruence.
Qed.

Lemma safe_lift {A : Type} (r : result A) : safe (lift r).
Proof. destruct r; intros w w' o [= <- <-] c; discriminate. Qed.

Lemma safe_create_collection (E : env) (name : string) (v : schema) :
  safe (create_collection E name v).
Proof.
  apply safe_external. intros w w' r. destruct (db w !! name);
    intros [= <- <-] code; discriminate.
Qed.

Lemma safe_create_index (E : env) (name : string) (ks : list (string * direction))
    (uniq : bool) :
  safe (create_index E name ks uniq).
Proof.
  intros w w' r. unfold create_index, external.
  destruct (fault E (length (trace w))).
  - intros [= <- <-] code. discriminate.
  - repeat match goal with |- context [if ?b then _ else _] => destruct b end;
      intros [= <- <-] code; discriminate.
Qed.

Lemma safe_insert_many (E : env) (name : string) (ds : list doc) :
  safe (insert_many E name ds).
Proof.
  intros w w' r H c ->. destruct ds as [|d ds]; [discriminate |].
  apply insert_many_spec in H as (_ & _ & _ & _ & _ & _ & _ & _ & ? & ? & _ & _ & _ & Hr);
    [assumption | discriminate].
Qed.

(** ** Relations kept by a computation *)

Lemma keeps_ret {A : Type} (R : world -> world -> Prop) (a : A) :
  (forall w, R w w) -> keeps R (ret a).
Proof. intros HR w w' r [= <- <-]. apply HR. Qed.

Lemma keeps_bind {A B : Type} (R : world -> world -> Prop) (m : M A) (k : A -> M B) :
  (forall a b c, R a b -> R b c -> R a c) ->
  keeps R m -> (forall a, keeps R (k a)) -> keeps R (bind m k).
Proof.
  intros Ht Hm Hk w w' r. unfold bind.
  destruct (m w) as [w1 [a|e|c]] eqn:Hw.
  - intros H. exact (Ht _ _ _ (Hm _ _ _ Hw) (Hk a _ _ _ H)).
  - intros [= <- <-]. exact (Hm _ _ _ Hw).
  - intros [= <- <-]. exact (Hm _ _ _ Hw).
Qed.

Lemma keeps_try_except {A : Type} (R : world -> world -> Prop) (body : M A)
    (handler : exn -> M A) :
  (forall a b c, R a b -> R b c -> R a c) ->
  keeps R body -> (forall e, keeps R (handler e)) -> keeps R (try_except body handler).
Proof.
  intros Ht Hb Hh w w' r. unfold try_except.
  destruct (body w) as [w1 [a|e|c]] eqn:Hw.
  - intros [= <- <-]. exact (Hb _ _ _ Hw).
  - intros H. exact (Ht _ _ _ (Hb _ _ _ Hw) (Hh e _ _ _ H)).
  - intros [= <- <-]. exact (Hb _ _ _ Hw).
Qed.

Lemma keeps_for_each {A : Type} (R : world -> world -> Prop) (l : list A)
    (body : A -> M unit) :
  (forall w, R w w) -> (forall a b c, R a b -> R b c -> R a c) ->
  (forall x, In x l -> keeps R (body x)) -> keeps R (for_each l body).
Proof.
  intros Hr Ht. induction l as [|x l IH]; intros Hb; simpl.
  - now apply keeps_ret.
  - apply keeps_bind; [exact Ht | apply Hb; now left |].
    intros _. apply IH. intros y Hy. apply Hb. now right.
Qed.

(** A computation that leaves the database alone keeps any relation that
    only looks at the database. *)
Lemma keeps_same_store {A : Type} (R : world -> world -> Prop) (m : M A) :
  (forall w w', db w' = db w -> R w w') -> keeps same_store m -> keeps R m.
Proof. intros HR Hm w w' r H. apply HR. exact (Hm _ _ _ H). Qed.

Lemma keeps_print (m : msg) : keeps same_store (print m).
Proof. intros w w' r [= <- <-]. reflexivity. Qed.

Lemma same_store_trans (a b c : world) : same_store a b -> same_store b c -> same_store a c.
Proof. unfold same_store. congruence. Qed.

Lemma existing_kept_trans (a b c : world) :
  existing_kept a b -> existing_kept b c -> existing_kept a c.
Proof. unfold existing_kept. eauto. Qed.

Lemma only_touches_trans (names : list string) (a b c : world) :
  only_touches names a b -> only_touches names b c -> only_touches names a c.
Proof. unfold only_touches. intros H1 H2 n Hn. now rewrite H2, H1. Qed.

(* ===================================================================== *)
(** * The SchemaInitializer *)
(* ===================================================================== *)

Lemma create_collections_loop (E : env) :
  create_collections E
  = (print (Say "Creazione collezioni...") ;; for_each collections (create_step E)).
Proof. reflexivity. Qed.

(** What one [create_collection] does to the database: nothing, or it adds
    the collection, which was not there, with its validator. *)
Lemma create_collection_effect (E : env) (name : string) (v : schema) (w w' : world)
    (r : outcome unit) :
  create_collection E name v w = (w', r) ->
  (db w' = db w /\ (faultless E -> exists c, db w !! name = Some c)) \/
  (db w !! name = None /\ db w' = <[name := Collection (Some v) [] []]> (db w)).
Proof.
  unfold create_collection, external. intros H.
  destruct (fault E (length (trace w))) eqn:Hf.
  - injection H as <- _. left. split; [reflexivity |].
    intros HE. rewrite HE in Hf. discriminate.
  - cbn [db set_trace] in H. destruct (db w !! name) as [c|] eqn:Hc.
    + injection H as <- _. left. split; [reflexivity | eauto].
    + injection H as <- _. right. split; reflexivity.
Qed.

Lemma create_step_effect (E : env) (name : string) (v : schema) (w w' : world)
    (r : outcome unit) :
  create_step E (name, v) w = (w', r) ->
  r = Done tt /\
  ((db w' = db w /\ (faultless E -> exists c, db w !! name = Some c)) \/
   (db w !! name = None /\ db w' = <[name := Collection (Some v) [] []]> (db w))).
Proof.
  unfold create_step, try_except, bind.
  destruct (create_collection E name v w) as [w1 [[]|e|c]] eqn:Hc.
  - intros [= <- <-]. split; [reflexivity |].
    apply create_collection_effect in Hc. exact Hc.
  - intros [= <- <-]. split; [reflexivity |].
    apply create_collection_effect in Hc. exact Hc.
  - destruct (safe_create_collection _ _ _ _ _ _ Hc c eq_refl).
Qed.

Lemma create_step_kept (E : env) (p : string * schema) :
  keeps existing_kept (create_step E p) /\
  keeps (only_touches [fst p]) (create_step E p) /\
  caught (create_step E p).
Proof.
  destruct p as [name v]. split; [| split].
  - intros w w' r H. apply create_step_effect in H as (_ & [[Hdb _] | [Hnone Hdb]]);
      intros n c Hn; rewrite Hdb; [assumption |].
    rewrite lookup_insert_ne; [assumption | congruence].
  - intros w w' r H. apply create_step_effect in H as (_ & [[Hdb _] | [Hnone Hdb]]);
      intros n Hn; rewrite Hdb; [reflexivity |].
    apply lookup_insert_ne. simpl in Hn. tauto.
  - intros w. destruct (create_step E (name, v) w) as [w' r] eqn:H.
    pose proof H as H'. apply create_step_effect in H' as (-> & _). eauto.
Qed.

(** X1. The SchemaInitializer never raises and never alters a collection
    that exists: such a collection keeps its validator (or its lack of one),
    its indexes and its documents.  Nothing but the four collections of the
    script is touched. *)
Theorem create_collections_keeps_existing (E : env) (w : world) :
  let w' := fst (create_collections E w) in
  snd (create_collections E w) = Done tt /\
  existing_kept w w' /\
  only_touches ["autori"; "libri"; "utenti"; "prestiti"] w w'.
Proof.
  rewrite create_collections_loop.
  assert (Hc : caught (print (Say "Creazione collezioni...") ;;
                       for_each collections (create_step E))).
  { apply caught_bind; [apply caught_print |]. intros _.
    apply caught_for_each. intros p. apply create_step_kept. }
  destruct (Hc w) as (w' & [] & Hrun). rewrite Hrun. cbn [fst snd].
  split; [reflexivity |]. split.
  - revert Hrun. apply keeps_bind.
    + apply existing_kept_trans.
    + apply keeps_same_store; [| apply keeps_print].
      intros a b Hab n c. now rewrite Hab.
    + intros _. apply keeps_for_each.
      * intros a n c. auto.
      * apply existing_kept_trans.
      * intros p _. apply create_step_kept.
  - revert Hrun. apply keeps_bind.
    + apply only_touches_trans.
    + apply keeps_same_store; [| apply keeps_print].
      intros a b Hab n _. now rewrite Hab.
    + intros _. apply keeps_for_each.
      * intros a n _. reflexivity.
      * apply only_touches_trans.
      * intros p Hp. destruct (create_step_kept E p) as (_ & Hk & _).
        intros a b r Hr n Hn. apply (Hk a b r Hr).
        intros [<-|[]]. apply Hn.
        unfold collections in Hp. simpl in Hp.
        destruct Hp as [<-|[<-|[<-|[<-|[]]]]]; simpl; tauto.
Qed.

Lemma create_loop_faultless (E : env) (l : list (string * schema)) :
  faultless E -> NoDup (map fst l) ->
  forall w,
    let w' := fst (for_each l (create_step E) w) in
    (forall name v, In (name, v) l -> db w' !! name = created v (db w !! name)) /\
    (forall name, ~ In name (map fst l) -> db w' !! name = db w !! name).
Proof.
  intros HE. induction l as [|[n v] l IH]; intros Hnd w; cbn [for_each].
  - split; [intros ? ? [] | reflexivity].
  - apply NoDup_cons in Hnd as [Hn Hnd]. specialize (IH Hnd).
    unfold bind. destruct (create_step E (n, v) w) as [w1 r1] eqn:H1.
    apply create_step_effect in H1 as (-> & Heff).
    specialize (IH w1). cbv zeta in IH. destruct IH as [IHin IHout].
    assert (Hhere : db w1 !! n = created v (db w !! n)).
    { destruct Heff as [[Hdb Hex] | [Hnone Hdb]]; rewrite Hdb.
      - destruct (Hex HE) as [c ->]. reflexivity.
      - rewrite Hnone. apply lookup_insert_eq. }
    assert (Hother : forall n', n' <> n -> db w1 !! n' = db w !! n').
    { intros n' Hne. destruct Heff as [[Hdb _] | [_ Hdb]]; rewrite Hdb;
        [reflexivity | apply lookup_insert_ne; congruence]. }
    split.
    + intros name v' [[= <- <-] | Hin].
      * rewrite IHout; [exact Hhere |].
        intros Hin. apply Hn. now apply list_elem_of_In.
      * rewrite (IHin _ _ Hin), Hother; [reflexivity |].
        intros ->. apply Hn. apply list_elem_of_In, in_map_iff. now exists (n, v').
    + intros name Hout. cbn [map fst] in Hout.
      rewrite IHout by (intros HH; apply Hout; now right).
      apply Hother. intros ->. apply Hout. now left.
Qed.

(** X2. When no external call fails, the SchemaInitializer creates exactly
    the collections that are missing, empty and with their validators, and
    leaves the others as they were. *)
Theorem create_collections_creates_missing (E : env) (w : world) (name : string)
    (v : schema) :
  faultless E -> In (name, v) collections ->
  db (fst (create_collections E w)) !! name = created v (db w !! name).
Proof.
  intros HE Hin. rewrite create_collections_loop. unfold bind at 1.
  cbn [print].
  assert (Hnd : NoDup (map fst collections)).
  { apply (bool_decide_unpack _). vm_compute. exact I. }
  destruct (create_loop_faultless E collections HE Hnd
              (set_console (fun c => c ++ [Say "Creazione collezioni..."]) w))
    as [H _].
  exact (H name v Hin).
Qed.

Lemma create_collections_creates_missing_witness :
  db (fst (create_collections (calm sample_clock) fresh_world)) !! "libri"
  = created libri_validator (db fresh_world !! "libri").
Proof.
  apply create_collections_creates_missing.
  - intros n. reflexivity.
  - right. left. reflexivity.
Defined.

(* ===================================================================== *)
(** * The IndexBuilder, as a whole *)
(* ===================================================================== *)

Lemma data_kept_refl (w : world) : data_kept w w.
Proof. intros n. split; [reflexivity |]. split; reflexivity. Qed.

Lemma data_kept_trans (a b c : world) : data_kept a b -> data_kept b c -> data_kept a c.
Proof.
  intros H1 H2 n. destruct (H1 n) as (Hd1 & Hv1 & Hi1), (H2 n) as (Hd2 & Hv2 & Hi2).
  split; [congruence |]. split; [congruence |]. now transitivity (coll_indexes (db b) n).
Qed.

Lemma data_kept_same (w w' : world) : db w' = db w -> data_kept w w'.
Proof. intros H n. rewrite H. split; [reflexivity |]. split; reflexivity. Qed.

Lemma has_index_kept (w w' : world) (name : string) (ix : index) :
  data_kept w w' -> has_index (db w) name ix -> has_index (db w') name ix.
Proof.
  intros Hk. unfold has_index. destruct (Hk name) as (_ & _ & [k ->]).
  rewrite existsb_app. now intros ->.
Qed.

Lemma same_index_refl (ix : index) : same_index ix ix = true.
Proof.
  unfold same_index. destruct ix as [ks u]. simpl.
  rewrite eqb_reflx, andb_true_r.
  induction ks as [|[k d] ks IH]; [reflexivity |]. simpl.
  rewrite String.eqb_refl, IH. now destruct d.
Qed.

Lemma coll_insert_eq (store : gmap string collection) (name : string) (c : collection) :
  coll_docs (<[name := c]> store) name = documents c /\
  coll_validator (<[name := c]> store) name = validator c /\
  coll_indexes (<[name := c]> store) name = indexes c.
Proof.
  unfold coll_docs, coll_validator, coll_indexes. rewrite lookup_insert_eq.
  repeat split.
Qed.

Lemma coll_insert_ne (store : gmap string collection) (name n : string) (c : collection) :
  n <> name ->
  coll_docs (<[name := c]> store) n = coll_docs store n /\
  coll_validator (<[name := c]> store) n = coll_validator store n /\
  coll_indexes (<[name := c]> store) n = coll_indexes store n.
Proof.
  intros Hne. unfold coll_docs, coll_validator, coll_indexes.
  rewrite lookup_insert_ne by congruence. repeat split.
Qed.

Lemma index_added (w w' : world) (name : string) (ix : index) :
  db w' = <[name := Collection (coll_validator (db w) name)
                               (coll_indexes (db w) name ++ [ix])
                               (coll_docs (db w) name)]> (db w) ->
  data_kept w w' /\ has_index (db w') name ix.
Proof.
  intros Hdb. split.
  - intros n. rewrite Hdb. destruct (decide (n = name)) as [->|Hne].
    + destruct (coll_insert_eq (db w) name
                  (Collection (coll_validator (db w) name)
                     (coll_indexes (db w) name ++ [ix]) (coll_docs (db w) name)))
        as (-> & -> & ->).
      cbn [documents validator indexes].
      split; [reflexivity |]. split; [reflexivity |].
      now exists [ix].
    + destruct (coll_insert_ne (db w) name n
                  (Collection (coll_validator (db w) name)
                     (coll_indexes (db w) name ++ [ix]) (coll_docs (db w) name)) Hne)
        as (-> & -> & ->).
      split; [reflexivity |]. split; reflexivity.
  - unfold has_index. rewrite Hdb.
    destruct (coll_insert_eq (db w) name
                (Collection (coll_validator (db w) name)
                   (coll_indexes (db w) name ++ [ix]) (coll_docs (db w) name)))
        as (_ & _ & ->).
    cbn [indexes].
    rewrite existsb_app. cbn [existsb]. rewrite same_index_refl.
    now rewrite orb_true_r.
Qed.

(** One index declaration: the data stay; on success the index is in
    place; where it was in place already, nothing changes. *)
Lemma create_index_effect (E : env) (name : string) (ks : list (string * direction))
    (uniq : bool) (w w' : world) (r : outcome unit) :
  create_index E name ks uniq w = (w', r) ->
  data_kept w w' /\
  (r = Done tt -> has_index (db w') name (Index ks uniq)) /\
  (has_index (db w) name (Index ks uniq) -> db w' = db w).
Proof.
  unfold create_index, external, has_index.
  destruct (default_collection_fields (db w) name) as (Hv & Hi & Hd).
  destruct (fault E (length (trace w))).
  { intros H; injection H as <- <-. split; [now apply data_kept_same |]. split; [discriminate | reflexivity]. }
  cbn [db set_trace]. rewrite Hi.
  destruct (existsb (same_index (Index ks uniq)) (coll_indexes (db w) name)) eqn:Hex.
  { intros [= <- <-]. split; [now apply data_kept_same |]. split; [| reflexivity].
    intros _. exact Hex. }
  destruct (existsb (fun ix' => keys_eqb (keys ix') ks) _).
  { intros [= <- <-]. split; [now apply data_kept_same |]. split; discriminate. }
  destruct (uniq && _).
  { intros [= <- <-]. split; [now apply data_kept_same |]. split; discriminate. }
  rewrite Hv, Hd. intros [= <- <-].
  match goal with |- data_kept _ ?x /\ _ =>
    destruct (index_added w x name (Index ks uniq) eq_refl) as [Hk Hh] end.
  split; [exact Hk |]. split; [intros _; exact Hh | discriminate].
Qed.

Lemma builds_create_index (E : env) (name : string) (ks : list (string * direction))
    (uniq : bool) :
  builds (create_index E name ks uniq) [(name, Index ks uniq)].
Proof.
  split.
  - intros w w' r H. now apply create_index_effect in H.
  - intros w w' [] H p [<-|[]]. apply create_index_effect in H as (_ & H & _). now apply H.
Qed.

Lemma builds_print (m : msg) : builds (print m) [].
Proof.
  split.
  - intros w w' r [= <- <-]. now apply data_kept_same.
  - intros w w' a _ p [].
Qed.

Lemma builds_bind {A B : Type} (m : M A) (k : A -> M B) (a b : list (string * index)) :
  builds m a -> (forall x, builds (k x) b) -> builds (bind m k) (a ++ b).
Proof.
  intros [Hmk Hmd] Hk. split.
  - apply keeps_bind; [apply data_kept_trans | exact Hmk | intros x; apply Hk].
  - intros w w' y. unfold bind. destruct (m w) as [w1 [x|e|c]] eqn:Hw; try discriminate.
    intros Hkx p Hp. apply in_app_or in Hp as [Hp|Hp].
    + apply (has_index_kept w1); [| exact (Hmd _ _ _ Hw p Hp)].
      destruct (Hk x) as [Hkk _]. exact (Hkk _ _ _ Hkx).
    + destruct (Hk x) as [_ Hkd]. exact (Hkd _ _ _ Hkx p Hp).
Qed.

Lemma fixed_create_index (E : env) (p : string * index) :
  In p index_plan ->
  keeps fixed_when_planned (create_index E (fst p) (keys (snd p)) (unique (snd p))).
Proof.
  intros Hp w w' r H Hplan. apply create_index_effect in H as (_ & _ & H).
  apply H. specialize (Hplan p Hp). now destruct p as [n [ks u]].
Qed.

Lemma fixed_when_planned_trans (a b c : world) :
  fixed_when_planned a b -> fixed_when_planned b c -> fixed_when_planned a c.
Proof.
  unfold fixed_when_planned. intros H1 H2 Hp.
  rewrite H2, H1; auto. now rewrite H1.
Qed.

Lemma ends_with_print (x : msg) : ends_with x (print x).
Proof. intros w w' a [= <- _]. apply last_snoc. Qed.

Lemma ends_with_bind {A B : Type} (x : msg) (m : M A) (k : A -> M B) :
  (forall y, ends_with x (k y)) -> ends_with x (bind m k).
Proof.
  intros Hk w w' b. unfold bind. destruct (m w) as [w1 [y|e|c]]; try discriminate.
  apply Hk.
Qed.

(** The body of the [try] of [create_indexes]. *)
Lemma create_indexes_body (E : env) :
  exists body : M unit,
    create_indexes E
    = (print (Say "Creazione indici...") ;;
       try_except body (fun e => print (IndexesFailed e))) /\
    steps body plan_calls /\ builds body index_plan /\
    keeps fixed_when_planned body /\ safe body /\
    ends_with (IndexesCreated "prestiti") body.
Proof.
  eexists. split; [reflexivity |]. split; [| split; [| split; [| split]]].
  - change plan_calls with
      ([CCreateIndex "autori" (Index [("nome", ASCENDING); ("cognome", ASCENDING)] false)] ++
       [CCreateIndex "autori" (Index [("cognome", ASCENDING)] false)] ++ [] ++
       [CCreateIndex "libri" (Index [("autore_id", ASCENDING)] false)] ++
       [CCreateIndex "libri" (Index [("isbn", ASCENDING)] true)] ++
       [CCreateIndex "libri" (Index [("titolo", ASCENDING)] false)] ++
       [CCreateIndex "libri" (Index [("genere", ASCENDING)] false)] ++ [] ++
       [CCreateIndex "utenti" (Index [("email", ASCENDING)] true)] ++
       [CCreateIndex "utenti" (Index [("codice_fiscale", ASCENDING)] true)] ++
       [CCreateIndex "utenti" (Index [("cognome", ASCENDING)] false)] ++ [] ++
       [CCreateIndex "prestiti" (Index [("utente_id", ASCENDING)] false)] ++
       [CCreateIndex "prestiti" (Index [("libro_id", ASCENDING)] false)] ++
       [CCreateIndex "prestiti" (Index [("data_prestito", DESCENDING)] false)] ++
       [CCreateIndex "prestiti" (Index [("data_scadenza", ASCENDING)] false)] ++
       [CCreateIndex "prestiti" (Index [("stato", ASCENDING)] false)] ++ []).
    repeat (apply steps_bind;
            [ first [apply steps_create_index | apply steps_print] | intros _ ]).
    apply steps_print.
  - change index_plan with
      ([("autori", Index [("nome", ASCENDING); ("cognome", ASCENDING)] false)] ++
       [("autori", Index [("cognome", ASCENDING)] false)] ++ [] ++
       [("libri", Index [("autore_id", ASCENDING)] false)] ++
       [("libri", Index [("isbn", ASCENDING)] true)] ++
       [("libri", Index [("titolo", ASCENDING)] false)] ++
       [("libri", Index [("genere", ASCENDING)] false)] ++ [] ++
       [("utenti", Index [("email", ASCENDING)] true)] ++
       [("utenti", Index [("codice_fiscale", ASCENDING)] true)] ++
       [("utenti", Index [("cognome", ASCENDING)] false)] ++ [] ++
       [("prestiti", Index [("utente_id", ASCENDING)] false)] ++
       [("prestiti", Index [("libro_id", ASCENDING)] false)] ++
       [("prestiti", Index [("data_prestito", DESCENDING)] false)] ++
       [("prestiti", Index [("data_scadenza", ASCENDING)] false)] ++
       [("prestiti", Index [("stato", ASCENDING)] false)] ++ []).
    repeat (apply builds_bind;
            [ first [apply builds_create_index | apply builds_print] | intros _ ]).
    apply builds_print.
  - repeat (apply keeps_bind;
            [ apply fixed_when_planned_trans
            | first [ apply (fixed_create_index E (_, Index _ _)); simpl; tauto
                    | apply keeps_same_store; [| apply keeps_print];
                      intros a b Hab _; exact Hab ]
            | intros _ ]).
    apply keeps_same_store; [| apply keeps_print]. intros a b Hab _. exact Hab.
  - repeat (apply safe_bind;
            [ first [apply safe_create_index | apply safe_print] | intros _ ]).
    apply safe_print.
  - repeat (apply ends_with_bind; intros _). apply ends_with_print.
Qed.

(** What a run of [create_indexes] comes to, by the outcome of its body. *)
Lemma create_indexes_run (E : env) (w : world) :
  exists (body : M unit) (w1 : world) (r : outcome unit),
    steps body plan_calls /\ builds body index_plan /\
    keeps fixed_when_planned body /\
    ends_with (IndexesCreated "prestiti") body /\
    body (say (Say "Creazione indici...") w) = (w1, r) /\
    ((r = Done tt /\ create_indexes E w = (w1, Done tt)) \/
     (exists e, r = Failed e /\
                create_indexes E w = (say (IndexesFailed e) w1, Done tt))).
Proof.
  destruct (create_indexes_body E) as (body & Heq & Hs & Hb & Hf & Hsafe & He).
  destruct (body (say (Say "Creazione indici...") w)) as [w1 r] eqn:Hrun.
  exists body, w1, r. repeat (split; [assumption |]).
  rewrite Heq. unfold bind, try_except. cbn [print].
  change (set_console (fun c => c ++ [Say "Creazione indici..."]) w)
    with (say (Say "Creazione indici...") w).
  rewrite Hrun. destruct r as [[]|e|c].
  - left. now split.
  - right. exists e. now split.
  - exfalso. exact (Hsafe _ _ _ Hrun c eq_refl).
Qed.

(** X3. [create_indexes] never raises, whatever the environment and the
    store: every failure of an index declaration is caught and reported.
    It leaves the documents and the validator of every collection as they
    were, and only ever appends to the indexes of a collection. *)
Theorem create_indexes_keeps_data (E : env) (w : world) :
  snd (create_indexes E w) = Done tt /\
  data_kept w (fst (create_indexes E w)).
Proof.
  destruct (create_indexes_run E w)
    as (body & w1 & r & _ & [Hk _] & _ & _ & Hrun & [[-> ->]|(e & -> & ->)]);
    (split; [reflexivity |]); cbn [fst]; apply Hk in Hrun.
  - intros n. apply (Hrun n).
  - intros n. apply (Hrun n).
Qed.

(** X4. [create_indexes] declares the fourteen indexes of the source in
    source order.  Either it made exactly these calls, the last line
    printed is the confirmation for [prestiti] and every index of the plan
    is in place; or one declaration failed, the calls made are a beginning
    of the plan (nothing is declared after the failure) and the last line
    printed reports the failure. *)
Theorem create_indexes_follows_plan (E : env) (w : world) :
  let w' := fst (create_indexes E w) in
  (new_calls w w' = plan_calls /\
   last (console w') = Some (IndexesCreated "prestiti") /\
   plan_in_place (db w')) \/
  (exists e, last (console w') = Some (IndexesFailed e) /\
             new_calls w w' `prefix_of` plan_calls).
Proof.
  destruct (create_indexes_run E w)
    as (body & w1 & r & Hs & [_ Hb] & _ & He & Hrun & [[-> Heq]|(e & -> & Heq)]);
    cbn zeta; rewrite Heq; cbn [fst];
    destruct (Hs _ _ _ Hrun) as (t & Ht & Hp);
    change (trace (say (Say "Creazione indici...") w)) with (trace w) in Ht.
  - left. subst t. split; [| split].
    + unfold new_calls. rewrite Ht. apply drop_app_length.
    + exact (He _ _ _ Hrun).
    + exact (Hb _ _ _ Hrun).
  - right. exists e. split.
    + apply last_snoc.
    + unfold new_calls. change (trace (say (IndexesFailed e) w1)) with (trace w1).
      rewrite Ht, drop_app_length. exact Hp.
Qed.

(** X5. Once every index of the plan is in place, [create_indexes] leaves
    the store as it is, whatever the environment: declaring again an index
    that exists as requested is a no-op. *)
Theorem create_indexes_idempotent (E : env) (w : world) :
  plan_in_place (db w) -> db (fst (create_indexes E w)) = db w.
Proof.
  intros Hp.
  destruct (create_indexes_run E w)
    as (body & w1 & r & _ & _ & Hf & _ & Hrun & [[-> ->]|(e & -> & ->)]);
    cbn [fst]; apply Hf in Hrun; apply Hrun in Hp; exact Hp.
Qed.

Lemma create_indexes_idempotent_witness :
  db (fst (create_indexes (calm sample_clock) (seeded_world sample_clock)))
  = db (seeded_world sample_clock).
Proof.
  apply create_indexes_idempotent.
  intros p Hp. unfold index_plan in Hp. cbn [In] in Hp.
  repeat (destruct Hp as [<-|Hp]; [vm_compute; reflexivity |]).
  destruct Hp.
Defined.

(* ===================================================================== *)
(** * A frame rule for the stages *)
(* ===================================================================== *)

(** A relation between the world before and after that every external call
    and every line printed respects is respected by every stage. *)
Section Frame.

Variable E : env.
Variable R : world -> world -> Prop.

Hypothesis R_refl : forall w, R w w.
Hypothesis R_trans : forall a b c, R a b -> R b c -> R a c.
Hypothesis R_print : forall m, keeps R (print m).
Hypothesis R_now : keeps R (now E).
Hypothesis R_drop : keeps R (client_drop_database E).
Hypothesis R_create_collection : forall name v, keeps R (create_collection E name v).
Hypothesis R_create_index : forall name ks uniq, keeps R (create_index E name ks uniq).
Hypothesis R_insert_many : forall name ds, keeps R (insert_many E name ds).
Hypothesis R_count_documents : forall name, keeps R (count_documents E name).
Hypothesis R_aggregate : forall name p, keeps R (aggregate E name p).
Hypothesis R_find : forall name, keeps R (find E name).
Hypothesis R_makedirs : forall path, keeps R (makedirs E path).
Hypothesis R_write_json : forall dir name content, keeps R (write_json E dir name content).

Lemma frame_raise {A : Type} (e : exn) : keeps R (@raise A e).
Proof. intros w w' r [= <- _]. apply R_refl. Qed.

Lemma frame_list_item {A : Type} (l : list A) (i : nat) : keeps R (list_item l i).
Proof.
  unfold list_item. destruct (l !! i); [now apply keeps_ret | apply frame_raise].
Qed.

Lemma frame_dict_item (d : doc) (k : string) : keeps R (dict_item d k).
Proof.
  unfold dict_item. destruct (dict_get k d); [now apply keeps_ret | apply frame_raise].
Qed.

Ltac frame :=
  repeat first
    [ apply R_print | apply R_now | apply R_drop | apply R_create_collection
    | apply R_create_index | apply R_insert_many | apply R_count_documents
    | apply R_aggregate | apply R_find | apply R_makedirs | apply R_write_json
    | apply frame_list_item | apply frame_dict_item
    | apply keeps_ret; exact R_refl
    | apply keeps_bind; [exact R_trans | | intros ?]
    | apply keeps_try_except; [exact R_trans | | intros ?]
    | apply keeps_for_each; [exact R_refl | exact R_trans | intros ? _]
    | match goal with
      | |- keeps _ (match ?x with _ => _ end) => destruct x
      | |- keeps _ (let '(_, _) := ?x in _) => destruct x
      end ].

Lemma frame_drop_database : keeps R (drop_database E).
Proof. unfold drop_database. frame. Qed.

Lemma frame_create_collections : keeps R (create_collections E).
Proof. unfold create_collections. frame. Qed.

Lemma frame_create_indexes : keeps R (create_indexes E).
Proof. unfold create_indexes. frame. Qed.

Lemma frame_insert_stage (name : string) (data : list doc) :
  keeps R (insert_stage E name data).
Proof. unfold insert_stage, attempt. frame. Qed.

Lemma frame_load_sample_data : keeps R (load_sample_data E).
Proof.
  unfold load_sample_data.
  repeat first [ apply frame_insert_stage | progress frame ].
Qed.

Lemma frame_validate_setup : keeps R (validate_setup E).
Proof. unfold validate_setup. frame. Qed.

Lemma frame_export_collection (name : string) : keeps R (export_collection E name).
Proof. unfold export_collection. frame. Qed.

Lemma frame_export_sample_json : keeps R (export_sample_json E).
Proof.
  unfold export_sample_json.
  repeat first [ apply frame_export_collection | progress frame ].
Qed.

Lemma frame_run_complete_setup (reset : bool) : keeps R (run_complete_setup E reset).
Proof.
  unfold run_complete_setup.
  repeat first
    [ apply frame_drop_database | apply frame_create_collections
    | apply frame_create_indexes | apply frame_load_sample_data
    | apply frame_validate_setup | apply frame_export_sample_json
    | progress frame ].
Qed.

End Frame.

(* ===================================================================== *)
(** * The SeedLoader, as a whole *)
(* ===================================================================== *)

Lemma keeps_external {A : Type} (E : env) (R : world -> world -> Prop) (cl : call)
    (body : M A) :
  (forall a b c, R a b -> R b c -> R a c) ->
  (forall w, R w (set_trace (fun t => t ++ [cl]) w)) ->
  keeps R body -> keeps R (external E cl body).
Proof.
  intros Ht Hc Hb w w' r. unfold external.
  destruct (fault E (length (trace w))).
  - intros [= <- _]. apply Hc.
  - intros H. apply (Ht _ _ _ (Hc w)). exact (Hb _ _ _ H).
Qed.

Lemma keeps_now (E : env) (R : world -> world -> Prop) :
  (forall w n, R w (set_clock_reads n w)) -> keeps R (now E).
Proof. intros H w w' r [= <- _]. apply H. Qed.

Lemma only_appends_refl (w : world) : only_appends w w.
Proof. intros n. split; [reflexivity |]. split; reflexivity. Qed.

Lemma only_appends_trans (a b c : world) :
  only_appends a b -> only_appends b c -> only_appends a c.
Proof.
  intros H1 H2 n. destruct (H1 n) as (Hd1 & Hv1 & Hi1), (H2 n) as (Hd2 & Hv2 & Hi2).
  split; [now transitivity (coll_docs (db b) n) |]. split; congruence.
Qed.

Lemma only_appends_same (w w' : world) : db w' = db w -> only_appends w w'.
Proof. intros H n. rewrite H. split; [reflexivity |]. split; reflexivity. Qed.

Lemma only_appends_insert_many (E : env) (name : string) (ds : list doc) :
  keeps only_appends (insert_many E name ds).
Proof.
  intros w w' r H. destruct ds as [|d ds].
  { injection H as <- _. apply only_appends_refl. }
  apply insert_many_spec in H
    as (_ & _ & _ & _ & _ & Hother & Hv & Hi & done & rest & _ & Hdocs & _);
    [| discriminate].
  intros n. destruct (String.eqb_spec n name) as [->|Hne].
  - rewrite Hdocs, Hv, Hi. split; [now exists done |]. split; reflexivity.
  - specialize (Hother n Hne).
    unfold coll_docs, coll_validator, coll_indexes. rewrite Hother.
    split; [reflexivity |]. split; reflexivity.
Qed.

Lemma only_appends_load (E : env) : keeps only_appends (load_sample_data E).
Proof.
  apply frame_load_sample_data.
  - exact only_appends_refl.
  - exact only_appends_trans.
  - intros m. apply keeps_same_store; [exact only_appends_same | apply keeps_print].
  - apply keeps_now. intros w n. now apply only_appends_same.
  - apply only_appends_insert_many.
Qed.

(** ** The SeedLoader always returns *)

Lemma caught_returns {A B : Type} (P : A -> Prop) (m : M A) (k : A -> M B) :
  returns P m -> (forall a, P a -> caught (k a)) -> caught (bind m k).
Proof.
  intros Hm Hk w. destruct (Hm w) as (w1 & a & Hw & Ha).
  unfold bind. rewrite Hw. apply (Hk a Ha).
Qed.

Lemma caught_list_item {A : Type} (l : list A) (i : nat) :
  (i < length l)%nat -> caught (list_item l i).
Proof.
  intros Hi w. unfold list_item.
  destruct (lookup_lt_is_Some_2 l i Hi) as [x ->]. now exists w, x.
Qed.

Lemma caught_now (E : env) : caught (now E).
Proof. intros w. eexists _, _. reflexivity. Qed.

Lemma returns_insert_stage (E : env) (name : string) (data : list doc) :
  data <> [] ->
  returns (fun r => match r with
                    | inl ids => length ids = length data
                    | inr _ => True
                    end) (insert_stage E name data).
Proof.
  intros Hne w. destruct (insert_stage E name data w) as [w' r] eqn:H.
  apply insert_stage_spec in H as (_ & [(e & ->)|(ids & -> & -> & _)]); [| | assumption].
  - now exists w', (inr e).
  - eexists w', (inl _). split; [reflexivity |].
    rewrite length_map. rewrite <- (stamped_length data (next_oid w)).
    unfold stamped. now rewrite length_map.
Qed.

Lemma caught_load (E : env) : caught (load_sample_data E).
Proof.
  unfold load_sample_data.
  apply caught_bind; [apply caught_print | intros _].
  apply (caught_returns _ _ _ (returns_insert_stage E "autori" autori_data ltac:(discriminate))).
  intros [aids|e] Ha; [| apply caught_ret]. cbn [length autori_data] in Ha.
  do 3 (apply caught_bind; [apply caught_list_item; lia | intros ?]).
  eapply caught_returns; [apply returns_insert_stage; discriminate |].
  intros [lids|e] Hl; [| apply caught_ret]. cbn [length libri_data] in Hl.
  apply (caught_returns _ _ _ (returns_insert_stage E "utenti" utenti_data ltac:(discriminate))).
  intros [uids|e] Hu; [| apply caught_ret]. cbn [length utenti_data] in Hu.
  apply caught_bind; [apply caught_now | intros ?]. cbv zeta.
  do 4 (apply caught_bind; [apply caught_list_item; lia | intros ?]).
  do 2 (apply caught_bind; [apply caught_now | intros ?]).
  apply caught_try_except; [| intros e; apply caught_print].
  apply safe_bind; [apply safe_insert_many | intros ?; apply safe_print].
Qed.

(** X6. [load_sample_data] never raises, whatever the environment and the
    store: every failure of a batch insert is caught and reported, and no
    list of inserted identifiers is indexed out of range.  It only adds
    documents: in every collection the documents that were there stay, in
    their order, before the new ones, and no validator or index changes. *)
Theorem load_sample_data_only_appends (E : env) (w : world) :
  snd (load_sample_data E w) = Done tt /\
  only_appends w (fst (load_sample_data E w)).
Proof.
  split.
  - destruct (caught_load E w) as (w' & [] & ->). reflexivity.
  - destruct (load_sample_data E w) as [w' r] eqn:H.
    exact (only_appends_load E _ _ _ H).
Qed.

(** ** The record of calls only grows *)

Lemma trace_grows_refl (w : world) : trace_grows w w.
Proof. unfold trace_grows. reflexivity. Qed.

Lemma trace_grows_trans (a b c : world) :
  trace_grows a b -> trace_grows b c -> trace_grows a c.
Proof. unfold trace_grows. intros H1 H2. now transitivity (trace b). Qed.

Lemma trace_grows_same (w w' : world) : trace w' = trace w -> trace_grows w w'.
Proof. unfold trace_grows. now intros ->. Qed.

Lemma trace_grows_print (m : msg) : keeps trace_grows (print m).
Proof. intros w w' r [= <- _]. now apply trace_grows_same. Qed.

Lemma trace_grows_external {A : Type} (E : env) (cl : call) (body : M A) :
  (forall w w' r, body w = (w', r) -> trace w' = trace w) ->
  keeps trace_grows (external E cl body).
Proof.
  intros Hb. apply keeps_external; [exact trace_grows_trans | |].
  - intros w. unfold trace_grows. cbn [trace set_trace]. now exists [cl].
  - intros w w' r H. apply trace_grows_same. exact (Hb _ _ _ H).
Qed.

Lemma trace_grows_now (E : env) : keeps trace_grows (now E).
Proof. apply keeps_now. intros w n. now apply trace_grows_same. Qed.

Lemma trace_grows_drop (E : env) : keeps trace_grows (client_drop_database E).
Proof. apply trace_grows_external. now intros w w' r [= <- _]. Qed.

Lemma trace_grows_create_collection (E : env) (name : string) (v : schema) :
  keeps trace_grows (create_collection E name v).
Proof.
  apply trace_grows_external. intros w w' r.
  destruct (db w !! name); now intros [= <- _].
Qed.

Lemma trace_grows_create_index (E : env) (name : string) (ks : list (string * direction))
    (uniq : bool) :
  keeps trace_grows (create_index E name ks uniq).
Proof.
  apply trace_grows_external. intros w w' r. cbv beta zeta.
  repeat match goal with |- context [if ?c then _ else _] => destruct c end;
    now intros [= <- _].
Qed.

Lemma trace_grows_insert_many (E : env) (name : string) (ds : list doc) :
  keeps trace_grows (insert_many E name ds).
Proof.
  intros w w' r H. destruct ds as [|d ds].
  { injection H as <- _. apply trace_grows_refl. }
  apply insert_many_spec in H as (Ht & _); [| discriminate].
  unfold trace_grows. rewrite Ht. now eexists.
Qed.

Lemma trace_grows_count_documents (E : env) (name : string) :
  keeps trace_grows (count_documents E name).
Proof. apply trace_grows_external. now intros w w' r [= <- _]. Qed.

Lemma trace_grows_aggregate (E : env) (name : string) (p : list stage) :
  keeps trace_grows (aggregate E name p).
Proof.
  apply trace_grows_external. intros w w' r.
  destruct (run_pipeline (db w) p (coll_docs (db w) name)); now intros [= <- _].
Qed.

Lemma trace_grows_find (E : env) (name : string) : keeps trace_grows (find E name).
Proof. apply trace_grows_external. now intros w w' r [= <- _]. Qed.

Lemma trace_grows_makedirs (E : env) (path : string) :
  keeps trace_grows (makedirs E path).
Proof.
  apply trace_grows_external. intros w w' r. cbv beta zeta.
  repeat match goal with |- context [if ?c then _ else _] => destruct c end;
    now intros [= <- _].
Qed.

Lemma trace_grows_write_json (E : env) (dir name : string) (content : value) :
  keeps trace_grows (write_json E dir name content).
Proof.
  apply trace_grows_external. intros w w' r. cbv beta zeta.
  destruct (json_encode (Some py_str) content);
    repeat match goal with |- context [if ?c then _ else _] => destruct c end;
    now intros [= <- _].
Qed.

Ltac grows :=
  first
    [ exact trace_grows_refl | exact trace_grows_trans | exact trace_grows_print
    | intros; first
        [ apply trace_grows_now | apply trace_grows_drop
        | apply trace_grows_create_collection | apply trace_grows_create_index
        | apply trace_grows_insert_many | apply trace_grows_count_documents
        | apply trace_grows_aggregate | apply trace_grows_find
        | apply trace_grows_makedirs | apply trace_grows_write_json ] ].

(* ===================================================================== *)
(** * The Validator *)
(* ===================================================================== *)

Lemma bind_external {A B : Type} (E : env) (cl : call) (body : M A) (k : A -> M B)
    (w : world) :
  bind (external E cl body) k w =
  match fault E (length (trace w)) with
  | Some e => (called cl w, Failed e)
  | None => bind body k (called cl w)
  end.
Proof. unfold bind, external. now destruct (fault E (length (trace w))). Qed.

Lemma length_trace_called (cl : call) (w : world) :
  length (trace (called cl w)) = S (length (trace w)).
Proof. unfold called. cbn [trace set_trace]. rewrite length_app. simpl. lia. Qed.

Lemma reads_only_refl (w : world) : reads_only w w.
Proof. unfold reads_only. auto. Qed.

Lemma reads_only_same (w w' : world) :
  db w' = db w -> files w' = files w -> dirs w' = dirs w -> console w' = console w ->
  reads_only w w'.
Proof. intros H1 H2 H3 H4. unfold reads_only. rewrite H4. auto. Qed.

Lemma reads_only_trans (a b c : world) : reads_only a b -> reads_only b c -> reads_only a c.
Proof.
  intros (H1 & H2 & H3 & H4) (K1 & K2 & K3 & K4).
  split; [congruence |]. split; [congruence |]. split; [congruence |].
  now transitivity (console b).
Qed.

Lemma reads_only_print (m : msg) : keeps reads_only (print m).
Proof.
  intros w w' r [= <- _]. unfold reads_only. cbn. repeat split. now exists [m].
Qed.

Lemma reads_only_aggregate (E : env) (name : string) (p : list stage) :
  keeps reads_only (aggregate E name p).
Proof.
  apply keeps_external; [exact reads_only_trans | intros w; now apply reads_only_same |].
  intros w w' r. destruct (run_pipeline (db w) p (coll_docs (db w) name));
    intros [= <- _]; apply reads_only_refl.
Qed.

(** The query test of the Validator: the [try] at the end of
    [validate_setup]. *)
Lemma validate_setup_tail (E : env) :
  exists tail : M unit,
    validate_setup E
    = (print (Say "Validazione setup...") ;;
       n_autori <- count_documents E "autori" ;;
       n_libri <- count_documents E "libri" ;;
       n_utenti <- count_documents E "utenti" ;;
       n_prestiti <- count_documents E "prestiti" ;;
       print (Say "Documenti per collezione:") ;;
       print (CountLine "autori" n_autori) ;;
       print (CountLine "libri" n_libri) ;;
       print (CountLine "utenti" n_utenti) ;;
       print (CountLine "prestiti" n_prestiti) ;;
       ret tt ;;
       print (Say "Test query:") ;;
       tail) /\
    caught tail /\ keeps reads_only tail /\ keeps trace_grows tail.
Proof.
  eexists. split; [reflexivity |]. split; [| split].
  - apply caught_try_except; [| intros e; apply caught_print].
    apply safe_bind; [apply safe_external; intros w w' r H c ->;
                      destruct (run_pipeline _ _ _); discriminate | intros l].
    apply safe_bind; [apply safe_print | intros _].
    destruct l as [|primo l]; [apply safe_ret |].
    apply safe_bind; [| intros ?; apply safe_bind; [| intros ?; apply safe_print]];
      unfold dict_item; destruct (dict_get _ _); intros w w' r [= _ <-]; discriminate.
  - apply keeps_try_except; [exact reads_only_trans | | intros e; apply reads_only_print].
    apply keeps_bind; [exact reads_only_trans | apply reads_only_aggregate | intros l].
    apply keeps_bind; [exact reads_only_trans | apply reads_only_print | intros _].
    destruct l as [|primo l]; [apply keeps_ret; exact reads_only_refl |].
    repeat (apply keeps_bind;
            [exact reads_only_trans
            | apply frame_dict_item; exact reads_only_refl | intros ?]).
    apply reads_only_print.
  - apply keeps_try_except; [exact trace_grows_trans | | intros e; apply trace_grows_print].
    apply keeps_bind; [exact trace_grows_trans | apply trace_grows_aggregate | intros l].
    apply keeps_bind; [exact trace_grows_trans | apply trace_grows_print | intros _].
    destruct l as [|primo l]; [apply keeps_ret; exact trace_grows_refl |].
    repeat (apply keeps_bind;
            [exact trace_grows_trans
            | apply frame_dict_item; exact trace_grows_refl | intros ?]).
    apply trace_grows_print.
Qed.

(** X7. [validate_setup] changes nothing that is stored: the database, the
    files and the directories are as before.  Its four counts are outside
    any [try]: the first of these four calls that fails ends the stage with
    that exception, after the heading alone was printed.  When none fails
    it returns normally, whatever happens in the query test, and the lines
    printed begin with the heading and the number of documents each
    collection holds, in the order [autori], [libri], [utenti],
    [prestiti]. *)
Theorem validate_setup_reports (E : env) (w : world) :
  let w' := fst (validate_setup E w) in
  db w' = db w /\ files w' = files w /\ dirs w' = dirs w /\
  match first_fault E (length (trace w)) 4 with
  | Some e =>
      snd (validate_setup E w) = Failed e /\
      new_lines w w' = [Say "Validazione setup..."]
  | None =>
      snd (validate_setup E w) = Done tt /\
      exists rest,
        new_lines w w'
        = [Say "Validazione setup..."; Say "Documenti per collezione:";
           CountLine "autori" (count w "autori");
           CountLine "libri" (count w "libri");
           CountLine "utenti" (count w "utenti");
           CountLine "prestiti" (count w "prestiti");
           Say "Test query:"] ++ rest
  end.
Proof.
  cbn zeta. destruct (validate_setup E w) as [w' r] eqn:Hrun. cbn [fst snd].
  destruct (validate_setup_tail E) as (tail & Heq & Hc & Hk & _).
  rewrite Heq in Hrun. clear Heq. unfold count_documents in Hrun.
  rewrite (bind_done (print _) _ w _ tt eq_refl) in Hrun.
  cbn [first_fault].
  rewrite bind_external in Hrun.
  change (length (trace (set_console _ w))) with (length (trace w)) in Hrun.
  destruct (fault E (length (trace w))).
  { injection Hrun as <- <-. unfold new_lines. cbn.
    repeat (split; [reflexivity |]). apply drop_app_length. }
  unfold bind at 1 in Hrun. rewrite bind_external, length_trace_called in Hrun.
  cbn [trace set_console] in Hrun.
  destruct (fault E (S (length (trace w)))).
  { injection Hrun as <- <-. unfold new_lines. cbn.
    repeat (split; [reflexivity |]). apply drop_app_length. }
  unfold bind at 1 in Hrun. rewrite bind_external, !length_trace_called in Hrun.
  cbn [trace set_console] in Hrun.
  destruct (fault E (S (S (length (trace w))))).
  { injection Hrun as <- <-. unfold new_lines. cbn.
    repeat (split; [reflexivity |]). apply drop_app_length. }
  unfold bind at 1 in Hrun. rewrite bind_external, !length_trace_called in Hrun.
  cbn [trace set_console] in Hrun.
  destruct (fault E (S (S (S (length (trace w)))))).
  { injection Hrun as <- <-. unfold new_lines. cbn.
    repeat (split; [reflexivity |]). apply drop_app_length. }
  unfold bind at 1 in Hrun.
  do 7 (erewrite bind_done in Hrun by reflexivity).
  match type of Hrun with tail ?x = _ => set (w1 := x) in Hrun end.
  destruct (Hc w1) as (w2 & [] & Hrun'). rewrite Hrun' in Hrun.
  injection Hrun as <- <-.
  destruct (Hk _ _ _ Hrun') as (Hdb & Hfiles & Hdirs & rest & Hcons).
  rewrite Hdb, Hfiles, Hdirs. repeat (split; [reflexivity |]).
  exists rest. unfold new_lines. rewrite Hcons. subst w1.
  cbn [console set_console called set_trace db]. unfold count.
  rewrite <- !app_assoc. rewrite drop_app_length. reflexivity.
Qed.

(* ===================================================================== *)
(** * The Exporter, as a whole *)
(* ===================================================================== *)

Lemma export_frame_refl (w : world) : export_frame w w.
Proof. unfold export_frame. auto. Qed.

Lemma export_frame_trans (a b c : world) :
  export_frame a b -> export_frame b c -> export_frame a c.
Proof.
  intros (H1 & H2 & H3) (K1 & K2 & K3).
  split; [congruence |]. split; [congruence |].
  intros p Hp. now rewrite K3, H3.
Qed.

Lemma export_frame_same (w w' : world) :
  db w' = db w -> dirs w' = dirs w -> files w' = files w -> export_frame w w'.
Proof. intros H1 H2 H3. unfold export_frame. rewrite H3. auto. Qed.

Lemma safe_export_body (E : env) (name : string) :
  safe (documents <- find E name ;;
        write_json E "data" (name +:+ "_sample.json")
          (VArr (map VDoc (map convert_doc documents))) ;;
        print (FileCreated ("data/" +:+ (name +:+ "_sample.json"))
                 (length (map convert_doc documents)))).
Proof.
  apply safe_bind; [apply safe_external; intros w w' r [= _ <-]; discriminate | intros ds].
  apply safe_bind; [| intros _; apply safe_print].
  apply safe_external. intros w w' r H c ->.
  destruct (existsb _ _); [destruct (json_encode _ _) |]; discriminate.
Qed.

Lemma caught_export_collection (E : env) (name : string) :
  caught (export_collection E name).
Proof.
  apply caught_try_except; [apply safe_export_body | intros e; apply caught_print].
Qed.

Lemma export_frame_collection (E : env) (name : string) :
  In name export_names -> keeps export_frame (export_collection E name).
Proof.
  intros Hin. unfold export_collection.
  assert (Hp : forall m, keeps export_frame (print m)).
  { intros m w w' r [= <- _]. now apply export_frame_same. }
  apply keeps_try_except; [exact export_frame_trans | | intros e; apply Hp].
  apply keeps_bind; [exact export_frame_trans | | intros ds].
  { apply keeps_external; [exact export_frame_trans | intros w; now apply export_frame_same |].
    intros w w' r [= <- _]. apply export_frame_refl. }
  apply keeps_bind; [exact export_frame_trans | | intros _; apply Hp].
  apply keeps_external; [exact export_frame_trans | intros w; now apply export_frame_same |].
  intros w w' r H.
  destruct (existsb _ _); [destruct (json_encode _ _) |];
    injection H as <- _; try apply export_frame_refl.
  split; [reflexivity |]. split; [reflexivity |].
  intros p Hp'. cbn [files set_files]. apply lookup_insert_ne.
  intros <-. apply Hp'. apply in_map_iff. now exists name.
Qed.

(** X8. [export_sample_json] never changes the database, and of the files
    it touches only the four export files.  [os.makedirs] is outside any
    [try]: when that call fails the stage ends with its exception, having
    written nothing.  Otherwise it returns normally, whatever happens to
    the single exports, and the directory [data] exists. *)
Theorem export_sample_json_outcome (E : env) (w : world) :
  let w' := fst (export_sample_json E w) in
  db w' = db w /\
  (forall p, ~ In p (map export_path export_names) -> files w' !! p = files w !! p) /\
  match fault E (length (trace w)) with
  | Some e =>
      snd (export_sample_json E w) = Failed e /\
      files w' = files w /\ dirs w' = dirs w
  | None =>
      snd (export_sample_json E w) = Done tt /\
      existsb (String.eqb "data") (dirs w') = true
  end.
Proof.
  cbn zeta. destruct (export_sample_json E w) as [w' r] eqn:Hrun. cbn [fst snd].
  unfold export_sample_json, makedirs in Hrun.
  rewrite (bind_done (print _) _ w _ tt eq_refl) in Hrun.
  rewrite bind_external in Hrun. cbn [trace set_console] in Hrun.
  destruct (fault E (length (trace w))).
  { injection Hrun as <- <-. cbn. auto. }
  unfold bind at 1 in Hrun. cbv zeta in Hrun.
  match type of Hrun with for_each _ _ ?x = _ => set (w1 := x) in Hrun end.
  assert (Hdir : existsb (String.eqb "data") (dirs w1) = true).
  { subst w1. cbn [called set_trace dirs set_console].
    destruct (existsb (String.eqb "data") (dirs w)) eqn:Hd.
    - cbn [dirs set_console set_trace]. exact Hd.
    - cbn [dirs set_dirs set_console set_trace]. rewrite existsb_app. cbn.
      now rewrite orb_true_r. }
  assert (Hw1 : db w1 = db w /\ files w1 = files w).
  { subst w1. cbn [called set_trace dirs set_console].
    destruct (existsb (String.eqb "data") (dirs w)); split; reflexivity. }
  destruct Hw1 as [Hdb1 Hfiles1].
  assert (Hc : caught (for_each export_names (export_collection E))).
  { apply caught_for_each. intros x. apply caught_export_collection. }
  assert (Hk : keeps export_frame (for_each export_names (export_collection E))).
  { apply keeps_for_each; [exact export_frame_refl | exact export_frame_trans |].
    intros x Hx. now apply export_frame_collection. }
  destruct (Hc w1) as (w2 & [] & Hrun'). unfold export_names in Hrun'.
  rewrite Hrun' in Hrun. injection Hrun as <- <-.
  destruct (Hk _ _ _ Hrun') as (Hdb & Hdirs & Hfiles).
  rewrite Hdb, Hdb1, Hdirs. split; [reflexivity |].
  split; [intros p Hp; now rewrite (Hfiles p Hp), Hfiles1 |].
  split; [reflexivity | exact Hdir].
Qed.




(* ===================================================================== *)
(** * The whole run *)
(* ===================================================================== *)

Lemma blamed_later (E : env) (P : call -> Prop) (a b c : world) (e : exn) :
  trace_grows a b -> blamed E P b c e -> blamed E P a c e.
Proof.
  intros Hab (pre & cl & Ht & Hlen & Hf & Hp). exists pre, cl.
  repeat split; try assumption.
  apply prefix_length in Hab. lia.
Qed.

Lemma fatal_only_bind {A B : Type} (E : env) (P : call -> Prop) (m : M A) (k : A -> M B) :
  fatal_only E P m -> (forall a, fatal_only E P (k a)) -> fatal_only E P (bind m k).
Proof.
  intros Hm Hk w w' r. unfold bind.
  destruct (m w) as [w1 [a|e|c]] eqn:Hw; destruct (Hm _ _ _ Hw) as [Hg Hr].
  - intros Hka. destruct (Hk a _ _ _ Hka) as [Hg' Hr'].
    split; [exact (trace_grows_trans _ _ _ Hg Hg') |].
    destruct r as [b|e|c]; [exact I | now apply (blamed_later E P w w1) |].
    destruct Hr' as [Hc [e He]]. split; [exact Hc |]. exists e.
    now apply (blamed_later E P w w1).
  - intros [= <- <-]. now split.
  - intros [= <- <-]. now split.
Qed.

Lemma fatal_only_caught {A : Type} (E : env) (P : call -> Prop) (m : M A) :
  caught m -> keeps trace_grows m -> fatal_only E P m.
Proof.
  intros Hc Hk w w' r H. split; [exact (Hk _ _ _ H) |].
  destruct (Hc w) as (w1 & a & Hw). rewrite Hw in H. now injection H as _ <-.
Qed.

(** A call that can only fail by a fault of the environment. *)
Lemma fatal_only_external {A : Type} (E : env) (P : call -> Prop) (cl : call) (body : M A) :
  P cl ->
  (forall w, exists w' a, body w = (w', Done a) /\ trace w' = trace w) ->
  fatal_only E P (external E cl body).
Proof.
  intros Hp Hb w w' r. unfold external.
  destruct (fault E (length (trace w))) as [e|] eqn:Hf.
  - intros [= <- <-]. split.
    + unfold trace_grows. cbn [trace set_trace]. now exists [cl].
    + exists (trace w), cl. cbn [trace set_trace]. auto.
  - destruct (Hb (set_trace (fun t => t ++ [cl]) w)) as (w1 & a & -> & Ht).
    intros [= <- <-]. split; [| exact I].
    unfold trace_grows. rewrite Ht. cbn [trace set_trace]. now exists [cl].
Qed.

Lemma fatal_only_validate_setup (E : env) : fatal_only E fatal_call (validate_setup E).
Proof.
  destruct (validate_setup_tail E) as (tail & -> & Hc & _ & Hg).
  assert (Hp : forall m, fatal_only E fatal_call (print m)).
  { intros m. apply fatal_only_caught; [apply caught_print | apply trace_grows_print]. }
  assert (Hn : forall name, fatal_only E fatal_call (count_documents E name)).
  { intros name. apply fatal_only_external.
    - right. left. now exists name.
    - intros w. now eexists _, _. }
  repeat (apply fatal_only_bind; [first [apply Hp | apply Hn] | intros ?]).
  apply fatal_only_bind.
  - apply fatal_only_caught; [apply caught_ret | apply keeps_ret; exact trace_grows_refl].
  - intros _. apply fatal_only_bind; [apply Hp | intros _].
    now apply fatal_only_caught.
Qed.

Lemma fatal_only_export_sample_json (E : env) :
  fatal_only E fatal_call (export_sample_json E).
Proof.
  unfold export_sample_json.
  apply fatal_only_bind;
    [apply fatal_only_caught; [apply caught_print | apply trace_grows_print] | intros _].
  apply fatal_only_bind.
  - apply fatal_only_external.
    + right. right. now exists "data".
    + intros w. destruct (existsb (String.eqb "data") (dirs w)); now eexists _, _.
  - intros _. cbv zeta. apply fatal_only_caught.
    + apply caught_for_each. intros x. apply caught_export_collection.
    + apply keeps_for_each; [exact trace_grows_refl | exact trace_grows_trans |].
      intros x _. apply frame_export_collection; grows.
Qed.

Lemma caught_drop_database (E : env) : caught (drop_database E).
Proof.
  apply caught_try_except; [| intros e; apply caught_print].
  apply safe_bind; [| intros _; apply safe_print].
  apply safe_external. intros w w' r [= _ <-]. discriminate.
Qed.

Lemma caught_create_collections (E : env) : caught (create_collections E).
Proof.
  rewrite create_collections_loop.
  apply caught_bind; [apply caught_print | intros _].
  apply caught_for_each. intros [name v].
  apply caught_try_except; [| intros e; apply caught_print].
  apply safe_bind; [apply safe_create_collection | intros _; apply safe_print].
Qed.

Lemma caught_create_indexes (E : env) : caught (create_indexes E).
Proof.
  destruct (create_indexes_body E) as (body & -> & _ & _ & _ & Hsafe & _).
  apply caught_bind; [apply caught_print | intros _].
  apply caught_try_except; [exact Hsafe | intros e; apply caught_print].
Qed.

Lemma fatal_only_run_complete_setup (E : env) (reset : bool) :
  fatal_only E fatal_call (run_complete_setup E reset).
Proof.
  assert (Hp : forall m, fatal_only E fatal_call (print m)).
  { intros m. apply fatal_only_caught; [apply caught_print | apply trace_grows_print]. }
  unfold run_complete_setup.
  apply fatal_only_bind; [apply Hp | intros _].
  apply fatal_only_bind.
  { destruct reset.
    - apply fatal_only_caught; [apply caught_drop_database |].
      apply frame_drop_database; grows.
    - apply fatal_only_caught; [apply caught_ret | apply keeps_ret; exact trace_grows_refl]. }
  intros _. apply fatal_only_bind.
  { apply fatal_only_caught; [apply caught_create_collections |].
    apply frame_create_collections; grows. }
  intros _. apply fatal_only_bind.
  { apply fatal_only_caught; [apply caught_create_indexes |].
    apply frame_create_indexes; grows. }
  intros _. apply fatal_only_bind.
  { apply fatal_only_caught; [apply caught_load |].
    apply frame_load_sample_data; grows. }
  intros _. apply fatal_only_bind; [apply fatal_only_validate_setup | intros _].
  apply fatal_only_bind; [apply fatal_only_export_sample_json | intros _].
  repeat (apply fatal_only_bind; [apply Hp | intros _]). apply Hp.
Qed.

Lemma fatal_only_init (E : env) : fatal_only E fatal_call (init E).
Proof.
  intros w w' r. unfold init, ping, external.
  assert (Hg : trace_grows w (set_trace (fun t => t ++ [CPing]) w)).
  { unfold trace_grows. cbn [trace set_trace]. now exists [CPing]. }
  assert (Hb : forall e, fault E (length (trace w)) = Some e ->
                 blamed E fatal_call w (set_trace (fun t => t ++ [CPing]) w) e).
  { intros e He. exists (trace w), CPing. cbn [trace set_trace].
    repeat split; auto. now left. }
  destruct (fault E (length (trace w))) as [e|].
  - specialize (Hb e eq_refl).
    destruct e; intros [= <- <-]; try (split; [exact Hg | exact Hb]).
    split; [exact Hg |]. split; [reflexivity |]. now exists ConnectionFailure.
  - intros [= <- <-]. split; [exact Hg | exact I].
Qed.

(** X10. The exit status of the script is 0 or 1, whatever the environment,
    the store and the [--reset] flag.  It is 1 only when the last external
    call made is the ping, one of the four [count_documents] of the
    Validator or the [os.makedirs] of the Exporter, and that call failed:
    these are the calls the script makes outside any [try] of its own.
    Every other failure, of any call to the store or to the file system,
    is reported on the console and leaves the status 0.  In particular the
    status is 0 when no external call fails. *)
Theorem main_exit_status (E : env) (reset : bool) (w : world) :
  let w' := fst (main E reset w) in
  let code := snd (main E reset w) in
  (code = 0 \/ code = 1) /\
  (code = 1 -> exists e, blamed E fatal_call w w' e) /\
  (faultless E -> code = 0).
Proof.
  cbn zeta.
  assert (H : (snd (main E reset w) = 0 \/ snd (main E reset w) = 1) /\
              (snd (main E reset w) = 1 ->
               exists e, blamed E fatal_call w (fst (main E reset w)) e)).
  { unfold main.
    destruct ((init E ;; run_complete_setup E reset) w) as [w1 r] eqn:Hrun.
    pose proof (fatal_only_bind E fatal_call _ _ (fatal_only_init E)
                  (fun _ => fatal_only_run_complete_setup E reset) _ _ _ Hrun)
      as [_ Hr].
    destruct r as [a|e|c]; cbn [fst snd].
    - split; [now left | discriminate].
    - split; [now right |]. intros _. exists e.
      destruct Hr as (pre & cl & Ht & Hlen & Hf & Hp). now exists pre, cl.
    - destruct Hr as [-> He]. split; [now right |]. intros _. exact He. }
  destruct H as [H01 H1]. split; [exact H01 |]. split; [exact H1 |].
  intros Hf. destruct H01 as [H0|Hone]; [exact H0 |].
  destruct (H1 Hone) as (e & pre & cl & _ & _ & He & _).
  rewrite Hf in He. discriminate.
Qed.

Lemma main_exit_status_witness :
  snd (main (calm sample_clock) true (seeded_world sample_clock)) = 0.
Proof.
  apply (main_exit_status (calm sample_clock) true (seeded_world sample_clock)).
  intros n. reflexivity.
Defined.

(** X11. When the ping fails nothing else is attempted: the ping is the only
    call made, the database, the files and the directories are as before,
    and the exit status is 1.  A [ConnectionFailure] is reported by
    [__init__] as the connection error; any other exception of the ping
    passes through [__init__] and is reported by [main]. *)
Theorem ping_failure_stops (E : env) (reset : bool) (w : world) (e : exn) :
  fault E (length (trace w)) = Some e ->
  let w' := fst (main E reset w) in
  snd (main E reset w) = 1 /\
  new_calls w w' = [CPing] /\
  db w' = db w /\ files w' = files w /\ dirs w' = dirs w /\
  new_lines w w'
  = [match e with
     | ConnectionFailure => Say "Errore: Impossibile connettersi a MongoDB"
     | _ => SetupFailed e
     end].
Proof.
  intros Hf. cbn zeta. unfold main, bind, init, ping, external. rewrite Hf.
  unfold new_calls, new_lines.
  destruct e; cbn; repeat (split; [first [reflexivity | apply drop_app_length] |]);
    apply drop_app_length.
Qed.

Lemma ping_failure_stops_witness :
  snd (main (failing_at 0 ConnectionFailure sample_clock) false fresh_world) = 1 /\
  db (fst (main (failing_at 0 ConnectionFailure sample_clock) false fresh_world))
  = db fresh_world.
Proof.
  destruct (ping_failure_stops (failing_at 0 ConnectionFailure sample_clock) false
              fresh_world ConnectionFailure eq_refl) as (H1 & _ & H2 & _).
  split; [exact H1 | exact H2].
Defined.

Lemma reset_run_from_empty (E : env) (w : world) :
  fault E (length (trace w)) = None ->
  fault E (S (length (trace w))) = None ->
  (init E ;; run_complete_setup E true) w
  = (init E ;; run_complete_setup E true) (set_db (fun _ => ∅) w).
Proof.
  intros H0 H1.
  unfold init, ping, run_complete_setup, drop_database, try_except,
    client_drop_database, external, print, ret, bind.
  cbn [trace set_trace set_console set_db].
  rewrite H0. cbn [trace set_trace set_console set_db].
  rewrite length_app. cbn [length]. rewrite Nat.add_1_r, H1.
  destruct w; reflexivity.
Qed.

(** X12. [--reset] discards what the database held: when the ping and the
    [drop_database] call go through, the whole run, its exit status and
    the world it leaves are those of the same run on an empty database. *)
Theorem reset_discards_store (E : env) (w : world) :
  fault E (length (trace w)) = None ->
  fault E (S (length (trace w))) = None ->
  main E true w = main E true (set_db (fun _ => ∅) w).
Proof.
  intros H0 H1. unfold main. now rewrite (reset_run_from_empty E w H0 H1).
Qed.

Lemma reset_discards_store_witness :
  main (calm sample_clock) true (seeded_world sample_clock)
  = main (calm sample_clock) true (set_db (fun _ => ∅) (seeded_world sample_clock)).
Proof.
  apply (reset_discards_store (calm sample_clock) (seeded_world sample_clock));
    reflexivity.
Defined.

(** X13. A run with [--reset] in a new process ends, whatever the database
    held before and whatever the clock says, with status 0 and with
    exactly the seed records: 3 authors, 3 books, 3 patrons and 2 loans. *)
Theorem reset_run_counts (store : gmap string collection) (clock : nat -> datetime) :
  let res := main (calm clock) true (set_db (fun _ => store) fresh_world) in
  snd res = 0 /\
  count (fst res) "autori" = 3%nat /\ count (fst res) "libri" = 3%nat /\
  count (fst res) "utenti" = 3%nat /\ count (fst res) "prestiti" = 2%nat.
Proof.
  cbn zeta. unfold main.
  rewrite (reset_run_from_empty (calm clock) (set_db (fun _ => store) fresh_world)
             eq_refl eq_refl).
  change (set_db (fun _ => ∅) (set_db (fun _ => store) fresh_world)) with fresh_world.
  repeat split; vm_compute; reflexivity.
Qed.

(* ===================================================================== *)
(** * What the four validators guarantee *)
(* ===================================================================== *)

(** ** The e-mail pattern *)





(** ** Reading a validated document *)




Lemma validated_field (sc : schema) (d : doc) (k : string) (fs : field_schema) :
  validate sc d = true -> In k (required sc) -> In (k, fs) (properties sc) ->
  exists v, dict_get k d = Some v /\ check_field fs v = true.
Proof.
  intros Hv Hr Hp. destruct (validate_required _ _ _ Hv Hr) as [v Hget].
  exists v. split; [assumption |]. exact (validate_property _ _ _ _ _ Hv Hp Hget).
Qed.





(** ** The four schemas *)

Ltac required_field Hv k fs v Hget Hc :=
  destruct (validated_field _ _ k fs Hv) as (v & Hget & Hc);
  [simpl; tauto | simpl; tauto |].

Ltac optional_field Hv k fs :=
  let v := fresh "v" in
  let Hget := fresh "Hget" in
  intros v Hget;
  assert (check_field fs v = true)
    by (eapply (validate_property _ _ k); [exact Hv | simpl; tauto | exact Hget]).












(* ===================================================================== *)
(** * Running the set-up on a store that has data *)
(* ===================================================================== *)

Lemma store_grows_refl (w : world) : store_grows w w.
Proof. intros n. split; [reflexivity |]. split; [reflexivity | auto]. Qed.

Lemma store_grows_same (w w' : world) : db w' = db w -> store_grows w w'.
Proof. intros H n. rewrite H. split; [reflexivity |]. split; [reflexivity | auto]. Qed.

Lemma store_grows_trans (a b c : world) :
  store_grows a b -> store_grows b c -> store_grows a c.
Proof.
  intros H1 H2 n. destruct (H1 n) as (Hd1 & Hi1 & Hv1), (H2 n) as (Hd2 & Hi2 & Hv2).
  split; [now transitivity (coll_docs (db b) n) |].
  split; [now transitivity (coll_indexes (db b) n) | auto].
Qed.

Lemma store_grows_data_kept (w w' : world) : data_kept w w' -> store_grows w w'.
Proof.
  intros H n. destruct (H n) as (Hd & Hv & Hi).
  rewrite Hd, Hv. split; [reflexivity |]. split; [assumption | auto].
Qed.

Lemma store_grows_only_appends (w w' : world) : only_appends w w' -> store_grows w w'.
Proof.
  intros H n. destruct (H n) as (Hd & Hv & Hi).
  rewrite Hv, Hi. split; [assumption |]. split; [reflexivity | auto].
Qed.

Lemma store_grows_create_collection (E : env) (name : string) (v : schema) :
  keeps store_grows (create_collection E name v).
Proof.
  intros w w' r H.
  apply create_collection_effect in H as [[Hdb _] | [Hnone Hdb]];
    [now apply store_grows_same |].
  intros n. rewrite Hdb. destruct (String.eqb_spec n name) as [->|Hne].
  - unfold coll_docs, coll_indexes, coll_validator. rewrite Hnone, lookup_insert_eq.
    cbn [documents indexes validator].
    split; [reflexivity |]. split; [reflexivity | discriminate].
  - destruct (coll_insert_ne (db w) name n (Collection (Some v) [] []) Hne)
      as (-> & -> & ->).
    split; [reflexivity |]. split; [reflexivity | auto].
Qed.

Lemma store_grows_create_index (E : env) (name : string) (ks : list (string * direction))
    (uniq : bool) :
  keeps store_grows (create_index E name ks uniq).
Proof.
  intros w w' r H. apply store_grows_data_kept.
  now apply create_index_effect in H.
Qed.

Lemma store_grows_insert_many (E : env) (name : string) (ds : list doc) :
  keeps store_grows (insert_many E name ds).
Proof.
  intros w w' r H. apply store_grows_only_appends.
  exact (only_appends_insert_many E name ds _ _ _ H).
Qed.

Lemma same_store_external {A : Type} (E : env) (cl : call) (body : M A) :
  (forall w w' r, body w = (w', r) -> db w' = db w) ->
  keeps same_store (external E cl body).
Proof.
  intros Hb. apply keeps_external; [exact same_store_trans | |].
  - intros w. reflexivity.
  - intros w w' r H. exact (Hb _ _ _ H).
Qed.

Lemma same_store_now (E : env) : keeps same_store (now E).
Proof. apply keeps_now. intros w n. reflexivity. Qed.

Lemma same_store_count_documents (E : env) (name : string) :
  keeps same_store (count_documents E name).
Proof. apply same_store_external. now intros w w' r [= <- _]. Qed.

Lemma same_store_aggregate (E : env) (name : string) (p : list stage) :
  keeps same_store (aggregate E name p).
Proof.
  apply same_store_external. intros w w' r.
  destruct (run_pipeline (db w) p (coll_docs (db w) name)); now intros [= <- _].
Qed.

Lemma same_store_find (E : env) (name : string) : keeps same_store (find E name).
Proof. apply same_store_external. now intros w w' r [= <- _]. Qed.

Lemma same_store_makedirs (E : env) (path : string) :
  keeps same_store (makedirs E path).
Proof.
  apply same_store_external. intros w w' r. cbv beta zeta.
  repeat match goal with |- context [if ?c then _ else _] => destruct c end;
    now intros [= <- _].
Qed.

Lemma same_store_write_json (E : env) (dir name : string) (content : value) :
  keeps same_store (write_json E dir name content).
Proof.
  apply same_store_external. intros w w' r. cbv beta zeta.
  destruct (json_encode (Some py_str) content);
    repeat match goal with |- context [if ?c then _ else _] => destruct c end;
    now intros [= <- _].
Qed.

Ltac store_frame :=
  first
    [ exact store_grows_refl | exact store_grows_trans
    | intros; first
        [ apply store_grows_create_collection | apply store_grows_create_index
        | apply store_grows_insert_many
        | apply keeps_same_store;
          [ exact store_grows_same
          | first [ apply keeps_print | apply same_store_now
                  | apply same_store_count_documents | apply same_store_aggregate
                  | apply same_store_find | apply same_store_makedirs
                  | apply same_store_write_json ] ] ] ].

Lemma store_grows_run (E : env) : keeps store_grows (run_complete_setup E false).
Proof.
  unfold run_complete_setup.
  apply keeps_bind; [exact store_grows_trans | store_frame | intros _].
  apply keeps_bind;
    [exact store_grows_trans | apply keeps_ret; exact store_grows_refl | intros _].
  apply keeps_bind;
    [exact store_grows_trans | apply frame_create_collections; store_frame | intros _].
  apply keeps_bind;
    [exact store_grows_trans | apply frame_create_indexes; store_frame | intros _].
  apply keeps_bind;
    [exact store_grows_trans | apply frame_load_sample_data; store_frame | intros _].
  apply keeps_bind;
    [exact store_grows_trans | apply frame_validate_setup; store_frame | intros _].
  apply keeps_bind;
    [exact store_grows_trans | apply frame_export_sample_json; store_frame | intros _].
  repeat (apply keeps_bind; [exact store_grows_trans | store_frame | intros _]).
  store_frame.
Qed.

(** X15. A run without [--reset] only adds to the store, whatever the
    environment and whatever the store holds: in every collection the
    documents that were there stay as they are, in their order and before
    any new one, no index is dropped and a validator that is attached
    stays attached. *)
Theorem rerun_keeps_store (E : env) (w : world) :
  store_grows w (fst (main E false w)).
Proof.
  assert (Hinit : keeps store_grows (init E)).
  { intros w0 w1 r. unfold init, ping, external.
    destruct (fault E (length (trace w0))) as [e|];
      [destruct e |]; intros [= <- _]; now apply store_grows_same. }
  pose proof (keeps_bind store_grows (init E) (fun _ => run_complete_setup E false)
                store_grows_trans Hinit (fun _ => store_grows_run E)) as Hk.
  unfold main.
  destruct ((init E ;; run_complete_setup E false) w) as [w1 [a|e|c]] eqn:Hrun;
    cbn [fst]; exact (Hk _ _ _ Hrun).
Qed.

(* ===================================================================== *)
(** * Seeded books and their authors *)
(* ===================================================================== *)

Lemma only_touches_refl (names : list string) (w : world) : only_touches names w w.
Proof. intros n _. reflexivity. Qed.

Lemma only_touches_same (names : list string) (w w' : world) :
  db w' = db w -> only_touches names w w'.
Proof. intros H n _. now rewrite H. Qed.

Lemma only_touches_print (names : list string) (m : msg) :
  keeps (only_touches names) (print m).
Proof. intros w w' r [= <- _]. now apply only_touches_same. Qed.

Lemma only_touches_now (E : env) (names : list string) :
  keeps (only_touches names) (now E).
Proof. apply keeps_now. intros w n. now apply only_touches_same. Qed.

Lemma only_touches_insert_many (E : env) (names : list string) (name : string)
    (ds : list doc) :
  In name names -> keeps (only_touches names) (insert_many E name ds).
Proof.
  intros Hin w w' r H. destruct ds as [|d ds].
  { injection H as <- _. apply only_touches_refl. }
  apply insert_many_spec in H as (_ & _ & _ & _ & _ & Hother & _); [| discriminate].
  intros n Hn. apply Hother. intros ->. now apply Hn.
Qed.

(** A seeding stage adds the first few documents of its batch, stamped. *)
Lemma insert_stage_adds (E : env) (name : string) (data : list doc) (w w' : world)
    (r : outcome (list value + exn)) :
  data <> [] ->
  insert_stage E name data w = (w', r) ->
  (forall c, c <> name -> db w' !! c = db w !! c) /\
  exists done rest,
    stamped data (next_oid w) = done ++ rest /\
    coll_docs (db w') name = coll_docs (db w) name ++ done /\
    match r with
    | Done (inl ids) => rest = [] /\ ids = map doc_id (fst (assign_ids data (next_oid w)))
    | Done (inr _) => True
    | _ => False
    end.
Proof.
  intros Hne. destruct (insert_many E name data w) as [w1 r1] eqn:Hins.
  pose proof Hins as Hspec.
  apply insert_many_spec in Hspec
    as (_ & _ & _ & _ & _ & Hdb & _ & _ & done & rest & Hsplit & Hdocs & _ & Hr);
    [| assumption].
  destruct r1 as [ids|e|c]; [| | destruct Hr].
  - rewrite (insert_stage_done _ _ _ _ _ _ Hins). intros [= <- <-].
    split; [exact Hdb |]. exists done, rest. auto.
  - rewrite (insert_stage_failed _ _ _ _ _ _ Hins). intros [= <- <-].
    split; [exact Hdb |]. exists done, rest. auto.
Qed.

Lemma only_touches_insert_stage (E : env) (names : list string) (name : string)
    (data : list doc) :
  data <> [] -> In name names -> keeps (only_touches names) (insert_stage E name data).
Proof.
  intros Hne Hin w w' r H. apply insert_stage_adds in H as (Hother & _); [| assumption].
  intros n Hn. apply Hother. intros ->. now apply Hn.
Qed.

Lemma stamped_autori_ids (n : N) :
  map (dict_get "_id") (stamped autori_data n)
  = [Some (VOid (Oid n)); Some (VOid (Oid (N.succ n)));
     Some (VOid (Oid (N.succ (N.succ n))))].
Proof. reflexivity. Qed.

Lemma stamped_libri_refs (x0 x1 x2 : ObjectId) (m : N) :
  map (dict_get "autore_id") (stamped (libri_data (VOid x0) (VOid x1) (VOid x2)) m)
  = [Some (VOid x0); Some (VOid x1); Some (VOid x2)].
Proof. reflexivity. Qed.

(** X16. Every book [load_sample_data] adds refers, by [autore_id], to an
    author added by the same run: the references are the identifiers the
    authors insert returned, whatever the environment and the store, and
    also when the books batch is written only in part. *)
Theorem seeded_books_resolve (E : env) (w : world) (b : doc) :
  let w' := fst (load_sample_data E w) in
  In b (added w w' "libri") ->
  exists a o,
    In a (added w w' "autori") /\
    dict_get "autore_id" b = Some (VOid o) /\
    dict_get "_id" a = Some (VOid o).
Proof.
  cbn zeta. destruct (load_sample_data E w) as [w' r] eqn:Hrun. cbn [fst].
  rewrite load_sample_data_unfold in Hrun.
  set (w0 := say (Say "Caricamento dati di esempio...") w) in Hrun.
  assert (Hw0 : db w0 = db w) by reflexivity.
  destruct (insert_stage E "autori" autori_data w0) as [wA rA] eqn:HA.
  apply insert_stage_adds in HA as (HfA & doneA & restA & HsA & HdA & HrA);
    [| discriminate].
  destruct rA as [[aids|e]|e|c]; try (exfalso; exact HrA).
  2:{ injection Hrun as <- _. rewrite added_same; [intros [] |].
      rewrite HfA by discriminate. now rewrite Hw0. }
  destruct HrA as [-> Haids]. rewrite app_nil_r in HsA. subst doneA.
  rewrite autori_ids_from in Haids. subst aids.
  do 3 (erewrite bind_list_item in Hrun by reflexivity).
  set (n := next_oid w0) in *.
  unfold bind at 1 in Hrun.
  destruct (insert_stage E "libri" _ wA) as [wL rL] eqn:HL.
  apply insert_stage_adds in HL as (HfL & doneL & restL & HsL & HdL & HrL);
    [| discriminate].
  assert (Hrest : only_touches ["utenti"; "prestiti"] wL w').
  { destruct rL as [[lids|e]|e|c]; try (exfalso; exact HrL);
      [| injection Hrun as <- _; apply only_touches_refl].
    revert Hrun.
    match goal with |- ?m wL = _ -> _ =>
      assert (Hk : keeps (only_touches ["utenti"; "prestiti"]) m);
        [| intros Hrun; exact (Hk _ _ _ Hrun)] end.
    apply keeps_bind;
      [ apply only_touches_trans
      | apply only_touches_insert_stage; [discriminate | simpl; tauto]
      | intros [uids|e]; [| apply keeps_ret; apply only_touches_refl] ].
    repeat (apply keeps_bind;
            [ apply only_touches_trans
            | first [ apply only_touches_now
                    | apply frame_list_item; apply only_touches_refl ]
            | intros ? ]; cbv zeta).
    apply keeps_try_except;
      [apply only_touches_trans | | intros e; apply only_touches_print].
    apply keeps_bind;
      [ apply only_touches_trans
      | apply only_touches_insert_many; simpl; tauto
      | intros ?; apply only_touches_print ]. }
  assert (HA' : added w w' "autori" = stamped autori_data n).
  { apply added_app. change (db w0) with (db w) in HdA. rewrite <- HdA.
    apply coll_docs_same. rewrite (Hrest "autori").
    - apply HfL. discriminate.
    - simpl. intros [H|[H|[]]]; discriminate. }
  assert (HL' : added w w' "libri" = doneL).
  { apply added_app.
    rewrite (coll_docs_same (db wA) (db w) "libri")
      by (symmetry; rewrite HfA by discriminate; reflexivity).
    rewrite <- HdL. apply coll_docs_same. apply (Hrest "libri").
    simpl. intros [H|[H|[]]]; discriminate. }
  rewrite HA', HL'. intros Hb.
  assert (Hb' : In b (stamped (libri_data (VOid (Oid n)) (VOid (Oid (N.succ n)))
                                 (VOid (Oid (N.succ (N.succ n))))) (next_oid wA))).
  { rewrite HsL. apply in_or_app. now left. }
  apply (in_map (dict_get "autore_id")) in Hb'. rewrite stamped_libri_refs in Hb'.
  assert (Ha : forall o, In (Some (VOid o)) (map (dict_get "_id") (stamped autori_data n)) ->
                 dict_get "autore_id" b = Some (VOid o) ->
                 exists a o, In a (stamped autori_data n) /\
                             dict_get "autore_id" b = Some (VOid o) /\
                             dict_get "_id" a = Some (VOid o)).
  { intros o Hin Hget. apply in_map_iff in Hin as (a & Hida & Hina). eauto. }
  rewrite stamped_autori_ids in Ha.
  destruct Hb' as [Hb'|[Hb'|[Hb'|[]]]]; eapply Ha; try (symmetry; exact Hb');
    simpl; tauto.
Qed.

Lemma seeded_books_resolve_witness :
  In first_seed_book (added initialized_world seeded_once "libri") /\
  exists a o,
    In a (added initialized_world seeded_once "autori") /\
    dict_get "autore_id" first_seed_book = Some (VOid o) /\
    dict_get "_id" a = Some (VOid o).
Proof.
  assert (Hin : In first_seed_book (added initialized_world seeded_once "libri")).
  { vm_compute. left. reflexivity. }
  split; [exact Hin |].
  exact (seeded_books_resolve (calm sample_clock) initialized_world first_seed_book Hin).
Defined.
